(** * tracking.js: the Viola-Jones detector and its disjoint-set clustering

    A shallow embedding of [utils/DisjointSet.ts], [math/TrackingMath.ts]
    and [detection/ViolaJones.ts], with the properties the design document
    states about them.

    Conventions of the embedding.
    - A JavaScript [number] that carries a measurement (cascade values,
      scales, thresholds, ratios) is an IEEE-754 binary64 value, modelled by
      [spec_float] with the operations of [SpecFloat] at precision 53 and
      maximal exponent 1024.
    - A [number] that is an array index, an array length, a loop counter over
      indices or the result of [x | 0] is an integer below 2^53 and is
      modelled by [nat] or [Z]; it is converted with [Num.ofZ] where the
      source uses it in floating-point arithmetic.
    - A read of a typed array outside its bounds gives [undefined]; it is
      modelled by [None], which arithmetic turns into NaN.
    - Loops whose termination depends on the data take a fuel argument and
      return [None] when it runs out. *)

From Stdlib Require Import ZArith NArith List Lia Bool Relations SpecFloat.
From stdpp Require Import base list gmap sorting.

Set Default Goal Selector "!".

(* ================================================================== *)
(** * JavaScript numbers *)
(* ================================================================== *)

Module Num.

Definition prec : Z := 53.
Definition emax : Z := 1024.

Definition nan : spec_float := S754_nan.
Definition ofZ (z : Z) : spec_float := binary_normalize prec emax z 0 false.

Definition add : spec_float -> spec_float -> spec_float := SFadd prec emax.
Definition sub : spec_float -> spec_float -> spec_float := SFsub prec emax.
Definition mul : spec_float -> spec_float -> spec_float := SFmul prec emax.
Definition div : spec_float -> spec_float -> spec_float := SFdiv prec emax.
Definition sqrt : spec_float -> spec_float := SFsqrt prec emax.

(** [a < b], [a > b] and [a >= b]; each is false when an operand is NaN. *)
Definition ltb (a b : spec_float) : bool := SFltb a b.
Definition gtb (a b : spec_float) : bool := SFltb b a.
Definition geb (a b : spec_float) : bool := SFleb b a.
Definition leb (a b : spec_float) : bool := SFleb a b.

(** The literals [0], [1], [0.5] and [255]. *)
Definition zero : spec_float := ofZ 0.
Definition one : spec_float := ofZ 1.
Definition half : spec_float := div (ofZ 1) (ofZ 2).

(** A value used as a condition: false for [+0], [-0] and NaN. *)
Definition truthy (a : spec_float) : bool :=
  match a with
  | S754_zero _ | S754_nan => false
  | _ => true
  end.

(** A zero of either sign, or NaN: what a product with a zero factor is. *)
Definition null (a : spec_float) : bool :=
  match a with
  | S754_zero _ | S754_nan => true
  | _ => false
  end.

(** An element read from a typed array, [undefined] outside its bounds,
    as an operand of arithmetic. *)
Definition ofRead (v : option spec_float) : spec_float :=
  match v with Some a => a | None => nan end.

(** The integer part of a finite value, rounded towards zero; 0 for NaN
    and the infinities. *)
Definition truncate (a : spec_float) : Z :=
  match a with
  | S754_finite s m e =>
      let v := if (0 <=? e)%Z then (Z.pos m * 2 ^ e)%Z
               else (Z.pos m / 2 ^ (- e))%Z in
      if s then (- v)%Z else v
  | _ => 0%Z
  end.

(** [a | 0] and [~~a]: [ToInt32], truncation then reduction modulo 2^32
    into the signed range. *)
Definition toInt32 (a : spec_float) : Z :=
  let k := (truncate a mod 2 ^ 32)%Z in
  if (2 ^ 31 <=? k)%Z then (k - 2 ^ 32)%Z else k.

(** The largest integer not above a finite value, as mathematics has it;
    0 for NaN and the infinities. *)
Definition floor (a : spec_float) : Z :=
  match a with
  | S754_finite s m e =>
      if (0 <=? e)%Z then (if s then - (Z.pos m * 2 ^ e) else Z.pos m * 2 ^ e)%Z
      else ((if s then Z.neg m else Z.pos m) / 2 ^ (- e))%Z
  | _ => 0%Z
  end.

(** A zero, or a positive finite number whose integer part is below 2^31:
    the sizes and steps of a scan over an image. *)
Definition int31 (a : spec_float) : bool :=
  match a with
  | S754_zero _ => true
  | S754_finite false _ _ => (truncate a <? 2 ^ 31)%Z
  | _ => false
  end.

End Num.

(** Integers as the bit operations and the integer arrays see them. *)
Module Int.

(** [ToInt32]: the low 32 bits, as a signed number. *)
Definition toInt32 (z : Z) : Z := ((z + 2 ^ 31) mod 2 ^ 32 - 2 ^ 31)%Z.

(** [ToUint32]: the low 32 bits. *)
Definition toUint32 (z : Z) : Z := (z mod 2 ^ 32)%Z.

End Int.

(* ================================================================== *)
(** * utils/DisjointSet.ts *)
(* ================================================================== *)

Module DisjointSet.

(** [ToUint32] of a value stored into a [Uint32Array] element:
    [undefined] is stored as 0, an index modulo 2^32. *)
Definition toUint32 (v : option nat) : nat :=
  match v with
  | None => 0
  | Some n => N.to_nat (N.of_nat n mod 2 ^ 32)
  end.

Record t := mk { length : nat; parent : list nat }.

(** [constructor(length)]: [parent[i] = i] for every [i < length]. *)
Definition create (n : nat) : t :=
  mk n (map (fun i => toUint32 (Some i)) (seq 0 n)).

(** [find(i)] on the parent array.  The result is [Some r] for a number
    [r] and [None] for [undefined], which is what the source returns when
    [parent[i]] is [undefined]: then [parent[i] === i] fails, the inner
    call [find(undefined)] returns [undefined], and the store to an
    element outside the array is dropped.  The value of the assignment
    expression is the value found, not the element stored. *)
Fixpoint find_ (fuel : nat) (p : list nat) (i : nat)
  : option (option nat * list nat) :=
  match fuel with
  | O => None
  | S fuel' =>
      match p !! i with
      | None => Some (None, p)
      | Some pi =>
          if Nat.eqb pi i then Some (Some i, p)
          else
            match find_ fuel' p pi with
            | None => None
            | Some (r, p') => Some (r, <[i := toUint32 r]> p')
            end
      end
  end.

(** The recursion of [find] follows parent links; a chain that has not
    ended after as many links as the array has elements is on a cycle and
    never ends, so the depth [S (length parent)] loses no result. *)
Definition depth (p : list nat) : nat := S (List.length p).

Definition find (ds : t) (i : nat) : option (option nat * t) :=
  match find_ (depth (parent ds)) (parent ds) i with
  | None => None
  | Some (r, p') => Some (r, mk (length ds) p')
  end.

(** [union(i, j)]: [parent[find(i)] = find(j)].  A store under the key
    [undefined] does not touch the elements. *)
Definition union (ds : t) (i j : nat) : option t :=
  match find ds i with
  | None => None
  | Some (iRepresentative, ds1) =>
      match find ds1 j with
      | None => None
      | Some (jRepresentative, ds2) =>
          Some (match iRepresentative with
                | None => ds2
                | Some ri =>
                    mk (length ds2)
                       (<[ri := toUint32 jRepresentative]> (parent ds2))
                end)
      end
  end.

(** A sequence of [union] calls, in order. *)
Fixpoint unions (ds : t) (us : list (nat * nat)) : option t :=
  match us with
  | [] => Some ds
  | (i, j) :: us' =>
      match union ds i j with
      | None => None
      | Some ds' => unions ds' us'
      end
  end.

(** A sequence of [find] calls, in order, results dropped. *)
Fixpoint finds (ds : t) (ks : list nat) : option t :=
  match ks with
  | [] => Some ds
  | k :: ks' =>
      match find ds k with
      | None => None
      | Some (_, ds') => finds ds' ks'
      end
  end.

(** The expression [ds.find(i) == ds.find(j)], left operand first. *)
Definition find_eq (ds : t) (i j : nat) : option bool :=
  match find ds i with
  | None => None
  | Some (ri, ds1) =>
      match find ds1 j with
      | None => None
      | Some (rj, _) =>
          Some (match ri, rj with
                | Some a, Some b => Nat.eqb a b
                | None, None => true
                | _, _ => false
                end)
      end
  end.

(** The pairs passed to [union], as a relation, and its reflexive,
    symmetric and transitive closure. *)
Definition linked (us : list (nat * nat)) (a b : nat) : Prop := In (a, b) us.
Definition connected (us : list (nat * nat)) : nat -> nat -> Prop :=
  clos_refl_sym_trans nat (linked us).

Definition in_range (n : nat) (us : list (nat * nat)) : Prop :=
  Forall (fun ab => fst ab < n /\ snd ab < n) us.

(** States reached from [create n] by [union] on indices below [n] and by
    [find] on any index. *)
Inductive reachable (n : nat) : t -> Prop :=
| reach_create : reachable n (create n)
| reach_union ds i j ds' :
    reachable n ds -> i < n -> j < n -> union ds i j = Some ds' ->
    reachable n ds'
| reach_find ds k r ds' :
    reachable n ds -> find ds k = Some (r, ds') -> reachable n ds'.

(** ** The forest of parent links *)

(** [path p i r k]: [k] parent links lead from [i] to the root [r]. *)
Inductive path (p : list nat) : nat -> nat -> nat -> Prop :=
| path_root r : p !! r = Some r -> path p r r 0
| path_step i q r k :
    p !! i = Some q -> q <> i -> path p q r k -> path p i r (S k).

Definition rep (p : list nat) (i r : nat) : Prop := exists k, path p i r k.

(** Every element has a root, and elements fit a [Uint32Array]. *)
Definition forest (p : list nat) : Prop :=
  (N.of_nat (List.length p) <= 2 ^ 32)%N /\
  forall i, i < List.length p -> exists r, rep p i r.

(** The state invariant: a forest over [n] elements. *)
Definition ok (n : nat) (ds : t) : Prop :=
  length ds = n /\ List.length (parent ds) = n /\ forest (parent ds).

(** The representative [find] computes, as a function of the index. *)
Definition root (p : list nat) (i : nat) : nat :=
  match find_ (depth p) p i with
  | Some (Some r, _) => r
  | _ => i
  end.

End DisjointSet.

(* ================================================================== *)
(** * math/TrackingMath.ts *)
(* ================================================================== *)

Module TrackingMath.

(** [intersectRect], on the integer corner coordinates it is called with. *)
Definition intersectRect (x0 y0 x1 y1 x2 y2 x3 y3 : Z) : bool :=
  negb ((x2 >? x1)%Z || (x3 <? x0)%Z || (y2 >? y1)%Z || (y3 <? y0)%Z).

(** [distance]. *)
Definition distance (x0 y0 x1 y1 : spec_float) : spec_float :=
  let dx := Num.sub x1 x0 in
  let dy := Num.sub y1 y0 in
  Num.sqrt (Num.add (Num.mul dx dx) (Num.mul dy dy)).

(** [hammingWeight], on an integer: [>>] and [&] work on [ToInt32] of
    their operands, [-], [+] and [*] on the numbers themselves.
    [i + (i >> 4) & 0xF0F0F0F] is [(i + (i >> 4)) & 0xF0F0F0F]. *)
Definition hammingWeight (i : Z) : Z :=
  let i := (i - Z.land (Z.shiftr (Int.toInt32 i) 1) 0x55555555)%Z in
  let i := (Z.land (Int.toInt32 i) 0x33333333
            + Z.land (Z.shiftr (Int.toInt32 i) 2) 0x33333333)%Z in
  Z.shiftr
    (Int.toInt32
       (Z.land (Int.toInt32 (i + Z.shiftr (Int.toInt32 i) 4)) 0xF0F0F0F
        * 0x1010101))
    24.

End TrackingMath.

(* ================================================================== *)
(** * features/Brief.ts *)
(* ================================================================== *)

Module Brief.

(** [while (value) { count += value & 1; value >>>= 1; }]. *)
Fixpoint hammingLoop (n : nat) (value count : Z) : option Z :=
  match n with
  | O => None
  | S n' =>
      if (value =? 0)%Z then Some count
      else hammingLoop n' (Z.shiftr (Int.toUint32 value) 1)
                       (count + Z.land (Int.toInt32 value) 1)%Z
  end.

Definition hammingWeight (fuel : nat) (value : Z) : option Z :=
  hammingLoop fuel value 0.

End Brief.

(* ================================================================== *)
(** * detection/ViolaJones.ts *)
(* ================================================================== *)

(** [for (let i = 0; i < n; i++) body], threading a state through bodies
    that may fail to return. *)
Fixpoint forEach {A S : Type} (l : list A) (body : A -> S -> option S) (s : S)
  : option S :=
  match l with
  | [] => Some s
  | i :: l' =>
      match body i s with
      | None => None
      | Some s' => forEach l' body s'
      end
  end.

(** [for (let i = i0; i < bound; i += step) body]. *)
Fixpoint forStep {S : Type} (fuel : nat) (bound step i : Z)
  (body : Z -> S -> option S) (s : S) : option S :=
  match fuel with
  | O => None
  | S fuel' =>
      if (i <? bound)%Z then
        match body i s with
        | None => None
        | Some s' => forStep fuel' bound step (i + step)%Z body s'
        end
      else Some s
  end.

Module ViolaJones.

Record Rect := mkRect { x : Z; y : Z; width : Z; height : Z; total : Z }.

Definition REGIONS_OVERLAP : spec_float := Num.half.

(** ** [mergeRectangles_] *)

(** The condition of lines 294-317 under which [union(i, j)] is called. *)
Definition overlapping (r1 r2 : Rect) : bool :=
  if TrackingMath.intersectRect
       (x r1) (y r1) (x r1 + width r1) (y r1 + height r1)
       (x r2) (y r2) (x r2 + width r2) (y r2 + height r2)
  then
    let x1 := Z.max (x r1) (x r2) in
    let y1 := Z.max (y r1) (y r2) in
    let x2 := Z.min (x r1 + width r1) (x r2 + width r2) in
    let y2 := Z.min (y r1 + height r1) (y r2 + height r2) in
    let overlap := Num.mul (Num.ofZ (x1 - x2)) (Num.ofZ (y1 - y2)) in
    let area1 := Num.mul (Num.ofZ (width r1)) (Num.ofZ (height r1)) in
    let area2 := Num.mul (Num.ofZ (width r2)) (Num.ofZ (height r2)) in
    Num.geb (Num.div overlap (Num.mul area1 (Num.div area1 area2)))
            REGIONS_OVERLAP
    && Num.geb (Num.div overlap (Num.mul area2 (Num.div area1 area2)))
               REGIONS_OVERLAP
  else false.

(** The body of the inner loop.  Reading a field of [rects[i]] outside the
    list throws; the loops never do so. *)
Definition unionStep (rects : list Rect) (i j : nat) (ds : DisjointSet.t)
  : option DisjointSet.t :=
  match rects !! i, rects !! j with
  | Some r1, Some r2 =>
      if overlapping r1 r2 then DisjointSet.union ds i j else Some ds
  | _, _ => None
  end.

Definition unionLoop (rects : list Rect) (ds : DisjointSet.t)
  : option DisjointSet.t :=
  forEach (seq 0 (length rects))
    (fun i => forEach (seq 0 (length rects)) (unionStep rects i)) ds.

(** The second loop: [map] collects, under each representative, the
    number of members and the sums of their fields. *)
Definition groupStep (rects : list Rect) (k : nat)
  (st : DisjointSet.t * gmap nat Rect)
  : option (DisjointSet.t * gmap nat Rect) :=
  let '(ds, map) := st in
  match DisjointSet.find ds k, rects !! k with
  | Some (Some rep, ds'), Some rk =>
      match map !! rep with
      | None =>
          Some (ds', <[rep := mkRect (x rk) (y rk) (width rk) (height rk) 1]> map)
      | Some acc =>
          Some (ds', <[rep := mkRect (x acc + x rk) (y acc + y rk)
                                     (width acc + width rk)
                                     (height acc + height rk)
                                     (total acc + 1)]> map)
      end
  | _, _ => None
  end.

(** [(sum / total + 0.5) | 0]. *)
Definition average (sum count : Z) : Z :=
  Num.toInt32 (Num.add (Num.div (Num.ofZ sum) (Num.ofZ count)) Num.half).

(** [Object.keys] lists integer keys in ascending order. *)
Definition keys (map : gmap nat Rect) : list nat :=
  merge_sort Nat.le (fst <$> map_to_list map).

Definition results (map : gmap nat Rect) : list Rect :=
  omap (fun key =>
          match map !! key with
          | Some rect =>
              Some (mkRect (average (x rect) (total rect))
                           (average (y rect) (total rect))
                           (average (width rect) (total rect))
                           (average (height rect) (total rect))
                           (total rect))
          | None => None
          end) (keys map).

Definition mergeRectangles_ (rects : list Rect) : option (list Rect) :=
  match unionLoop rects (DisjointSet.create (length rects)) with
  | None => None
  | Some ds =>
      match forEach (seq 0 (DisjointSet.length ds)) (groupStep rects) (ds, ∅) with
      | None => None
      | Some (_, map) => Some (results map)
      end
  end.

(** ** Integral images *)

(** An element of an [Int32Array]; [undefined] outside the array. *)
Definition readInt32 (a : list Z) (idx : Z) : option Z :=
  if (idx <? 0)%Z then None else a !! Z.to_nat idx.

(** [a[w1] - a[w2] - a[w3] + a[w4]]: exact on 32-bit integers, NaN when
    an element is [undefined]. *)
Definition cornerSum (a : list Z) (w1 w2 w3 w4 : Z) : spec_float :=
  match readInt32 a w1, readInt32 a w2, readInt32 a w3, readInt32 a w4 with
  | Some v1, Some v2, Some v3, Some v4 => Num.ofZ (v1 - v2 - v3 + v4)
  | _, _, _, _ => Num.nan
  end.

(** [a[w1] + a[w2] - a[w3] - a[w4]], for the tilted table. *)
Definition tiltedCornerSum (a : list Z) (w1 w2 w3 w4 : Z) : spec_float :=
  match readInt32 a w1, readInt32 a w2, readInt32 a w3, readInt32 a w4 with
  | Some v1, Some v2, Some v3, Some v4 => Num.ofZ (v1 + v2 - v3 - v4)
  | _, _, _, _ => Num.nan
  end.

(** ** [isTriviallyExcluded] *)

Definition isTriviallyExcluded (edgesDensity : spec_float)
  (integralImageSobel : list Z) (i j width blockWidth blockHeight : Z) : bool :=
  let wbA := (i * width + j)%Z in
  let wbB := (wbA + blockWidth)%Z in
  let wbD := (wbA + blockHeight * width)%Z in
  let wbC := (wbD + blockWidth)%Z in
  let blockEdgesDensity :=
    Num.div (cornerSum integralImageSobel wbA wbB wbD wbC)
            (Num.mul (Num.mul (Num.ofZ blockWidth) (Num.ofZ blockHeight))
                     (Num.ofZ 255)) in
  if Num.ltb blockEdgesDensity edgesDensity then true else false.

(** ** [evalStages_] *)

Section Window.

Local Open Scope Z_scope.

Variable data : list spec_float.
Variables integralImage integralImageSquare tiltedIntegralImage : list Z.
Variables i j width blockWidth blockHeight : Z.
Variable scale : spec_float.

(** The bound on the iterations of each loop. *)
Variable fuel : nat.

(** [data[w]]. *)
Definition rd (w : nat) : spec_float := Num.ofRead (data !! w).

Definition inverseArea : spec_float :=
  Num.div Num.one (Num.mul (Num.ofZ blockWidth) (Num.ofZ blockHeight)).

Definition wbA : Z := i * width + j.
Definition wbB : Z := wbA + blockWidth.
Definition wbD : Z := wbA + blockHeight * width.
Definition wbC : Z := wbD + blockWidth.

Definition mean : spec_float :=
  Num.mul (cornerSum integralImage wbA wbB wbD wbC) inverseArea.

Definition variance : spec_float :=
  Num.sub (Num.mul (cornerSum integralImageSquare wbA wbB wbD wbC) inverseArea)
          (Num.mul mean mean).

Definition standardDeviation : spec_float :=
  if Num.gtb variance Num.zero then Num.sqrt variance else Num.one.

(** One rectangle of a node, from its five cascade entries: the term
    added to [rectsSum] (lines 227-258). *)
Definition rectTerm (tilted dx dy dw dh rectWeight : spec_float) : spec_float :=
  let rectLeft :=
    Num.toInt32 (Num.add (Num.add (Num.ofZ j) (Num.mul dx scale)) Num.half) in
  let rectTop :=
    Num.toInt32 (Num.add (Num.add (Num.ofZ i) (Num.mul dy scale)) Num.half) in
  let rectWidth := Num.toInt32 (Num.add (Num.mul dw scale) Num.half) in
  let rectHeight := Num.toInt32 (Num.add (Num.mul dh scale) Num.half) in
  if Num.truthy tilted then
    let w1 := rectLeft - rectHeight + rectWidth
              + (rectTop + rectWidth + rectHeight - 1) * width in
    let w2 := rectLeft + (rectTop - 1) * width in
    let w3 := rectLeft - rectHeight + (rectTop + rectHeight - 1) * width in
    let w4 := rectLeft + rectWidth + (rectTop + rectWidth - 1) * width in
    Num.mul (tiltedCornerSum tiltedIntegralImage w1 w2 w3 w4) rectWeight
  else
    let w1 := rectTop * width + rectLeft in
    let w2 := w1 + rectWidth in
    let w3 := w1 + rectHeight * width in
    let w4 := w3 + rectWidth in
    Num.mul (cornerSum integralImage w1 w2 w3 w4) rectWeight.

(** [for (let r = 0; r < rectsLength; r++)], from the iteration at [r],
    with the cursor at [w]. *)
Fixpoint rectLoop (n : nat) (tilted rectsLength : spec_float) (r : Z)
  (w : nat) (rectsSum : spec_float) : option (spec_float * nat) :=
  match n with
  | O => None
  | S n' =>
      if Num.ltb (Num.ofZ r) rectsLength then
        rectLoop n' tilted rectsLength (r + 1) (w + 5)%nat
          (Num.add rectsSum
             (rectTerm tilted (rd w) (rd (w + 1)%nat) (rd (w + 2)%nat)
                       (rd (w + 3)%nat) (rd (w + 4)%nat)))
      else Some (rectsSum, w)
  end.

(** The value a node adds to [stageSum] (lines 265-269). *)
Definition nodeValue (rectsSum nodeThreshold nodeLeft nodeRight : spec_float)
  : spec_float :=
  if Num.ltb (Num.mul rectsSum inverseArea)
             (Num.mul nodeThreshold standardDeviation)
  then nodeLeft else nodeRight.

(** [while (nodeLength--)], with the cursor at [w]. *)
Fixpoint nodeLoop (n : nat) (nodeLength : spec_float) (w : nat)
  (stageSum : spec_float) : option (spec_float * nat) :=
  match n with
  | O => None
  | S n' =>
      if Num.truthy nodeLength then
        let tilted := rd w in
        let rectsLength := rd (w + 1)%nat in
        match rectLoop fuel tilted rectsLength 0 (w + 2)%nat Num.zero with
        | None => None
        | Some (rectsSum, w') =>
            nodeLoop n' (Num.sub nodeLength Num.one) (w' + 3)%nat
              (Num.add stageSum
                 (nodeValue rectsSum (rd w') (rd (w' + 1)%nat) (rd (w' + 2)%nat)))
        end
      else Some (stageSum, w)
  end.

(** [for (let w = 2; w < length; )], from the cursor [w]; the result
    comes with the cursor at the [return]. *)
Fixpoint stageLoop (n : nat) (w : nat) : option (bool * nat) :=
  match n with
  | O => None
  | S n' =>
      if (w <? length data)%nat then
        let stageThreshold := rd w in
        let nodeLength := rd (w + 1)%nat in
        match nodeLoop fuel nodeLength (w + 2)%nat Num.zero with
        | None => None
        | Some (stageSum, w') =>
            if Num.ltb stageSum stageThreshold then Some (false, w')
            else stageLoop n' w'
        end
      else Some (true, w)
  end.

Definition evalStages_ : option bool :=
  match stageLoop fuel 2 with
  | None => None
  | Some (b, _) => Some b
  end.

End Window.

(** ** [detect] *)

(** The calls [detect] makes for a window, in order. *)
Inductive event :=
| CallPruner (i j blockWidth blockHeight : Z)
| CallEvaluator (i j blockWidth blockHeight : Z).

Definition isEvaluation (e : event) : bool :=
  match e with CallEvaluator _ _ _ _ => true | CallPruner _ _ _ _ => false end.

Definition isPruning (e : event) : bool :=
  match e with CallPruner _ _ _ _ => true | CallEvaluator _ _ _ _ => false end.

(** The number of windows that reached the evaluator. *)
Definition evaluations (log : list event) : nat :=
  length (List.filter isEvaluation log).

(** [new Int32Array(n)] returns an array for a length that is not
    negative, and throws a [RangeError] for a negative one. *)
Definition allocates (n : Z) : bool := (0 <=? n)%Z.

Section Detect.

Local Open Scope Z_scope.

(** [Image.computeIntegralImage] fills its output arrays independently
    of one another; [detect] uses what it leaves in them and nothing
    else of it.  It is taken as given: the three tables that are always
    requested, and the table of Sobel magnitudes. *)
Variable computeIntegralImage : list Z -> Z -> Z -> list Z * list Z * list Z.
Variable computeIntegralImageSobel : list Z -> Z -> Z -> list Z.

Variable fuel : nat.
Variable pixels : list Z.
Variables width height : Z.
Variables initialScale scaleFactor stepSize edgesDensity : spec_float.
Variable data : list spec_float.

Definition integralImageSobel : option (list Z) :=
  if Num.gtb edgesDensity Num.zero
  then Some (computeIntegralImageSobel pixels width height)
  else None.

Definition minWidth : spec_float := rd data 0.
Definition minHeight : spec_float := rd data 1.

(** The body of the inner loop (lines 86-123) on the state of [rects]
    and of the calls made so far. *)
Definition windowStep (scale : spec_float) (blockWidth blockHeight i j : Z)
  (st : list Rect * list event) : option (list Rect * list event) :=
  let '(rects, log) := st in
  let '(integralImage, integralImageSquare, tiltedIntegralImage) :=
    computeIntegralImage pixels width height in
  let pruner :=
    match integralImageSobel with
    | Some sobel =>
        if Num.gtb edgesDensity Num.zero
        then Some (isTriviallyExcluded edgesDensity sobel i j width
                                       blockWidth blockHeight)
        else None
    | None => None
    end in
  let log1 :=
    match pruner with
    | Some _ => log ++ [CallPruner i j blockWidth blockHeight]
    | None => log
    end in
  match pruner with
  | Some true => Some (rects, log1)
  | _ =>
      let log2 := log1 ++ [CallEvaluator i j blockWidth blockHeight] in
      match evalStages_ data integralImage integralImageSquare
              tiltedIntegralImage i j width blockWidth blockHeight scale fuel with
      | None => None
      | Some true =>
          Some (rects ++ [mkRect j i blockWidth blockHeight 0], log2)
      | Some false => Some (rects, log2)
      end
  end.

(** [while (blockWidth < width && blockHeight < height)]. *)
Fixpoint scaleLoop (n : nat) (scale : spec_float) (blockWidth blockHeight : Z)
  (st : list Rect * list event) : option (list Rect * list event) :=
  match n with
  | O => None
  | S n' =>
      if (blockWidth <? width)%Z && (blockHeight <? height)%Z then
        let step := Num.toInt32 (Num.add (Num.mul scale stepSize) Num.half) in
        match forStep fuel (height - blockHeight) step 0
                (fun i => forStep fuel (width - blockWidth) step 0
                            (windowStep scale blockWidth blockHeight i)) st with
        | None => None
        | Some st' =>
            let scale' := Num.mul scale scaleFactor in
            scaleLoop n' scale' (Num.toInt32 (Num.mul scale' minWidth))
                      (Num.toInt32 (Num.mul scale' minHeight)) st'
        end
      else Some st
  end.

(** [detect] up to its last line: the raw rectangles, and the calls.
    It first allocates its tables, [new Int32Array(width * height)]
    (lines 57-63), which throws when that length is negative: no result
    then, as when a loop runs out of its bound. *)
Definition scan : option (list Rect * list event) :=
  if allocates (width * height) then
    let scale := Num.mul initialScale scaleFactor in
    scaleLoop fuel scale (Num.toInt32 (Num.mul scale minWidth))
              (Num.toInt32 (Num.mul scale minHeight)) ([], [])
  else None.

Definition detect : option (list Rect) :=
  match scan with
  | None => None
  | Some (rects, _) => mergeRectangles_ rects
  end.

End Detect.

End ViolaJones.

(* ================================================================== *)
(** * Integral images ([Image]) *)
(* ================================================================== *)

Module Image.

Import ViolaJones.

Local Open Scope Z_scope.

(** [a[w] || 0]: 0 for an element outside the array, and for 0. *)
Definition orZero (v : option Z) : Z :=
  match v with Some z => z | None => 0 end.

(** [a[w] = v]: an [Int32Array] keeps [ToInt32] of the value; a store
    outside the array does nothing. *)
Definition store (a : list Z) (w v : Z) : list Z :=
  if w <? 0 then a else <[Z.to_nat w := Int.toInt32 v]> a.

(** [SAT[w] = (SAT[w - width] || 0) + (SAT[w - 1] || 0) + pixel
             - (SAT[w - width - 1] || 0)], with [w = i * width + j]. *)
Definition computePixelValueSAT_ (SAT : list Z) (width i j pixel : Z)
  : list Z :=
  let w := i * width + j in
  store SAT w
    (orZero (readInt32 SAT (w - width)) + orZero (readInt32 SAT (w - 1))
     + pixel - orZero (readInt32 SAT (w - width - 1))).

(** [RSAT[w] = (RSAT[w - width - 1] || 0) + (RSAT[w - width + 1] || 0)
              - (RSAT[w - width - width] || 0) + pixel + pixelAbove]. *)
Definition computePixelValueRSAT_ (RSAT : list Z)
  (width i j pixel pixelAbove : Z) : list Z :=
  let w := i * width + j in
  store RSAT w
    (orZero (readInt32 RSAT (w - width - 1))
     + orZero (readInt32 RSAT (w - width + 1))
     - orZero (readInt32 RSAT (w - width - width))
     + pixel + pixelAbove).

(** An element of the [Uint8ClampedArray] of pixels, as a number. *)
Definition channel (pixels : list Z) (w : Z) : spec_float :=
  match readInt32 pixels w with
  | Some v => Num.ofZ v
  | None => Num.nan
  end.

(** [~~(pixels[w] * 0.299 + pixels[w + 1] * 0.587 + pixels[w + 2] * 0.114)]. *)
Definition luminance (pixels : list Z) (w : Z) : Z :=
  Num.toInt32
    (Num.add
       (Num.add (Num.mul (channel pixels w)
                         (Num.div (Num.ofZ 299) (Num.ofZ 1000)))
                (Num.mul (channel pixels (w + 1))
                         (Num.div (Num.ofZ 587) (Num.ofZ 1000))))
       (Num.mul (channel pixels (w + 2))
                (Num.div (Num.ofZ 114) (Num.ofZ 1000)))).

(** The body of the two loops (lines 72-93), for the three tables
    [detect] always passes; the fourth, of Sobel magnitudes, is filled
    independently of them. *)
Definition pixelStep (pixels : list Z) (width i j : Z)
  (tables : list Z * list Z * list Z) : list Z * list Z * list Z :=
  let '(integralImage, integralImageSquare, tiltedIntegralImage) := tables in
  let w := i * width * 4 + j * 4 in
  let pixel := luminance pixels w in
  let w1 := w - width * 4 in
  let pixelAbove := luminance pixels w1 in
  (computePixelValueSAT_ integralImage width i j pixel,
   computePixelValueSAT_ integralImageSquare width i j (pixel * pixel),
   computePixelValueRSAT_ tiltedIntegralImage width i j pixel pixelAbove).

(** [computeIntegralImage], from the arrays it is given to what it
    leaves in them. *)
Definition computeIntegralImage (pixels : list Z) (width height : Z)
  (tables : list Z * list Z * list Z) : list Z * list Z * list Z :=
  fold_left
    (fun tables i =>
       fold_left
         (fun tables j =>
            pixelStep pixels width (Z.of_nat i) (Z.of_nat j) tables)
         (seq 0 (Z.to_nat width)) tables)
    (seq 0 (Z.to_nat height)) tables.

(** The arrays [detect] allocates: [new Int32Array(width * height)]. *)
Definition zeros (width height : Z) : list Z :=
  repeat 0 (Z.to_nat (width * height)).

(** The three tables as [detect] gets them (lines 57-74). *)
Definition integralImages (pixels : list Z) (width height : Z)
  : list Z * list Z * list Z :=
  computeIntegralImage pixels width height
    (zeros width height, zeros width height, zeros width height).

End Image.

(* ================================================================== *)
(** * The design document's descriptions *)
(* ================================================================== *)

(** Definitions that follow the words of the design document, to be
    compared with the code above. *)
Module Design.

Import ViolaJones.

(** ** The cascade, decoded

    [minWidth, minHeight, stage1_threshold, stage1_nodeCount,
     node1(tilted, rectCount, rect1(x, y, w, h, weight), ...,
           nodeThreshold, leftValue, rightValue), node2(...), ...,
     stage2_threshold, ...] *)

Record WeightedRect := mkWeightedRect {
  rx : spec_float; ry : spec_float; rw : spec_float; rh : spec_float;
  weight : spec_float }.

Record Node := mkNode {
  tilted : spec_float;
  rectangles : list WeightedRect;
  nodeThreshold : spec_float;
  leftValue : spec_float;
  rightValue : spec_float }.

(** A stage, with the position in the stream at which it ends. *)
Record Stage := mkStage {
  stageThreshold : spec_float;
  nodes : list Node;
  stop : nat }.

(** The count an entry stands for where the stream declares a number of
    rectangles: the number of [r = 0, 1, 2, ...] below it. *)
Fixpoint countUp (n : nat) (limit : spec_float) (r : Z) : option nat :=
  match n with
  | O => None
  | S n' =>
      if Num.ltb (Num.ofZ r) limit
      then option_map S (countUp n' limit (r + 1)%Z)
      else Some O
  end.

(** The count an entry stands for where the stream declares a number of
    nodes: how often one can be taken from it before it is 0 or NaN. *)
Fixpoint countDown (n : nat) (count : spec_float) : option nat :=
  match n with
  | O => None
  | S n' =>
      if Num.truthy count
      then option_map S (countDown n' (Num.sub count Num.one))
      else Some O
  end.

Section Decode.

(** The bound on the counts and on the number of stages. *)
Variable fuel : nat.
Variable data : list spec_float.

(** A record is decoded only from entries the stream has: the counts
    declared must match the records present. *)
Fixpoint decodeRects (n w : nat) : option (list WeightedRect * nat) :=
  match n with
  | O => Some ([], w)
  | S n' =>
      match data !! w, data !! (w + 1), data !! (w + 2), data !! (w + 3),
            data !! (w + 4) with
      | Some a, Some b, Some c, Some d, Some e =>
          match decodeRects n' (w + 5) with
          | Some (rs, w') => Some (mkWeightedRect a b c d e :: rs, w')
          | None => None
          end
      | _, _, _, _, _ => None
      end
  end.

Definition decodeNode (w : nat) : option (Node * nat) :=
  match data !! w, data !! (w + 1) with
  | Some t, Some rectCount =>
      match countUp fuel rectCount 0 with
      | Some n =>
          match decodeRects n (w + 2) with
          | Some (rs, w') =>
              match data !! w', data !! (w' + 1), data !! (w' + 2) with
              | Some th, Some l, Some r => Some (mkNode t rs th l r, w' + 3)
              | _, _, _ => None
              end
          | None => None
          end
      | None => None
      end
  | _, _ => None
  end.

Fixpoint decodeNodes (n w : nat) : option (list Node * nat) :=
  match n with
  | O => Some ([], w)
  | S n' =>
      match decodeNode w with
      | Some (nd, w') =>
          match decodeNodes n' w' with
          | Some (nds, w'') => Some (nd :: nds, w'')
          | None => None
          end
      | None => None
      end
  end.

Definition decodeStage (w : nat) : option Stage :=
  match data !! w, data !! (w + 1) with
  | Some th, Some nodeCount =>
      match countDown fuel nodeCount with
      | Some n =>
          match decodeNodes n (w + 2) with
          | Some (nds, w') => Some (mkStage th nds w')
          | None => None
          end
      | None => None
      end
  | _, _ => None
  end.

(** Stages follow one another until the stream ends. *)
Fixpoint decodeStages (n w : nat) : option (list Stage) :=
  match n with
  | O => None
  | S n' =>
      if w <? length data then
        match decodeStage w with
        | Some s =>
            match decodeStages n' (stop s) with
            | Some ss => Some (s :: ss)
            | None => None
            end
        | None => None
        end
      else Some []
  end.

Definition decode : option (list Stage) := decodeStages fuel 2.

End Decode.

(** ** The Cascade Stage Evaluator, on a decoded cascade *)

Section Evaluate.

(** The window: 1 / (blockWidth × blockHeight), its variance, and the sum
    over one weighted rectangle, upright or tilted. *)
Variable inverseArea : spec_float.
Variable variance : spec_float.
Variable lookup : spec_float -> WeightedRect -> spec_float.

(** sqrt(variance) if variance > 0, else 1. *)
Definition standardDeviation : spec_float :=
  if Num.gtb variance Num.zero then Num.sqrt variance else Num.one.

Definition weightedRectSum (nd : Node) : spec_float :=
  fold_left (fun s rc => Num.add s (lookup (tilted nd) rc))
            (rectangles nd) Num.zero.

(** leftValue if weightedRectSum × inverseArea < nodeThreshold ×
    standardDeviation, else rightValue. *)
Definition contribution (nd : Node) : spec_float :=
  if Num.ltb (Num.mul (weightedRectSum nd) inverseArea)
             (Num.mul (nodeThreshold nd) standardDeviation)
  then leftValue nd else rightValue nd.

Definition stageSum (st : Stage) : spec_float :=
  fold_left (fun s nd => Num.add s (contribution nd)) (nodes st) Num.zero.

(** A stage rejects the window when its sum is below its threshold. *)
Definition below (st : Stage) : bool :=
  Num.ltb (stageSum st) (stageThreshold st).

Definition passes (st : Stage) : bool := negb (below st).

(** The window is a detection when all stages pass. *)
Definition passesCascade (stages : list Stage) : bool := forallb passes stages.

(** Stages are evaluated in order up to the first one below its threshold:
    the verdict, and the position in the stream where evaluation ends,
    starting from position [w]. *)
Fixpoint verdict (stages : list Stage) (w : nat) : bool * nat :=
  match stages with
  | [] => (true, w)
  | s :: rest => if below s then (false, stop s) else verdict rest (stop s)
  end.

End Evaluate.

(** The sum over one decoded rectangle, as the evaluator looks it up in
    the integral images of a window. *)
Definition look (integralImage tiltedIntegralImage : list Z)
  (i j width : Z) (scale : spec_float)
  (t : spec_float) (rc : WeightedRect) : spec_float :=
  rectTerm integralImage tiltedIntegralImage i j width scale t
    (rx rc) (ry rc) (rw rc) (rh rc) (weight rc).

(** ** The Multiscale Window Scanner *)

Section Scanner.

Local Open Scope Z_scope.

Variables width height : Z.
Variables initialScale scaleFactor stepSize : spec_float.
Variables cascadeMinWidth cascadeMinHeight : spec_float.

(** Whether the pruner is enabled, which windows it skips, and which
    windows the evaluator accepts. *)
Variable enabled : bool.
Variable skip : Z -> Z -> Z -> Z -> bool.
Variable accept : spec_float -> Z -> Z -> Z -> Z -> bool.

(** scale = initialScale × scaleFactor at first, then scale × scaleFactor
    after each iteration. *)
Fixpoint scaleAt (k : nat) : spec_float :=
  match k with
  | O => Num.mul initialScale scaleFactor
  | S k' => Num.mul (scaleAt k') scaleFactor
  end.

Definition blockWidthAt (k : nat) : Z :=
  Num.floor (Num.mul (scaleAt k) cascadeMinWidth).
Definition blockHeightAt (k : nat) : Z :=
  Num.floor (Num.mul (scaleAt k) cascadeMinHeight).

(** step = floor(scale × stepSize + 0.5). *)
Definition stepAt (k : nat) : Z :=
  Num.floor (Num.add (Num.mul (scaleAt k) stepSize) Num.half).

(** The block fits inside the image. *)
Definition fits (k : nat) : bool :=
  (blockWidthAt k <? width) && (blockHeightAt k <? height).

(** The step grid covering [0, bound): 0, step, 2 step, ... below bound. *)
Definition grid (step bound : Z) : list Z :=
  map (fun q => Z.of_nat q * step)
      (seq 0 (Z.to_nat ((bound + step - 1) / step))).

(** The windows (row, col) of a scale, rows first. *)
Definition windowsAt (k : nat) : list (Z * Z) :=
  flat_map (fun i => map (pair i) (grid (stepAt k) (width - blockWidthAt k)))
           (grid (stepAt k) (height - blockHeightAt k)).

(** The raw rectangle of an accepted window, and the calls made for a
    window. *)
Definition rawOf (k : nat) (ij : Z * Z) : list Rect :=
  let '(i, j) := ij in
  if skip i j (blockWidthAt k) (blockHeightAt k) then []
  else if accept (scaleAt k) i j (blockWidthAt k) (blockHeightAt k)
       then [mkRect j i (blockWidthAt k) (blockHeightAt k) 0]
       else [].

Definition callsOf (k : nat) (ij : Z * Z) : list event :=
  let '(i, j) := ij in
  (if enabled then [CallPruner i j (blockWidthAt k) (blockHeightAt k)] else [])
  ++ (if skip i j (blockWidthAt k) (blockHeightAt k) then []
      else [CallEvaluator i j (blockWidthAt k) (blockHeightAt k)]).

(** The sizes as the code rounds them: [(scale × cascadeMinWidth) | 0]. *)
Definition truncatedWidthAt (k : nat) : Z :=
  Num.toInt32 (Num.mul (scaleAt k) cascadeMinWidth).
Definition truncatedHeightAt (k : nat) : Z :=
  Num.toInt32 (Num.mul (scaleAt k) cascadeMinHeight).

(** Up to scale [K], sizes and steps are numbers of the range of a scan
    over an image, zero or positive and below 2^31, and steps are positive. *)
Definition inRange (K : nat) : Prop :=
  (forall k, (k <= K)%nat ->
     Num.int31 (Num.mul (scaleAt k) cascadeMinWidth) = true /\
     Num.int31 (Num.mul (scaleAt k) cascadeMinHeight) = true) /\
  (forall k, (k < K)%nat ->
     Num.int31 (Num.add (Num.mul (scaleAt k) stepSize) Num.half) = true /\
     0 < stepAt k).

(** The block fits at the scales below [K] and no longer at scale [K]. *)
Definition lastScale (K : nat) : Prop :=
  (forall k, (k < K)%nat -> fits k = true) /\ fits K = false.

(** The evaluator returns on the windows of the scales below [K] that the
    pruner does not skip. *)
Definition returnsOn
  (verdictOn : spec_float -> Z -> Z -> Z -> Z -> option bool) (K : nat) : Prop :=
  forall k i j, (k < K)%nat -> In (i, j) (windowsAt k) ->
    skip i j (blockWidthAt k) (blockHeightAt k) = false ->
    verdictOn (scaleAt k) i j (blockWidthAt k) (blockHeightAt k) <> None.

(** The raw rectangles and the calls of the first [K] scales. *)
Definition raw (K : nat) : list Rect :=
  flat_map (fun k => flat_map (rawOf k) (windowsAt k)) (seq 0 K).
Definition calls (K : nat) : list event :=
  flat_map (fun k => flat_map (callsOf k) (windowsAt k)) (seq 0 K).

End Scanner.

(** ** The pruner and the evaluator, as [detect] configures them *)

Section Configured.

Variable computeIntegralImage : list Z -> Z -> Z -> list Z * list Z * list Z.
Variable computeIntegralImageSobel : list Z -> Z -> Z -> list Z.
Variable fuel : nat.
Variable pixels : list Z.
Variables width height : Z.
Variable edgesDensity : spec_float.
Variable data : list spec_float.

(** Pruning is enabled by a non-zero edge-density threshold. *)
Definition pruning : bool := Num.gtb edgesDensity Num.zero.

(** The windows the pruner skips. *)
Definition skipped (i j blockWidth blockHeight : Z) : bool :=
  pruning
  && isTriviallyExcluded edgesDensity
       (computeIntegralImageSobel pixels width height)
       i j width blockWidth blockHeight.

(** The evaluator's verdict on a window. *)
Definition verdictOf (scale : spec_float) (i j blockWidth blockHeight : Z)
  : option bool :=
  let '(integralImage, integralImageSquare, tiltedIntegralImage) :=
    computeIntegralImage pixels width height in
  evalStages_ data integralImage integralImageSquare tiltedIntegralImage
              i j width blockWidth blockHeight scale fuel.

Definition accepted (scale : spec_float) (i j blockWidth blockHeight : Z)
  : bool :=
  match verdictOf scale i j blockWidth blockHeight with
  | Some true => true
  | _ => false
  end.

End Configured.

(** ** The Rectangle Merger's overlap test *)

Definition left (r : Rect) : Z := x r.
Definition right (r : Rect) : Z := x r + width r.
Definition top (r : Rect) : Z := y r.
Definition bottom (r : Rect) : Z := y r + height r.

(** Two boxes fail to intersect only when one is strictly outside the
    other along some axis; touching boundaries intersect. *)
Definition intersects (r1 r2 : Rect) : bool :=
  (left r2 <=? right r1)%Z && (left r1 <=? right r2)%Z
  && (top r2 <=? bottom r1)%Z && (top r1 <=? bottom r2)%Z.

(** The area of the intersection: its width times its height. *)
Definition overlap (r1 r2 : Rect) : spec_float :=
  Num.mul (Num.ofZ (Z.min (right r1) (right r2) - Z.max (left r1) (left r2)))
          (Num.ofZ (Z.min (bottom r1) (bottom r2) - Z.max (top r1) (top r2))).

Definition area (r : Rect) : spec_float :=
  Num.mul (Num.ofZ (width r)) (Num.ofZ (height r)).

(** overlap / (area1 × (area1 / area2)) and overlap / (area2 × (area1 / area2)). *)
Definition ratio1 (r1 r2 : Rect) : spec_float :=
  Num.div (overlap r1 r2) (Num.mul (area r1) (Num.div (area r1) (area r2))).
Definition ratio2 (r1 r2 : Rect) : spec_float :=
  Num.div (overlap r1 r2) (Num.mul (area r2) (Num.div (area r1) (area r2))).

Definition mergeable (r1 r2 : Rect) : bool :=
  intersects r1 r2
  && Num.geb (ratio1 r1 r2) Num.half && Num.geb (ratio2 r1 r2) Num.half.

(** The number of raw rectangles a list of merged rectangles accounts
    for: the sum of their [total] fields; and the same for the
    accumulators of the merger's [map]. *)
Definition counted (rects : list Rect) : Z :=
  fold_right Z.add 0%Z (map total rects).

Definition countedIn (acc : gmap nat Rect) : Z :=
  counted (map snd (map_to_list acc)).

(** The groups of the merger, for a choice [rep] of a representative of
    each raw rectangle: the members of the group of [r] among the indices
    [ks], and the representatives among the first [n] indices, both in
    ascending order. *)
Definition members (rep : nat -> nat) (ks : list nat) (r : nat) : list nat :=
  List.filter (fun k => rep k =? r) ks.

Definition representatives (rep : nat -> nat) (n : nat) : list nat :=
  List.filter (fun r => rep r =? r) (seq 0 n).

(** The sums of the fields of the rectangles at the indices [ks], with
    their number as [total]; and the rectangle of their averages,
    rounded as the merger rounds. *)
Definition sumOf (f : Rect -> Z) (rs : list Rect) : Z :=
  fold_right Z.add 0%Z (map f rs).

Definition groupSum (rects : list Rect) (ks : list nat) : Rect :=
  let rs := omap (fun k => rects !! k) ks in
  mkRect (sumOf ViolaJones.x rs) (sumOf ViolaJones.y rs)
         (sumOf ViolaJones.width rs) (sumOf ViolaJones.height rs)
         (Z.of_nat (length rs)).

Definition groupAverage (rects : list Rect) (ks : list nat) : Rect :=
  let s := groupSum rects ks in
  mkRect (average (ViolaJones.x s) (total s))
         (average (ViolaJones.y s) (total s))
         (average (ViolaJones.width s) (total s))
         (average (ViolaJones.height s) (total s))
         (total s).

(** What the merger's [map] holds under [r] once the indices [done]
    have been visited. *)
Definition accumulated (rects : list Rect) (rep : nat -> nat)
  (done : list nat) (r : nat) : option Rect :=
  match members rep done r with
  | [] => None
  | ks => Some (groupSum rects ks)
  end.

(** One averaged rectangle for each group, by ascending representative. *)
Definition grouped (rects : list Rect) (rep : nat -> nat) : list Rect :=
  map (fun r => groupAverage rects (members rep (seq 0 (length rects)) r))
      (representatives rep (length rects)).

(** The ordered pairs (i, j) of rectangles that pass the test, row by
    row. *)
Definition rowCalls (rects : list Rect) (i : nat) (js : list nat)
  : list (nat * nat) :=
  flat_map (fun j =>
              match rects !! i, rects !! j with
              | Some r1, Some r2 => if mergeable r1 r2 then [(i, j)] else []
              | _, _ => []
              end) js.

Definition unionCalls (rects : list Rect) : list (nat * nat) :=
  flat_map (fun i => rowCalls rects i (seq 0 (length rects)))
           (seq 0 (length rects)).

(** ** Sums over the pixels of an image *)

(** [f 0 + ... + f (n - 1)]. *)
Fixpoint sumTo (n : nat) (f : Z -> Z) : Z :=
  match n with
  | O => 0%Z
  | S n' => (sumTo n' f + f (Z.of_nat n'))%Z
  end.

(** The number of 1 bits among the low [n] bits of an integer (for a
    negative one, of its two's complement), and among the low 32. *)
Definition onesBelow (n : nat) (z : Z) : Z :=
  sumTo n (fun k => Z.b2z (Z.testbit z k)).

Definition ones (z : Z) : Z := onesBelow 32 z.

(** The first two lines of [hammingWeight] on a pattern of bits, with
    masks [m1] and [m2]: the counts of the 1 bits of each group of four
    bits, in place; and the third, with mask [m4]: the counts of each
    group of eight. *)
Definition nibbleCounts (m1 m2 x : Z) : Z :=
  let t := (x - Z.land (Z.shiftr x 1) m1)%Z in
  (Z.land t m2 + Z.land (Z.shiftr t 2) m2)%Z.

Definition byteCounts (m1 m2 m4 x : Z) : Z :=
  let t := nibbleCounts m1 m2 x in
  Z.land (t + Z.shiftr t 4) m4.

(** The sum of [value] over the block of [blockHeight] rows and
    [blockWidth] columns that starts below and to the right of row [i],
    column [j]. *)
Definition blockSum (value : Z -> Z -> Z) (i j blockWidth blockHeight : Z)
  : Z :=
  sumTo (Z.to_nat blockHeight)
    (fun r => sumTo (Z.to_nat blockWidth)
                (fun c => value (i + 1 + r) (j + 1 + c))%Z).

(** For values [q] listed row by row, [width] to a row: the sum of the
    values at and above index [w], in its column. *)
Definition columnSum (q : Z -> Z) (width w : Z) : Z :=
  sumTo (S (Z.to_nat (w / width))) (fun k => q (w - k * width)%Z).

(** The sum of the column sums at the indices up to [w]. *)
Definition entry (q : Z -> Z) (width w : Z) : Z :=
  sumTo (S (Z.to_nat w)) (columnSum q width).

(** The summed-area table of the values [q]: the sum over the rows up
    to [i] and the columns up to [j]; and the sum of its last entries of
    the rows above row [i]. *)
Definition summedArea (q : Z -> Z) (width i j : Z) : Z :=
  sumTo (S (Z.to_nat i))
    (fun i' => sumTo (S (Z.to_nat j)) (fun j' => q (i' * width + j')%Z)).

Definition rowOffset (q : Z -> Z) (width i : Z) : Z :=
  sumTo (Z.to_nat i) (fun i' => summedArea q width i' (width - 1)).

(** The entry before the first reads as 0. *)
Definition entryZ (q : Z -> Z) (width w : Z) : Z :=
  if (w <? 0)%Z then 0%Z else entry q width w.

(** The first [n] elements of a table of at least [size] elements hold
    the entries, as an [Int32Array] keeps them. *)
Definition filled (q : Z -> Z) (width : Z) (size n : nat) (SAT : list Z)
  : Prop :=
  (size <= length SAT)%nat /\
  forall m, (m < n)%nat ->
    SAT !! m = Some (Int.toInt32 (entry q width (Z.of_nat m))).

(** No entry of the table of an image leaves the range of an
    [Int32Array]. *)
Definition fits32 (q : Z -> Z) (width height : Z) : Prop :=
  forall w, (0 <= w < width * height)%Z ->
    (- 2 ^ 31 <= entry q width w < 2 ^ 31)%Z.

(** The grey level of the pixel at an index, and its square. *)
Definition grey (pixels : list Z) (w : Z) : Z :=
  Image.luminance pixels (w * 4).
Definition greySquare (pixels : list Z) (w : Z) : Z :=
  (grey pixels w * grey pixels w)%Z.

(** The same, at row [i] and column [j] of an image. *)
Definition greyAt (pixels : list Z) (width i j : Z) : Z :=
  grey pixels (i * width + j).
Definition greySquareAt (pixels : list Z) (width i j : Z) : Z :=
  greySquare pixels (i * width + j).

End Design.

(* ================================================================== *)
(** * trackers/ColorTracker.ts *)
(* ================================================================== *)

Module ColorTracker.

(** [intersectRect_], on integer corner coordinates. *)
Definition intersectRect_ (x1 y1 x2 y2 x3 y3 x4 y4 : Z) : bool :=
  negb ((x2 <? x3)%Z || (x4 <? x1)%Z || (y2 <? y3)%Z || (y4 <? y1)%Z).

End ColorTracker.

(* ================================================================== *)
(** * Sample inputs *)
(* ================================================================== *)

Module Samples.

Import ViolaJones.

(** A 3 × 3 image of pixels of value 1: its summed-area tables. *)
Definition sums : list Z := [1; 2; 3; 2; 4; 6; 3; 6; 9]%Z.

(** A cascade for 2 × 2 windows.  Stage 1, threshold 1, has one upright
    node with one rectangle; stage 2, threshold 5, has one node without
    rectangles and cannot be passed. *)
Definition cascade : list spec_float :=
  map Num.ofZ [2; 2;
               1; 1;  0; 1;  0; 0; 2; 2; 1;  0; 1; 2;
               5; 1;  0; 0;  0; 1; 2]%Z.

Definition stage1 : Design.Stage :=
  Design.mkStage (Num.ofZ 1)
    [Design.mkNode (Num.ofZ 0)
       [Design.mkWeightedRect (Num.ofZ 0) (Num.ofZ 0) (Num.ofZ 2) (Num.ofZ 2)
                              (Num.ofZ 1)]
       (Num.ofZ 0) (Num.ofZ 1) (Num.ofZ 2)]
    14.

Definition stage2 : Design.Stage :=
  Design.mkStage (Num.ofZ 5)
    [Design.mkNode (Num.ofZ 0) [] (Num.ofZ 0) (Num.ofZ 1) (Num.ofZ 2)]
    21.

(** Its first stage alone, which the window of the 3 × 3 image passes. *)
Definition oneStage : list spec_float :=
  map Num.ofZ [2; 2;
               1; 1;  0; 1;  0; 0; 2; 2; 1;  0; 1; 2]%Z.

(** A cascade for 2 × 2 windows that declares one node in its only stage
    and ends there. *)
Definition truncated : list spec_float := map Num.ofZ [2; 2; 0; 1]%Z.

(** A cascade for 1 × 1 windows.  Its only stage, threshold 1, has one
    upright node with the window as its rectangle, which adds 0 when the
    mean is below 200 times the standard deviation and 1 otherwise. *)
Definition bright : list spec_float :=
  map Num.ofZ [1; 1;
               1; 1;  0; 1;  0; 0; 1; 1; 1;  200; 0; 1]%Z.

(** A cascade for 20 × 20 windows without stages. *)
Definition stageless : list spec_float := map Num.ofZ [20; 20]%Z.

(** Integral images of the 3 × 3 image, whatever the pixels given. *)
Definition tables (pixels : list Z) (width height : Z)
  : list Z * list Z * list Z := (sums, sums, sums).

(** Its table of edge magnitudes: edges of magnitude 255 everywhere. *)
Definition edges (pixels : list Z) (width height : Z) : list Z :=
  map (Z.mul 255) sums.

(** Three raw rectangles: two that overlap on 81 of their 100 units of
    area, and one apart. *)
Definition neighbours : list ViolaJones.Rect :=
  [ViolaJones.mkRect 0 0 10 10 0; ViolaJones.mkRect 1 1 10 10 0;
   ViolaJones.mkRect 40 40 10 10 0]%Z.

(** A 3 × 3 image, four channels to a pixel, and the arrays [detect]
    allocates for it. *)
Definition image : list Z :=
  [ 10;  20;  30; 255;   40;  50;  60; 255;   70;  80;  90; 255;
   100; 110; 120; 255;  130; 140; 150; 255;  160; 170; 180; 255;
   190; 200; 210; 255;  220; 230; 240; 255;  250; 255;   0; 255]%Z.

Definition blank : list Z * list Z * list Z :=
  (Image.zeros 3 3, Image.zeros 3 3, Image.zeros 3 3).

End Samples.

(* ================================================================== *)
(** * Facts about utils/DisjointSet.ts *)
(* ================================================================== *)

Module DisjointSetFacts.
Import DisjointSet.

Lemma toUint32_small (v : nat) :
  (N.of_nat v < 2 ^ 32)%N -> toUint32 (Some v) = v.
Proof.
  intros H. unfold toUint32. rewrite N.mod_small by exact H.
  apply Nat2N.id.
Qed.

(** ** Paths are unique *)

Lemma path_lookup p i r k : path p i r k -> exists q, p !! i = Some q.
Proof. destruct 1; eauto. Qed.

Lemma path_lt p i r k : path p i r k -> i < List.length p.
Proof.
  intros H. destruct (path_lookup _ _ _ _ H) as [q Hq].
  eapply lookup_lt_Some; eauto.
Qed.

Lemma path_end_root p i r k : path p i r k -> p !! r = Some r.
Proof. induction 1; auto. Qed.

Lemma path_functional p i r k r' k' :
  path p i r k -> path p i r' k' -> r = r' /\ k = k'.
Proof.
  intros H. revert r' k'.
  induction H as [r Hr | i q r k Hi Hq Hp IH]; intros r' k' H'.
  - inversion H' as [? Hr' | ? q' ? ? Hi' Hq' Hp']; subst; auto.
    congruence.
  - inversion H' as [? Hr' | ? q' ? ? Hi' Hq' Hp']; subst.
    + congruence.
    + assert (q' = q) by congruence. subst q'.
      destruct (IH _ _ Hp') as [-> ->]. auto.
Qed.

Lemma rep_functional p i r r' : rep p i r -> rep p i r' -> r = r'.
Proof.
  intros [k H] [k' H'].
  destruct (path_functional _ _ _ _ _ _ H H') as [? _]. assumption.
Qed.

Lemma rep_root p r : p !! r = Some r -> rep p r r.
Proof. exists 0. constructor. assumption. Qed.

(** ** A path visits no element twice, so it is shorter than the array *)

Lemma path_nodes p i r k :
  path p i r k ->
  exists l, List.length l = S k /\ List.NoDup l /\
    forall x, In x l ->
      x < List.length p /\ exists k', k' <= k /\ path p x r k'.
Proof.
  induction 1 as [r Hr | i q r k Hi Hq Hp IH].
  - exists [r]. split; [reflexivity|]. split.
    + constructor; [simpl; tauto | constructor].
    + intros x [<- | []]. split.
      * eapply lookup_lt_Some; eauto.
      * exists 0. split; [lia | constructor; assumption].
  - destruct IH as (l & Hlen & Hnd & Hall).
    exists (i :: l). split; [simpl; congruence|]. split.
    + constructor; [|assumption].
      intros Hin. destruct (Hall _ Hin) as (_ & k' & Hk' & Hpath).
      assert (Hfull : path p i r (S k)) by (econstructor; eauto).
      destruct (path_functional _ _ _ _ _ _ Hpath Hfull) as [_ ?]. lia.
    + intros x [<- | Hin].
      * split; [eapply lookup_lt_Some; eauto|].
        exists (S k). split; [lia | econstructor; eauto].
      * destruct (Hall _ Hin) as (Hlt & k' & Hk' & Hpath).
        split; [assumption|]. exists k'. split; [lia | assumption].
Qed.

Lemma path_short p i r k : path p i r k -> k < List.length p.
Proof.
  intros H. destruct (path_nodes _ _ _ _ H) as (l & Hlen & Hnd & Hall).
  assert (Hincl : incl l (seq 0 (List.length p))).
  { intros x Hx. apply in_seq. destruct (Hall _ Hx). lia. }
  pose proof (NoDup_incl_length Hnd Hincl) as Hle.
  rewrite length_seq in Hle. lia.
Qed.

(** ** Path compression keeps every representative *)

Lemma rep_insert_shortcut p i r :
  rep p i r ->
  forall j s, rep p j s -> rep (<[i := r]> p) j s.
Proof.
  intros Hi j s [k Hj].
  assert (Hrr : p !! r = Some r) by (destruct Hi; eapply path_end_root; eauto).
  induction Hj as [s Hs | j q s k Hjq Hq Hp IH].
  - apply rep_root. destruct (decide (s = i)) as [-> | Hne].
    + assert (r = i) by (eapply rep_functional; [eauto | apply rep_root; auto]).
      subst r. rewrite list_lookup_insert_eq; [reflexivity|].
      eapply lookup_lt_Some; eauto.
    + rewrite list_lookup_insert_ne by congruence. assumption.
  - destruct (decide (j = i)) as [-> | Hne].
    + assert (s = r).
      { eapply rep_functional; [|eauto]. exists (S k). econstructor; eauto. }
      subst s.
      assert (r <> i) by congruence.
      exists 1. econstructor.
      * apply list_lookup_insert_eq. eapply lookup_lt_Some; eauto.
      * assumption.
      * constructor. rewrite list_lookup_insert_ne by congruence. assumption.
    + destruct IH as [k' IH]. exists (S k'). econstructor; eauto.
      rewrite list_lookup_insert_ne by congruence. assumption.
Qed.

(** ** [find] follows the path and compresses it *)

Lemma find_path p i r k :
  (N.of_nat (List.length p) <= 2 ^ 32)%N ->
  path p i r k ->
  forall fuel, k < fuel ->
  exists p', find_ fuel p i = Some (Some r, p') /\
             List.length p' = List.length p /\
             forall j s, rep p j s -> rep p' j s.
Proof.
  intros Hsz. induction 1 as [r Hr | i q r k Hi Hq Hp IH]; intros fuel Hf.
  - destruct fuel as [|fuel]; [lia|]. exists p. simpl. rewrite Hr.
    rewrite Nat.eqb_refl. auto.
  - destruct fuel as [|fuel]; [lia|].
    destruct (IH fuel ltac:(lia)) as (p1 & Hfind & Hlen & Hreps).
    exists (<[i := r]> p1). simpl. rewrite Hi.
    destruct (Nat.eqb_spec q i) as [? | _]; [congruence|].
    rewrite Hfind.
    assert (Hr : r < List.length p).
    { eapply lookup_lt_Some, path_end_root; eauto. }
    rewrite toUint32_small by lia.
    split; [reflexivity|]. split; [rewrite length_insert; exact Hlen|].
    intros j s Hj. apply rep_insert_shortcut.
    + apply Hreps. exists (S k). econstructor; eauto.
    + apply Hreps. exact Hj.
Qed.

Lemma find_rep p i r :
  (N.of_nat (List.length p) <= 2 ^ 32)%N ->
  rep p i r ->
  exists p', find_ (depth p) p i = Some (Some r, p') /\
             List.length p' = List.length p /\
             forall j s, rep p j s -> rep p' j s.
Proof.
  intros Hsz [k Hk]. eapply find_path; eauto.
  pose proof (path_short _ _ _ _ Hk). unfold depth. lia.
Qed.

Lemma find_out_of_range p i :
  List.length p <= i -> find_ (depth p) p i = Some (None, p).
Proof.
  intros H. unfold depth. simpl. rewrite lookup_ge_None_2 by lia. reflexivity.
Qed.

Lemma root_rep p i r : forest p -> rep p i r -> root p i = r.
Proof.
  intros [Hsz _] Hr. unfold root.
  destruct (find_rep p i r Hsz Hr) as (p' & -> & _). reflexivity.
Qed.

Lemma root_out_of_range p i : List.length p <= i -> root p i = i.
Proof. intros H. unfold root. rewrite find_out_of_range by exact H. reflexivity. Qed.

Lemma rep_root_of p i : forest p -> i < List.length p -> rep p i (root p i).
Proof.
  intros Hf Hi. destruct (proj2 Hf i Hi) as [r Hr].
  rewrite (root_rep p i r Hf Hr). exact Hr.
Qed.

Lemma root_lt p i : forest p -> i < List.length p -> root p i < List.length p.
Proof.
  intros Hf Hi. destruct (rep_root_of p i Hf Hi) as [k Hk].
  eapply lookup_lt_Some, path_end_root; eauto.
Qed.

(** [find] on a forest: it returns the root, and leaves a forest with the
    same roots. *)
Lemma find_forest p i :
  forest p ->
  exists r p', find_ (depth p) p i = Some (r, p') /\
    r = (if decide (i < List.length p) then Some (root p i) else None) /\
    List.length p' = List.length p /\ forest p' /\
    forall j, root p' j = root p j.
Proof.
  intros Hf. destruct (decide (i < List.length p)) as [Hi | Hi].
  - pose proof (rep_root_of p i Hf Hi) as Hr.
    destruct (find_rep p i _ (proj1 Hf) Hr) as (p' & Hfind & Hlen & Hreps).
    assert (Hf' : forest p').
    { split; [rewrite Hlen; apply Hf|].
      intros j Hj. rewrite Hlen in Hj.
      destruct (proj2 Hf j Hj) as [s Hs]. exists s. auto. }
    exists (Some (root p i)), p'. repeat split; try assumption; try apply Hf'.
    intros j. destruct (decide (j < List.length p)) as [Hj | Hj].
    + apply root_rep; [assumption|]. apply Hreps, rep_root_of; assumption.
    + rewrite !root_out_of_range by lia. reflexivity.
  - exists None, p. rewrite find_out_of_range by lia.
    repeat split; try apply Hf.
Qed.

(** ** [create] *)

Lemma create_parent n :
  (N.of_nat n <= 2 ^ 32)%N -> parent (create n) = seq 0 n.
Proof.
  intros Hn. unfold create. simpl.
  rewrite <- (map_id (seq 0 n)) at 2. apply map_ext_in.
  intros i Hi. apply in_seq in Hi. apply toUint32_small. lia.
Qed.

Lemma seq_root n i : i < n -> seq 0 n !! i = Some i.
Proof. intros Hi. apply lookup_seq_lt. exact Hi. Qed.

Lemma forest_seq n : (N.of_nat n <= 2 ^ 32)%N -> forest (seq 0 n).
Proof.
  intros Hn. split; [rewrite length_seq; exact Hn|].
  intros i Hi. rewrite length_seq in Hi. exists i.
  apply rep_root, seq_root, Hi.
Qed.

Lemma root_seq n i : (N.of_nat n <= 2 ^ 32)%N -> root (seq 0 n) i = i.
Proof.
  intros Hn. destruct (decide (i < n)) as [Hi | Hi].
  - apply root_rep; [apply forest_seq, Hn|]. apply rep_root, seq_root, Hi.
  - apply root_out_of_range. rewrite length_seq. lia.
Qed.

(** ** Linking one root under another *)

Lemma rep_link p ri rj :
  p !! ri = Some ri -> p !! rj = Some rj ->
  forall x s, rep p x s ->
    rep (<[ri := rj]> p) x (if decide (s = ri) then rj else s).
Proof.
  intros Hri Hrj x s [k Hx].
  assert (Hrj' : rep (<[ri := rj]> p) rj rj).
  { apply rep_root. destruct (decide (rj = ri)) as [-> | Hne].
    - apply list_lookup_insert_eq. eapply lookup_lt_Some; eauto.
    - rewrite list_lookup_insert_ne by congruence. assumption. }
  induction Hx as [s Hs | x q s k Hxq Hq Hp IH].
  - destruct (decide (s = ri)) as [-> | Hne].
    + destruct (decide (rj = ri)) as [-> | Hne']; [assumption|].
      destruct Hrj' as [k' Hk']. exists (S k'). econstructor; eauto.
      apply list_lookup_insert_eq. eapply lookup_lt_Some; eauto.
    + apply rep_root. rewrite list_lookup_insert_ne by congruence. assumption.
  - assert (x <> ri) by congruence.
    destruct IH as [k' IH]. exists (S k'). econstructor; eauto.
    rewrite list_lookup_insert_ne by congruence. assumption.
Qed.

Lemma link_forest p ri rj :
  forest p -> p !! ri = Some ri -> p !! rj = Some rj ->
  forest (<[ri := rj]> p) /\
  forall x, root (<[ri := rj]> p) x =
            (if decide (root p x = ri) then rj else root p x).
Proof.
  intros Hf Hri Hrj.
  assert (Hf' : forest (<[ri := rj]> p)).
  { split; [rewrite length_insert; apply Hf|].
    intros x Hx. rewrite length_insert in Hx.
    destruct (proj2 Hf x Hx) as [s Hs]. eexists.
    apply rep_link; eauto. }
  split; [exact Hf'|]. intros x.
  destruct (decide (x < List.length p)) as [Hx | Hx].
  - apply root_rep; [exact Hf'|].
    apply rep_link; try assumption. apply rep_root_of; assumption.
  - rewrite !root_out_of_range by (rewrite ?length_insert; lia).
    destruct (decide (x = ri)) as [-> | _]; [|reflexivity].
    apply lookup_lt_Some in Hri. lia.
Qed.

Lemma root_is_root p i :
  forest p -> i < List.length p -> p !! root p i = Some (root p i).
Proof.
  intros Hf Hi. destruct (rep_root_of p i Hf Hi) as [k Hk].
  eapply path_end_root; eauto.
Qed.

(** ** The state invariant *)

Lemma create_ok n : (N.of_nat n <= 2 ^ 32)%N -> ok n (create n).
Proof.
  intros Hn. unfold ok. rewrite create_parent by exact Hn.
  rewrite length_seq. split; [reflexivity|].
  split; [reflexivity | apply forest_seq, Hn].
Qed.

Lemma find_ok n ds k :
  ok n ds ->
  exists r ds', find ds k = Some (r, ds') /\
    r = (if decide (k < n) then Some (root (parent ds) k) else None) /\
    ok n ds' /\ forall x, root (parent ds') x = root (parent ds) x.
Proof.
  intros (Hl & Hp & Hf).
  destruct (find_forest (parent ds) k Hf) as (r & p' & Hfind & Hr & Hlen & Hf' & Hroots).
  exists r, (mk (length ds) p'). unfold find. rewrite Hfind.
  rewrite Hp in Hr. split; [reflexivity|]. split; [exact Hr|].
  split; [|exact Hroots]. unfold ok. simpl. split; [exact Hl|].
  split; [congruence | exact Hf'].
Qed.

Lemma union_ok n ds i j :
  ok n ds -> i < n -> j < n ->
  exists ds', union ds i j = Some ds' /\ ok n ds' /\
    forall x, root (parent ds') x =
      (if decide (root (parent ds) x = root (parent ds) i)
       then root (parent ds) j else root (parent ds) x).
Proof.
  intros Hok Hi Hj.
  destruct (find_ok n ds i Hok) as (r1 & ds1 & Hf1 & Hr1 & Hok1 & Hroots1).
  destruct (find_ok n ds1 j Hok1) as (r2 & ds2 & Hf2 & Hr2 & Hok2 & Hroots2).
  destruct (decide (i < n)) as [_|]; [|lia].
  destruct (decide (j < n)) as [_|]; [|lia].
  subst r1 r2. unfold union. rewrite Hf1, Hf2.
  destruct Hok2 as (Hl2 & Hp2 & Hfo2).
  set (ri := root (parent ds) i). set (rj := root (parent ds1) j).
  assert (Hri : parent ds2 !! ri = Some ri).
  { unfold ri. rewrite <- Hroots1, <- Hroots2.
    apply root_is_root; [assumption | lia]. }
  assert (Hrj : parent ds2 !! rj = Some rj).
  { unfold rj. rewrite <- Hroots2. apply root_is_root; [assumption | lia]. }
  assert (Hrjn : rj < n).
  { rewrite <- Hp2. eapply lookup_lt_Some; eauto. }
  rewrite toUint32_small.
  2:{ destruct Hfo2 as [Hsz _]. rewrite Hp2 in Hsz. lia. }
  destruct (link_forest (parent ds2) ri rj Hfo2 Hri Hrj) as [Hfo3 Hroots3].
  eexists. split; [reflexivity|]. split.
  - unfold ok. simpl. split; [exact Hl2|].
    split; [rewrite length_insert; exact Hp2 | exact Hfo3].
  - intros x. simpl. rewrite Hroots3, Hroots2, Hroots1.
    unfold rj. rewrite Hroots1. reflexivity.
Qed.

Lemma reachable_ok n ds :
  (N.of_nat n <= 2 ^ 32)%N -> reachable n ds -> ok n ds.
Proof.
  intros Hn. induction 1 as [| ds i j ds' _ IH Hi Hj Hu | ds k r ds' _ IH Hf].
  - apply create_ok, Hn.
  - destruct (union_ok n ds i j IH Hi Hj) as (ds2 & Hu2 & Hok2 & _). congruence.
  - destruct (find_ok n ds k IH) as (r2 & ds2 & Hf2 & _ & Hok2 & _). congruence.
Qed.

Lemma finds_ok n ds ks :
  ok n ds ->
  exists ds', finds ds ks = Some ds' /\ ok n ds' /\
    forall x, root (parent ds') x = root (parent ds) x.
Proof.
  revert ds. induction ks as [|k ks IH]; intros ds Hok.
  - exists ds. simpl. auto.
  - destruct (find_ok n ds k Hok) as (r & ds1 & Hf & _ & Hok1 & Hroots1).
    destruct (IH ds1 Hok1) as (ds' & Hfs & Hok' & Hroots').
    exists ds'. simpl. rewrite Hf. split; [exact Hfs|].
    split; [exact Hok'|].
    intros x. rewrite Hroots'. apply Hroots1.
Qed.

Lemma find_eq_ok n ds i j :
  ok n ds -> i < n -> j < n ->
  find_eq ds i j =
    Some (Nat.eqb (root (parent ds) i) (root (parent ds) j)).
Proof.
  intros Hok Hi Hj.
  destruct (find_ok n ds i Hok) as (r1 & ds1 & Hf1 & Hr1 & Hok1 & Hroots1).
  destruct (find_ok n ds1 j Hok1) as (r2 & ds2 & Hf2 & Hr2 & _ & _).
  destruct (decide (i < n)) as [_|]; [|lia].
  destruct (decide (j < n)) as [_|]; [|lia].
  subst r1 r2. unfold find_eq. rewrite Hf1, Hf2, Hroots1. reflexivity.
Qed.

(** ** Representatives and the closure of the united pairs *)

Lemma connected_mono us us' x y :
  (forall a b, linked us a b -> linked us' a b) ->
  connected us x y -> connected us' x y.
Proof.
  intros Hsub. induction 1 as [x y H | x | x y _ IH | x y z _ IH1 _ IH2].
  - apply rst_step. auto.
  - apply rst_refl.
  - apply rst_sym. assumption.
  - eapply rst_trans; eauto.
Qed.

Lemma connected_step (rho rho' : nat -> nat) us a b :
  (forall x y, rho x = rho y <-> connected us x y) ->
  (forall x, rho' x = if decide (rho x = rho a) then rho b else rho x) ->
  forall x y, rho' x = rho' y <-> connected (us ++ [(a, b)]) x y.
Proof.
  intros Hrho Hrho' x y.
  assert (Hold : forall u v, rho u = rho v -> connected (us ++ [(a, b)]) u v).
  { intros u v Huv. apply (connected_mono us); [|apply Hrho, Huv].
    intros c d Hcd. unfold linked in *. apply in_or_app. auto. }
  assert (Hab : connected (us ++ [(a, b)]) a b).
  { apply rst_step. unfold linked. apply in_or_app. right. simpl. auto. }
  split.
  - rewrite (Hrho' x), (Hrho' y).
    destruct (decide (rho x = rho a)) as [Hx | Hx];
      destruct (decide (rho y = rho a)) as [Hy | Hy]; intros Heq.
    + apply Hold. congruence.
    + apply rst_trans with a; [apply Hold, Hx|].
      apply rst_trans with b; [exact Hab | apply Hold, Heq].
    + apply rst_trans with b; [apply Hold, Heq|].
      apply rst_trans with a; [apply rst_sym, Hab | apply Hold; congruence].
    + apply Hold, Heq.
  - induction 1 as [x y H | x | x y _ IH | x y z _ IH1 _ IH2];
      [| reflexivity | congruence | congruence].
    unfold linked in H. apply in_app_or in H. destruct H as [H | [H | []]].
    + assert (Hxy : rho x = rho y) by (apply Hrho, rst_step, H).
      rewrite (Hrho' x), (Hrho' y), Hxy. reflexivity.
    + inversion H; subst. rewrite (Hrho' x), (Hrho' y).
      destruct (decide (rho x = rho x)) as [_|]; [|congruence].
      destruct (decide (rho y = rho x)); congruence.
Qed.

Lemma unions_ok n rest : forall done ds,
  ok n ds -> in_range n rest ->
  (forall x y, root (parent ds) x = root (parent ds) y <-> connected done x y) ->
  exists ds', unions ds rest = Some ds' /\ ok n ds' /\
    forall x y,
      root (parent ds') x = root (parent ds') y <-> connected (done ++ rest) x y.
Proof.
  induction rest as [|[a b] rest IH]; intros done ds Hok Hrange Hconn.
  - exists ds. rewrite app_nil_r. simpl. auto.
  - inversion Hrange as [|? ? [Ha Hb] Hrange']; subst. simpl in Ha, Hb.
    destruct (union_ok n ds a b Hok Ha Hb) as (ds1 & Hu & Hok1 & Hroots1).
    destruct (IH (done ++ [(a, b)]) ds1 Hok1 Hrange') as (ds' & Hus & Hok' & Hconn').
    { eapply connected_step; eauto. }
    exists ds'. simpl. rewrite Hu. split; [exact Hus|].
    split; [exact Hok'|]. intros x y. split.
    + intros H. rewrite <- app_assoc in Hconn'. apply Hconn', H.
    + intros H. apply Hconn'. rewrite <- app_assoc. exact H.
Qed.

(** C9.  After any sequence of [union(i, j)] calls with indices below the
    length of a [DisjointSet] created with length [n] (at most 2^32, the
    range of its [Uint32Array] elements), all calls return, and
    [find(i) == find(j)] holds exactly when [i] and [j] are related by the
    reflexive, symmetric and transitive closure of the pairs united. *)
Theorem union_find_connectivity (n : nat) (us : list (nat * nat)) (i j : nat) :
  (N.of_nat n <= 2 ^ 32)%N -> in_range n us -> i < n -> j < n ->
  exists ds b,
    unions (create n) us = Some ds /\
    find_eq ds i j = Some b /\
    (b = true <-> connected us i j).
Proof.
  intros Hn Hrange Hi Hj.
  destruct (unions_ok n us [] (create n) (create_ok n Hn) Hrange)
    as (ds & Hus & Hok & Hconn).
  { intros x y. rewrite create_parent by exact Hn.
    rewrite !root_seq by exact Hn. split.
    - intros ->. apply rst_refl.
    - induction 1 as [x y [] | | |]; congruence. }
  exists ds, (Nat.eqb (root (parent ds) i) (root (parent ds) j)).
  split; [exact Hus|]. split; [apply (find_eq_ok n); assumption|].
  rewrite Nat.eqb_eq. apply Hconn.
Qed.

Lemma union_find_connectivity_witness :
  exists ds b,
    unions (create 4) [(0, 1); (3, 1)] = Some ds /\
    find_eq ds 0 3 = Some b /\
    (b = true <-> connected [(0, 1); (3, 1)] 0 3).
Proof.
  apply (union_find_connectivity 4 [(0, 1); (3, 1)] 0 3).
  - vm_compute. discriminate.
  - repeat constructor.
  - lia.
  - lia.
Defined.

(** C10.  In every state reached from the constructor by [union] on
    indices below the length and by [find], any further sequence of [find]
    calls (on any indices) returns and leaves [find(i) == find(j)] as it
    was, for all [i] and [j] below the length: path compression changes
    the parent array, not the partition. *)
Theorem find_keeps_partition (n : nat) (ds : t) (ks : list nat) (i j : nat) :
  (N.of_nat n <= 2 ^ 32)%N -> reachable n ds -> i < n -> j < n ->
  exists ds' b,
    finds ds ks = Some ds' /\
    find_eq ds i j = Some b /\
    find_eq ds' i j = Some b.
Proof.
  intros Hn Hreach Hi Hj.
  pose proof (reachable_ok n ds Hn Hreach) as Hok.
  destruct (finds_ok n ds ks Hok) as (ds' & Hfs & Hok' & Hroots).
  exists ds', (Nat.eqb (root (parent ds) i) (root (parent ds) j)).
  split; [exact Hfs|]. split; [apply (find_eq_ok n); assumption|].
  rewrite (find_eq_ok n ds' i j Hok' Hi Hj), !Hroots. reflexivity.
Qed.

Lemma find_keeps_partition_witness :
  exists ds' b,
    finds (mk 3 [1; 2; 2]) [0; 1] = Some ds' /\
    find_eq (mk 3 [1; 2; 2]) 0 2 = Some b /\
    find_eq ds' 0 2 = Some b.
Proof.
  apply (find_keeps_partition 3 (mk 3 [1; 2; 2]) [0; 1] 0 2).
  - vm_compute. discriminate.
  - apply (reach_union 3 (mk 3 [1; 1; 2]) 1 2); [|lia|lia|reflexivity].
    apply (reach_union 3 (create 3) 0 1); [|lia|lia|reflexivity].
    apply reach_create.
  - lia.
  - lia.
Defined.

End DisjointSetFacts.

(* ================================================================== *)
(** * Facts about JavaScript numbers *)
(* ================================================================== *)

Module NumFacts.
Import Num.

Lemma binary_round_aux_opp mx ex lx :
  binary_round_aux prec emax true mx ex lx
  = SFopp (binary_round_aux prec emax false mx ex lx).
Proof.
  unfold binary_round_aux.
  destruct (shr_fexp prec emax mx ex lx) as [mrs' e'].
  destruct (shr_fexp prec emax _ e' loc_Exact) as [mrs'' e''].
  destruct (shr_m mrs''); try reflexivity.
  destruct (Z.leb e'' (Z.sub emax prec)); reflexivity.
Qed.

Lemma ofZ_opp (z : Z) : z <> 0%Z -> ofZ (- z) = SFopp (ofZ z).
Proof.
  intros Hz. destruct z as [|p|p]; [congruence| |]; simpl;
    unfold ofZ, binary_normalize, binary_round;
    destruct (shl_align _ _ _) as [mz ez]; rewrite binary_round_aux_opp.
  - reflexivity.
  - destruct (binary_round_aux prec emax false (Z.pos mz) ez loc_Exact) as [[]|[]| |[] m e];
      reflexivity.
Qed.

Lemma mul_opp_opp (a b : spec_float) : mul (SFopp a) (SFopp b) = mul a b.
Proof.
  destruct a as [[]|[]| |[] ma ea], b as [[]|[]| |[] mb eb]; reflexivity.
Qed.

Lemma mul_zero_l s (b : spec_float) : null (mul (S754_zero s) b) = true.
Proof. destruct b as [[]|[]| |[] mb eb]; reflexivity. Qed.

Lemma mul_zero_r s (a : spec_float) : null (mul a (S754_zero s)) = true.
Proof. destruct a as [[]|[]| |[] ma ea]; reflexivity. Qed.

(** The product of two differences and the product of the opposite
    differences are the same number, or both are null. *)
Lemma mul_ofZ_opp (a b : Z) :
  mul (ofZ (- a)) (ofZ (- b)) = mul (ofZ a) (ofZ b)
  \/ (null (mul (ofZ (- a)) (ofZ (- b))) = true
      /\ null (mul (ofZ a) (ofZ b)) = true).
Proof.
  destruct (Z.eq_dec a 0%Z) as [-> | Ha].
  - right. split; apply mul_zero_l.
  - destruct (Z.eq_dec b 0%Z) as [-> | Hb].
    + right. split; apply mul_zero_r.
    + left. rewrite !ofZ_opp by assumption. apply mul_opp_opp.
Qed.

Lemma null_div_geb_half (a d : spec_float) :
  null a = true -> geb (div a d) half = false.
Proof.
  destruct a as [[]| | |]; try discriminate; intros _;
    destruct d as [[]|[]| |[] md ed]; reflexivity.
Qed.

End NumFacts.

(* ================================================================== *)
(** * Facts about the Rectangle Merger *)
(* ================================================================== *)

Module MergerFacts.
Import ViolaJones.

Lemma intersectRect_intersects (r1 r2 : Rect) :
  TrackingMath.intersectRect
    (x r1) (y r1) (x r1 + width r1) (y r1 + height r1)
    (x r2) (y r2) (x r2 + width r2) (y r2 + height r2)
  = Design.intersects r1 r2.
Proof.
  unfold TrackingMath.intersectRect, Design.intersects,
    Design.left, Design.right, Design.top, Design.bottom.
  rewrite !Z.gtb_ltb.
  repeat match goal with
         | |- context [(?a <? ?b)%Z] => destruct (Z.ltb_spec a b)
         | |- context [(?a <=? ?b)%Z] => destruct (Z.leb_spec a b)
         end; try reflexivity; lia.
Qed.

(** The test of the code is the test of the design document. *)
Lemma overlapping_mergeable (r1 r2 : Rect) :
  overlapping r1 r2 = Design.mergeable r1 r2.
Proof.
  unfold overlapping, Design.mergeable. rewrite intersectRect_intersects.
  destruct (Design.intersects r1 r2); [|reflexivity]. simpl.
  unfold Design.ratio1, Design.ratio2, Design.overlap, Design.area,
    Design.left, Design.right, Design.top, Design.bottom, REGIONS_OVERLAP.
  set (x1 := Z.max (x r1) (x r2)). set (y1 := Z.max (y r1) (y r2)).
  set (x2 := Z.min (x r1 + width r1) (x r2 + width r2)).
  set (y2 := Z.min (y r1 + height r1) (y r2 + height r2)).
  set (area1 := Num.mul (Num.ofZ (width r1)) (Num.ofZ (height r1))).
  set (area2 := Num.mul (Num.ofZ (width r2)) (Num.ofZ (height r2))).
  replace (x1 - x2)%Z with (- (x2 - x1))%Z by lia.
  replace (y1 - y2)%Z with (- (y2 - y1))%Z by lia.
  destruct (NumFacts.mul_ofZ_opp (x2 - x1) (y2 - y1)) as [-> | [Hn1 Hn2]];
    [reflexivity|].
  rewrite !(NumFacts.null_div_geb_half _ _ Hn1).
  rewrite !(NumFacts.null_div_geb_half _ _ Hn2). reflexivity.
Qed.

(** ** The union loop *)

Lemma unions_app ds us1 us2 :
  DisjointSet.unions ds (us1 ++ us2)
  = match DisjointSet.unions ds us1 with
    | Some ds' => DisjointSet.unions ds' us2
    | None => None
    end.
Proof.
  revert ds. induction us1 as [|[a b] us1 IH]; intros ds; simpl; [reflexivity|].
  destruct (DisjointSet.union ds a b); [apply IH | reflexivity].
Qed.

Lemma inner_loop rects i js ds :
  i < length rects -> Forall (fun j => j < length rects) js ->
  forEach js (unionStep rects i) ds
  = DisjointSet.unions ds (Design.rowCalls rects i js).
Proof.
  intros Hi Hjs. revert ds.
  induction Hjs as [|j js Hj _ IH]; intros ds; [reflexivity|].
  simpl. unfold unionStep at 1.
  destruct (lookup_lt_is_Some_2 rects i Hi) as [r1 Hr1].
  destruct (lookup_lt_is_Some_2 rects j Hj) as [r2 Hr2].
  rewrite Hr1, Hr2, overlapping_mergeable, unions_app.
  destruct (Design.mergeable r1 r2); simpl.
  - destruct (DisjointSet.union ds i j); [apply IH | reflexivity].
  - apply IH.
Qed.

Lemma outer_loop rects is_ ds :
  Forall (fun i => i < length rects) is_ ->
  forEach is_ (fun i => forEach (seq 0 (length rects)) (unionStep rects i)) ds
  = DisjointSet.unions ds
      (flat_map (fun i => Design.rowCalls rects i (seq 0 (length rects))) is_).
Proof.
  assert (Hseq : Forall (fun j => j < length rects) (seq 0 (length rects))).
  { apply List.Forall_forall. intros j Hj. apply in_seq in Hj. lia. }
  intros His. revert ds.
  induction His as [|i is_ Hi _ IH]; intros ds; [reflexivity|].
  simpl. rewrite unions_app, inner_loop by assumption.
  destruct (DisjointSet.unions ds _); [apply IH | reflexivity].
Qed.

Lemma in_unionCalls rects i j :
  In (i, j) (Design.unionCalls rects) <->
  exists r1 r2, rects !! i = Some r1 /\ rects !! j = Some r2
                /\ Design.mergeable r1 r2 = true.
Proof.
  unfold Design.unionCalls, Design.rowCalls. rewrite in_flat_map. split.
  - intros (i' & _ & Hin). apply in_flat_map in Hin.
    destruct Hin as (j' & _ & Hin).
    destruct (rects !! i') as [r1|] eqn:Hr1; [|destruct Hin].
    destruct (rects !! j') as [r2|] eqn:Hr2; [|destruct Hin].
    destruct (Design.mergeable r1 r2) eqn:Hm; [|destruct Hin].
    destruct Hin as [Heq | []]. inversion Heq; subst. eauto.
  - intros (r1 & r2 & Hr1 & Hr2 & Hm).
    exists i. split; [apply in_seq; apply lookup_lt_Some in Hr1; lia|].
    apply in_flat_map. exists j.
    split; [apply in_seq; apply lookup_lt_Some in Hr2; lia|].
    rewrite Hr1, Hr2, Hm. simpl. auto.
Qed.

(** The pairs of the calls are those that pass the test of the merger:
    boxes that intersect, and both ratios at least 0.5. *)
Lemma unionCalls_condition (rects : list Rect) (i j : nat) :
  In (i, j) (Design.unionCalls rects) <->
  exists r1 r2,
    rects !! i = Some r1 /\ rects !! j = Some r2 /\
    Design.intersects r1 r2 = true /\
    Num.geb (Num.div (Design.overlap r1 r2)
               (Num.mul (Design.area r1)
                  (Num.div (Design.area r1) (Design.area r2))))
            Num.half = true /\
    Num.geb (Num.div (Design.overlap r1 r2)
               (Num.mul (Design.area r2)
                  (Num.div (Design.area r1) (Design.area r2))))
            Num.half = true.
Proof.
  rewrite in_unionCalls. unfold Design.mergeable.
  split; intros (r1 & r2 & Hr1 & Hr2 & H); exists r1, r2;
    (split; [exact Hr1|]); (split; [exact Hr2|]).
  - apply andb_true_iff in H. destruct H as [H H3].
    apply andb_true_iff in H. destruct H as [H1 H2]. auto.
  - destruct H as (H1 & H2 & H3).
    unfold Design.ratio1, Design.ratio2. rewrite H1, H2, H3. reflexivity.
Qed.

(** C6, as the code has it.  The rectangles {x:0, y:0, width:10,
    height:10} and {x:5, y:5, width:10, height:10} overlap on 25 of their
    100 units of area; the ratio 0.25 is below 0.5, the pair is not
    united, and the merger returns both rectangles, each with total = 1
    and its coordinates unchanged. *)
Theorem scenario_B_two_rectangles :
  Design.ratio1 (mkRect 0 0 10 10 0) (mkRect 5 5 10 10 0)
    = Num.div (Num.ofZ 1) (Num.ofZ 4) /\
  Design.ratio2 (mkRect 0 0 10 10 0) (mkRect 5 5 10 10 0)
    = Num.div (Num.ofZ 1) (Num.ofZ 4) /\
  overlapping (mkRect 0 0 10 10 0) (mkRect 5 5 10 10 0) = false /\
  mergeRectangles_ [mkRect 0 0 10 10 0; mkRect 5 5 10 10 0]
    = Some [mkRect 0 0 10 10 1; mkRect 5 5 10 10 1].
Proof. repeat split; vm_compute; reflexivity. Qed.

(** C6, as stated, fails: the merger does not return a single rectangle
    with total = 2 for these two rectangles. *)
Lemma scenario_B_not_merged :
  ~ (exists r,
       mergeRectangles_ [mkRect 0 0 10 10 0; mkRect 5 5 10 10 0] = Some [r] /\
       total r = 2%Z /\
       (x r = 2%Z \/ x r = 3%Z) /\ (y r = 2%Z \/ y r = 3%Z)).
Proof.
  intros (r & H & _). vm_compute in H. discriminate H.
Qed.

End MergerFacts.

(* ================================================================== *)
(** * Facts about the Cascade Stage Evaluator *)
(* ================================================================== *)

Module EvaluatorFacts.
Import ViolaJones.

Lemma rd_lookup (data : list spec_float) (w : nat) (a : spec_float) :
  data !! w = Some a -> rd data w = a.
Proof. intros H. unfold rd. rewrite H. reflexivity. Qed.

Section Window.

Variable data : list spec_float.
Variables integralImage integralImageSquare tiltedIntegralImage : list Z.
Variables i j width blockWidth blockHeight : Z.
Variable scale : spec_float.
Variable fuel : nat.

Let look := Design.look integralImage tiltedIntegralImage i j width scale.

Let inverseArea' := inverseArea blockWidth blockHeight.
Let variance' :=
  variance integralImage integralImageSquare i j width blockWidth blockHeight.
Let rectLoop' :=
  rectLoop data integralImage tiltedIntegralImage i j width scale.
Let nodeLoop' :=
  nodeLoop data integralImage integralImageSquare tiltedIntegralImage
           i j width blockWidth blockHeight scale fuel.
Let stageLoop' :=
  stageLoop data integralImage integralImageSquare tiltedIntegralImage
            i j width blockWidth blockHeight scale fuel.

Lemma rect_loop n : forall limit r k w sum rs w' t,
  Design.countUp n limit r = Some k ->
  Design.decodeRects data k w = Some (rs, w') ->
  rectLoop' n t limit r w sum
  = Some (fold_left (fun s rc => Num.add s (look t rc)) rs sum, w').
Proof.
  induction n as [|n IH]; intros limit r k w sum rs w' t Hc Hd;
    simpl in *; [discriminate|].
  destruct (Num.ltb (Num.ofZ r) limit).
  - destruct (Design.countUp n limit (r + 1)) as [k0|] eqn:Hk0; [|discriminate].
    inversion Hc; subst k. simpl in Hd.
    destruct (data !! w) as [a|] eqn:Ha; [|discriminate].
    destruct (data !! (w + 1)) as [b|] eqn:Hb; [|discriminate].
    destruct (data !! (w + 2)) as [c|] eqn:Hcc; [|discriminate].
    destruct (data !! (w + 3)) as [d|] eqn:Hdd; [|discriminate].
    destruct (data !! (w + 4)) as [e|] eqn:He; [|discriminate].
    destruct (Design.decodeRects data k0 (w + 5)) as [[rs0 w0]|] eqn:Hrest;
      [|discriminate].
    inversion Hd; subst rs w'.
    rewrite (rd_lookup _ _ _ Ha), (rd_lookup _ _ _ Hb), (rd_lookup _ _ _ Hcc),
      (rd_lookup _ _ _ Hdd), (rd_lookup _ _ _ He).
    apply (IH _ _ _ _ _ _ _ _ Hk0 Hrest).
  - inversion Hc; subst k. simpl in Hd. inversion Hd; subst. reflexivity.
Qed.

Lemma node_value (nd : Design.Node) :
  nodeValue integralImage integralImageSquare i j width blockWidth blockHeight
    (Design.weightedRectSum look nd)
    (Design.nodeThreshold nd) (Design.leftValue nd) (Design.rightValue nd)
  = Design.contribution inverseArea' variance' look nd.
Proof. reflexivity. Qed.

Lemma node_loop n : forall count k w sum nds w',
  Design.countDown n count = Some k ->
  Design.decodeNodes fuel data k w = Some (nds, w') ->
  nodeLoop' n count w sum
  = Some (fold_left
            (fun s nd => Num.add s (Design.contribution inverseArea' variance' look nd))
            nds sum, w').
Proof.
  induction n as [|n IH]; intros count k w sum nds w' Hc Hd;
    simpl in *; [discriminate|].
  destruct (Num.truthy count).
  - destruct (Design.countDown n (Num.sub count Num.one)) as [k0|] eqn:Hk0;
      [|discriminate].
    inversion Hc; subst k. simpl in Hd.
    destruct (Design.decodeNode fuel data w) as [[nd w1]|] eqn:Hnd; [|discriminate].
    destruct (Design.decodeNodes fuel data k0 w1) as [[nds0 w2]|] eqn:Hrest;
      [|discriminate].
    inversion Hd; subst nds w'.
    unfold Design.decodeNode in Hnd.
    destruct (data !! w) as [t|] eqn:Ht; [|discriminate].
    destruct (data !! (w + 1)) as [rc|] eqn:Hrc; [|discriminate].
    destruct (Design.countUp fuel rc 0) as [m|] eqn:Hm; [|discriminate].
    destruct (Design.decodeRects data m (w + 2)) as [[rs w0]|] eqn:Hrs;
      [|discriminate].
    destruct (data !! w0) as [th|] eqn:Hth; [|discriminate].
    destruct (data !! (w0 + 1)) as [l|] eqn:Hl; [|discriminate].
    destruct (data !! (w0 + 2)) as [r|] eqn:Hr; [|discriminate].
    inversion Hnd; subst nd w1.
    rewrite (rd_lookup _ _ _ Ht), (rd_lookup _ _ _ Hrc).
    fold rectLoop'. rewrite (rect_loop _ _ _ _ _ _ _ _ t Hm Hrs).
    rewrite (rd_lookup _ _ _ Hth), (rd_lookup _ _ _ Hl), (rd_lookup _ _ _ Hr).
    simpl. apply (IH _ _ _ _ _ _ Hk0 Hrest).
  - inversion Hc; subst k. simpl in Hd. inversion Hd; subst. reflexivity.
Qed.

Lemma stage_loop n : forall w stages,
  Design.decodeStages fuel data n w = Some stages ->
  stageLoop' n w = Some (Design.verdict inverseArea' variance' look stages w).
Proof.
  induction n as [|n IH]; intros w stages Hd; simpl in *; [discriminate|].
  destruct (w <? length data).
  - destruct (Design.decodeStage fuel data w) as [s|] eqn:Hs; [|discriminate].
    destruct (Design.decodeStages fuel data n (Design.stop s)) as [ss|] eqn:Hss;
      [|discriminate].
    inversion Hd; subst stages.
    unfold Design.decodeStage in Hs.
    destruct (data !! w) as [th|] eqn:Hth; [|discriminate].
    destruct (data !! (w + 1)) as [nc|] eqn:Hnc; [|discriminate].
    destruct (Design.countDown fuel nc) as [k|] eqn:Hk; [|discriminate].
    destruct (Design.decodeNodes fuel data k (w + 2)) as [[nds w0]|] eqn:Hnds;
      [|discriminate].
    inversion Hs; subst s. simpl in *.
    rewrite (rd_lookup _ _ _ Hth), (rd_lookup _ _ _ Hnc).
    fold nodeLoop'. rewrite (node_loop _ _ _ _ _ _ _ Hk Hnds).
    unfold Design.below, Design.stageSum. simpl.
    destruct (Num.ltb _ th); [reflexivity|].
    apply IH, Hss.
  - inversion Hd; subst. reflexivity.
Qed.

End Window.

Section Verdict.

Variables inverseArea variance : spec_float.
Variable lookup : spec_float -> Design.WeightedRect -> spec_float.

Let verdict := Design.verdict inverseArea variance lookup.
Let passesCascade := Design.passesCascade inverseArea variance lookup.
Let below := Design.below inverseArea variance lookup.

Lemma verdict_passes stages w : fst (verdict stages w) = passesCascade stages.
Proof.
  revert w. induction stages as [|s rest IH]; intros w; [reflexivity|].
  simpl. unfold Design.passes.
  destruct (Design.below inverseArea variance lookup s); [reflexivity|].
  apply IH.
Qed.

Lemma verdict_first_below s1 s s2 w :
  passesCascade s1 = true -> below s = true ->
  verdict (s1 ++ s :: s2) w = (false, Design.stop s).
Proof.
  revert w. induction s1 as [|s0 s1 IH]; intros w Hp Hb; simpl.
  - fold below. rewrite Hb. reflexivity.
  - simpl in Hp. apply andb_true_iff in Hp. destruct Hp as [Hp0 Hp1].
    unfold Design.passes in Hp0. apply negb_true_iff in Hp0. rewrite Hp0.
    apply IH; assumption.
Qed.

Lemma passesCascade_Forall stages :
  passesCascade stages = true <->
  Forall (fun s => Num.ltb (Design.stageSum inverseArea variance lookup s)
                           (Design.stageThreshold s) = false) stages.
Proof.
  unfold passesCascade, Design.passesCascade. rewrite forallb_forall.
  rewrite List.Forall_forall. unfold Design.passes, Design.below.
  split; intros H s Hs; specialize (H s Hs).
  - apply negb_true_iff in H. exact H.
  - apply negb_true_iff. exact H.
Qed.

End Verdict.

(** X1 (the property of C1).  For every window and every cascade that
    decodes into stages, the evaluator uses
    standardDeviation = sqrt(variance) when variance > 0 and
    1 otherwise; each node adds leftValue to the stage sum when its
    weighted rectangle sum times inverseArea is strictly below
    nodeThreshold times standardDeviation, and rightValue otherwise
    ([Design.contribution]); the evaluator returns, and it returns true
    exactly when no stage's sum is strictly below its threshold; and at the
    first stage whose sum is strictly below its threshold it returns false
    with the cursor at the end of that stage, no later stage being read. *)
Theorem evalStages_by_stages
  (data : list spec_float)
  (integralImage integralImageSquare tiltedIntegralImage : list Z)
  (i j width blockWidth blockHeight : Z) (scale : spec_float) (fuel : nat)
  (stages : list Design.Stage) :
  Design.decode fuel data = Some stages ->
  let inverseArea := inverseArea blockWidth blockHeight in
  let variance :=
    variance integralImage integralImageSquare i j width blockWidth blockHeight in
  let lookup := Design.look integralImage tiltedIntegralImage i j width scale in
  let stageSum := Design.stageSum inverseArea variance lookup in
  standardDeviation integralImage integralImageSquare i j width
                    blockWidth blockHeight
    = (if Num.gtb variance Num.zero then Num.sqrt variance else Num.one) /\
  (exists b,
      evalStages_ data integralImage integralImageSquare tiltedIntegralImage
                  i j width blockWidth blockHeight scale fuel = Some b /\
      (b = true <->
       Forall (fun s => Num.ltb (stageSum s) (Design.stageThreshold s) = false)
              stages)) /\
  (forall s1 s s2,
      stages = s1 ++ s :: s2 ->
      Forall (fun s => Num.ltb (stageSum s) (Design.stageThreshold s) = false) s1 ->
      Num.ltb (stageSum s) (Design.stageThreshold s) = true ->
      stageLoop data integralImage integralImageSquare tiltedIntegralImage
                i j width blockWidth blockHeight scale fuel fuel 2
      = Some (false, Design.stop s)).
Proof.
  intros Hd inverseArea variance lookup stageSum.
  pose proof (stage_loop data integralImage integralImageSquare
    tiltedIntegralImage i j width blockWidth blockHeight scale fuel
    fuel 2 stages Hd) as Hloop.
  split; [reflexivity|]. split.
  - exists (Design.passesCascade inverseArea variance lookup stages). split.
    + unfold evalStages_. rewrite Hloop.
      rewrite <- (verdict_passes inverseArea variance lookup stages 2).
      destruct (Design.verdict _ _ _ stages 2). reflexivity.
    + apply passesCascade_Forall.
  - intros s1 s s2 -> Hs1 Hs. rewrite Hloop.
    f_equal. apply verdict_first_below.
    + apply passesCascade_Forall, Hs1.
    + exact Hs.
Qed.

Lemma evalStages_by_stages_witness :
  Design.decode 5 Samples.cascade = Some [Samples.stage1; Samples.stage2] /\
  stageLoop Samples.cascade Samples.sums Samples.sums Samples.sums
            0 0 3 2 2 (Num.ofZ 1) 5 5 2
  = Some (false, Design.stop Samples.stage2).
Proof.
  split; [reflexivity|].
  destruct (evalStages_by_stages Samples.cascade Samples.sums Samples.sums
    Samples.sums 0 0 3 2 2 (Num.ofZ 1) 5
    [Samples.stage1; Samples.stage2] eq_refl) as (_ & _ & H).
  apply (H [Samples.stage1] Samples.stage2 []).
  - reflexivity.
  - constructor; [reflexivity | constructor].
  - reflexivity.
Defined.

(** ** Entries past the end of the cascade *)

Lemma rd_pad (data : list spec_float) (k w : nat) :
  rd (data ++ repeat Num.nan k) w = rd data w.
Proof.
  unfold rd. destruct (decide (w < length data)) as [Hw | Hw].
  - rewrite lookup_app_l by exact Hw. reflexivity.
  - rewrite lookup_app_r by lia. rewrite (lookup_ge_None_2 data) by lia.
    destruct (repeat Num.nan k !! (w - length data)) as [a|] eqn:Ha;
      [|reflexivity].
    apply list_elem_of_lookup_2, list_elem_of_In, repeat_spec in Ha.
    subst a. reflexivity.
Qed.

Lemma rd_past_end (data : list spec_float) (w : nat) :
  length data <= w -> rd data w = Num.nan.
Proof. intros H. unfold rd. rewrite lookup_ge_None_2 by lia. reflexivity. Qed.

Section Padding.

Variable data : list spec_float.
Variables integralImage integralImageSquare tiltedIntegralImage : list Z.
Variables i j width blockWidth blockHeight : Z.
Variable scale : spec_float.
Variable k : nat.

Local Abbreviation rectLoop' d :=
  (rectLoop d integralImage tiltedIntegralImage i j width scale).
Local Abbreviation nodeLoop' d :=
  (nodeLoop d integralImage integralImageSquare tiltedIntegralImage
            i j width blockWidth blockHeight scale).
Local Abbreviation stageLoop' d :=
  (stageLoop d integralImage integralImageSquare tiltedIntegralImage
             i j width blockWidth blockHeight scale).
Local Abbreviation padded := (data ++ repeat Num.nan k).

Lemma rectLoop_pad n : forall n' t limit r w sum res,
  n <= n' ->
  rectLoop' data n t limit r w sum = Some res ->
  rectLoop' padded n' t limit r w sum = Some res.
Proof.
  induction n as [|n IH]; intros n' t limit r w sum res Hn H;
    simpl in H; [discriminate|].
  destruct n' as [|n']; [lia|]. simpl. rewrite !rd_pad.
  destruct (Num.ltb (Num.ofZ r) limit); [|exact H].
  apply IH; [lia | exact H].
Qed.

Lemma nodeLoop_pad fuel fuel' n : forall n' count w sum res,
  fuel <= fuel' -> n <= n' ->
  nodeLoop' data fuel n count w sum = Some res ->
  nodeLoop' padded fuel' n' count w sum = Some res.
Proof.
  induction n as [|n IH]; intros n' count w sum res Hf Hn H;
    simpl in H; [discriminate|].
  destruct n' as [|n']; [lia|]. simpl.
  destruct (Num.truthy count); [|exact H].
  rewrite !rd_pad.
  destruct (rectLoop' data fuel _ _ 0%Z (w + 2) Num.zero) as [[rectsSum w0]|]
    eqn:Hr; [|discriminate].
  rewrite (rectLoop_pad _ _ _ _ _ _ _ _ Hf Hr).
  rewrite !rd_pad.
  apply IH; [exact Hf | lia | exact H].
Qed.

(** Past the end of the data, every stage is read as NaN entries and
    passes. *)
Lemma stageLoop_tail fuel m : forall w,
  0 < fuel -> length data <= w -> length padded - w < m ->
  exists w', stageLoop' padded fuel m w = Some (true, w').
Proof.
  induction m as [|m IH]; intros w Hf Hw Hm; [lia|]. simpl.
  destruct (Nat.ltb_spec w (length padded)) as [Hlt | Hge]; [|eauto].
  rewrite !rd_pad.
  rewrite !rd_past_end by lia.
  destruct fuel as [|fuel]; [lia|]. simpl.
  apply IH; lia.
Qed.

Lemma stageLoop_pad fuel n : forall w b w',
  stageLoop' data fuel n w = Some (b, w') ->
  exists w'', stageLoop' padded (fuel + k) (n + k) w = Some (b, w'').
Proof.
  induction n as [|n IH]; intros w b w' H; simpl in H; [discriminate|].
  destruct (Nat.ltb_spec w (length data)) as [Hlt | Hge].
  - simpl. assert (Hlt' : w < length padded).
    { rewrite length_app. lia. }
      apply Nat.ltb_lt in Hlt'. rewrite Hlt'.
    rewrite !rd_pad.
    destruct (nodeLoop' data fuel fuel _ (w + 2) Num.zero) as [[stageSum w0]|]
      eqn:Hn; [|discriminate].
    rewrite (nodeLoop_pad fuel (fuel + k) fuel (fuel + k) _ _ _ _
      ltac:(lia) ltac:(lia) Hn).
    destruct (Num.ltb stageSum (rd data w)).
    + inversion H; subst. eauto.
    + apply (IH _ _ _ H).
  - inversion H; subst b w'.
    destruct (Nat.eq_dec (fuel + k) 0) as [Hz | Hnz].
    + assert (Hk : k = 0) by lia. exists w. simpl.
      rewrite Hk at 1. simpl. rewrite app_nil_r.
      apply Nat.ltb_ge in Hge. rewrite Hge. reflexivity.
    + destruct (stageLoop_tail (fuel + k) (S n + k) w) as [w'' Hw''];
        [lia | exact Hge | rewrite length_app, repeat_length; lia|].
      eauto.
Qed.

End Padding.

(** X2 (what the code does where C3 expects an error).  The evaluator
    does not compare the length it consumes with the length of the array
    and raises no error: an entry past
    the end reads as [undefined], NaN in arithmetic, so whenever it returns a
    verdict on an array it returns the same verdict on that array followed
    by any number of NaN entries. *)
Theorem evalStages_reads_missing_entries_as_nan
  (data : list spec_float)
  (integralImage integralImageSquare tiltedIntegralImage : list Z)
  (i j width blockWidth blockHeight : Z) (scale : spec_float)
  (fuel k : nat) (b : bool) :
  evalStages_ data integralImage integralImageSquare tiltedIntegralImage
              i j width blockWidth blockHeight scale fuel = Some b ->
  evalStages_ (data ++ repeat Num.nan k) integralImage integralImageSquare
              tiltedIntegralImage i j width blockWidth blockHeight scale
              (fuel + k) = Some b.
Proof.
  unfold evalStages_. intros H.
  destruct (stageLoop data _ _ _ _ _ _ _ _ _ fuel fuel 2) as [[b0 w0]|] eqn:Hs;
    [|discriminate].
  inversion H; subst b0.
  destruct (stageLoop_pad data integralImage integralImageSquare
    tiltedIntegralImage i j width blockWidth blockHeight scale k
    fuel fuel 2 b w0 Hs) as [w'' ->].
  reflexivity.
Qed.

Lemma evalStages_reads_missing_entries_as_nan_witness :
  evalStages_ Samples.truncated Samples.sums Samples.sums Samples.sums
              0 0 3 2 2 (Num.ofZ 1) 3 = Some true /\
  evalStages_ (Samples.truncated ++ repeat Num.nan 5) Samples.sums
              Samples.sums Samples.sums 0 0 3 2 2 (Num.ofZ 1) (3 + 5)
  = Some true.
Proof.
  split; [reflexivity|].
  apply (evalStages_reads_missing_entries_as_nan Samples.truncated Samples.sums
    Samples.sums Samples.sums 0 0 3 2 2 (Num.ofZ 1) 3 5 true).
  reflexivity.
Defined.

End EvaluatorFacts.

(* ================================================================== *)
(** * More facts about JavaScript numbers *)
(* ================================================================== *)

Module OrderFacts.
Import Num.

(** [x | 0] is the floor on the sizes and steps of a scan. *)
Lemma toInt32_floor (a : spec_float) : int31 a = true -> toInt32 a = floor a.
Proof.
  destruct a as [s| | |[] m e]; try discriminate; intros H.
  - reflexivity.
  - unfold int31 in H. apply Z.ltb_lt in H.
    unfold toInt32, floor. unfold truncate in *.
    assert (Hv : (0 <= if (0 <=? e)%Z then Z.pos m * 2 ^ e
      else Z.pos m / 2 ^ (- e))%Z).
    { destruct (Z.leb_spec 0 e).
      - apply Z.mul_nonneg_nonneg; [lia | apply Z.pow_nonneg; lia].
      - apply Z.div_pos; [lia | apply Z.pow_pos_nonneg; lia]. }
          destruct (0 <=? e)%Z;
          (rewrite Z.mod_small by lia;
          destruct (Z.leb_spec (2 ^ 31) (2 ^ 31 - 1)); lia || idtac).
    + destruct (Z.leb_spec (2 ^ 31) (Z.pos m * 2 ^ e)); [lia | reflexivity].
    + destruct (Z.leb_spec (2 ^ 31) (Z.pos m / 2 ^ (- e))); [lia | reflexivity].
Qed.

(** [a < b] and [b <= c] give [a < c]. *)
Lemma ltb_leb_trans (a b c : spec_float) :
  ltb a b = true -> leb b c = true -> ltb a c = true.
Proof.
  unfold ltb, leb, SFltb, SFleb.
  destruct a as [sa|sa| |sa ma ea], b as [sb|sb| |sb mb eb],
    c as [sc|sc| |sc mc ec]; simpl;
    try discriminate; try reflexivity;
    try (destruct sa; simpl; try discriminate; try reflexivity);
    try (destruct sb; simpl; try discriminate; try reflexivity);
    try (destruct sc; simpl; try discriminate; try reflexivity).
  all: change (PosDef.Pos.compare_cont Eq) with Pos.compare.
  all: destruct (Z.compare_spec ea eb) as [Hab|Hab|Hab],
    (Z.compare_spec eb ec) as [Hbc|Hbc|Hbc],
    (Z.compare_spec ea ec) as [Hac|Hac|Hac];
    try lia; simpl; try discriminate; try reflexivity.
  all: destruct (Pos.compare_spec ma mb) as [Pab|Pab|Pab],
    (Pos.compare_spec mb mc) as [Pbc|Pbc|Pbc],
    (Pos.compare_spec ma mc) as [Pac|Pac|Pac];
    simpl; try discriminate; try reflexivity; lia.
Qed.

End OrderFacts.

(* ================================================================== *)
(** * Facts about loops *)
(* ================================================================== *)

Module LoopFacts.

Lemma forEach_app {A S : Type} (l1 l2 : list A) (body : A -> S -> option S) (s : S) :
  forEach (l1 ++ l2) body s
  = match forEach l1 body s with
    | Some s' => forEach l2 body s'
    | None => None
    end.
Proof.
  revert s. induction l1 as [|a l1 IH]; intros s; simpl; [reflexivity|].
  destruct (body a s); [apply IH | reflexivity].
Qed.

Lemma forEach_map {A B S : Type} (f : A -> B) (l : list A)
  (body : B -> S -> option S) (s : S) :
  forEach (map f l) body s = forEach l (fun a => body (f a)) s.
Proof.
  revert s. induction l as [|a l IH]; intros s; simpl; [reflexivity|].
  destruct (body (f a) s); [apply IH | reflexivity].
Qed.

Lemma forEach_ext {A S : Type} (l : list A) (body body' : A -> S -> option S) :
  (forall a s, In a l -> body a s = body' a s) ->
  forall s, forEach l body s = forEach l body' s.
Proof.
  induction l as [|a l IH]; intros H s; simpl; [reflexivity|].
  rewrite (H a s) by (left; reflexivity).
  destruct (body' a s); [|reflexivity].
  apply IH. intros a' s' Ha'. apply H. right. exact Ha'.
Qed.

(** Two nested loops are one loop over the pairs, rows first. *)
Lemma forEach_nested {A B S : Type} (rows : list A) (cols : list B)
  (body : A -> B -> S -> option S) (s : S) :
  forEach rows (fun i => forEach cols (body i)) s
  = forEach (flat_map (fun i => map (pair i) cols) rows)
            (fun ij => body (fst ij) (snd ij)) s.
Proof.
  revert s. induction rows as [|i rows IH]; intros s; simpl; [reflexivity|].
  rewrite forEach_app, forEach_map. simpl.
  destruct (forEach cols (body i) s); [apply IH | reflexivity].
Qed.

(** ** The step grid *)

Lemma grid_below (step bound q : Z) :
  (0 < step -> 0 <= q ->
   (q < (bound + step - 1) / step <-> q * step < bound))%Z.
Proof.
  intros Hs Hq. split; intros H.
  - assert (q + 1 <= (bound + step - 1) / step)%Z as H1 by lia.
    assert (step * (q + 1) <= bound + step - 1)%Z.
    { etransitivity; [apply Z.mul_le_mono_nonneg_l; [lia | exact H1]|].
      apply Z.mul_div_le. lia. }
        lia.
  - assert (q + 1 <= (bound + step - 1) / step)%Z; [|lia].
    apply Z.div_le_lower_bound; lia.
Qed.

Lemma grid_count (step bound : Z) :
  (0 < step)%Z ->
  Z.to_nat ((bound + step - 1) / step) <= Z.to_nat bound.
Proof.
  intros Hs. destruct (Z.le_gt_cases bound 0) as [Hb | Hb].
  - assert ((bound + step - 1) / step <= 0)%Z; [|lia].
    assert ((bound + step - 1) / step < 1)%Z; [|lia].
    apply Z.div_lt_upper_bound; lia.
  - assert ((bound + step - 1) / step <= bound)%Z; [|lia].
    assert ((bound + step - 1) / step < bound + 1)%Z; [|lia].
    apply Z.div_lt_upper_bound; nia.
Qed.

(** With a positive step and enough fuel, the loop
    [for (i = 0; i < bound; i += step)] visits the step grid. *)
Lemma forStep_from {St : Type} (step bound : Z) (body : Z -> St -> option St) :
  (0 < step)%Z ->
  forall (r q fuel : nat) (s : St),
    q + r = Z.to_nat ((bound + step - 1) / step) ->
    r < fuel ->
    forStep fuel bound step (Z.of_nat q * step) body s
    = forEach (map (fun q' => (Z.of_nat q' * step)%Z) (seq q r)) body s.
Proof.
  intros Hs. induction r as [|r IH]; intros q fuel s Hq Hf;
    (destruct fuel as [|fuel]; [lia|]); simpl.
  - destruct (Z.ltb_spec (Z.of_nat q * step) bound) as [Hlt | _]; [|reflexivity].
    apply grid_below in Hlt; lia.
  - destruct (Z.ltb_spec (Z.of_nat q * step) bound) as [_ | Hge].
    + destruct (body (Z.of_nat q * step)%Z s) as [s'|]; [|reflexivity].
      replace (Z.of_nat q * step + step)%Z with (Z.of_nat (S q) * step)%Z by lia.
      apply IH; lia.
    + assert (Z.of_nat q < (bound + step - 1) / step)%Z as Hlt by lia.
      apply grid_below in Hlt; lia.
Qed.

Lemma forStep_grid {St : Type} (fuel : nat) (step bound : Z)
  (body : Z -> St -> option St) (s : St) :
  (0 < step)%Z -> (bound < Z.of_nat fuel)%Z -> 0 < fuel ->
  forStep fuel bound step 0 body s = forEach (Design.grid step bound) body s.
Proof.
  intros Hs Hb Hf. unfold Design.grid.
  change 0%Z with (Z.of_nat 0 * step)%Z.
  apply forStep_from; [exact Hs | reflexivity|].
  pose proof (grid_count step bound Hs). lia.
Qed.

(** A relation between the states of two runs of the same loop is kept
    when every step of the first run is matched by the second. *)
Lemma forStep_sim {S1 S2 : Type} (R : S1 -> S2 -> Prop) (bound step : Z)
  (body1 : Z -> S1 -> option S1) (body2 : Z -> S2 -> option S2) :
  (forall i s1 s2 s1', R s1 s2 -> body1 i s1 = Some s1' ->
      exists s2', body2 i s2 = Some s2' /\ R s1' s2') ->
  forall fuel i s1 s2 s1', R s1 s2 ->
    forStep fuel bound step i body1 s1 = Some s1' ->
    exists s2', forStep fuel bound step i body2 s2 = Some s2' /\ R s1' s2'.
Proof.
  intros Hbody. induction fuel as [|fuel IH]; intros i s1 s2 s1' HR H;
    simpl in *; [discriminate|].
  destruct (i <? bound)%Z.
  - destruct (body1 i s1) as [t1|] eqn:H1; [|discriminate].
    destruct (Hbody i s1 s2 t1 HR H1) as (t2 & -> & HR').
    apply (IH _ _ _ _ HR' H).
  - inversion H; subst. eauto.
Qed.

(** A property of the state is kept by the loop when every step keeps it. *)
Lemma forStep_inv {S : Type} (P : S -> Prop) (bound step : Z)
  (body : Z -> S -> option S) :
  (forall i s s', P s -> body i s = Some s' -> P s') ->
  forall fuel i s s', P s -> forStep fuel bound step i body s = Some s' -> P s'.
Proof.
  intros Hbody. induction fuel as [|fuel IH]; intros i s s' HP H;
    simpl in *; [discriminate|].
  destruct (i <? bound)%Z.
  - destruct (body i s) as [t|] eqn:H1; [|discriminate].
    apply (IH _ _ _ (Hbody _ _ _ HP H1) H).
  - inversion H; subst. exact HP.
Qed.

End LoopFacts.

(* ================================================================== *)
(** * Facts about the Multiscale Window Scanner *)
(* ================================================================== *)

Module ScannerFacts.
Import ViolaJones.

Lemma int31_floor (a : spec_float) :
  Num.int31 a = true -> (0 <= Num.floor a < 2 ^ 31)%Z.
Proof.
  destruct a as [s| | |[] m e]; try discriminate; intros H.
  - simpl. lia.
  - unfold Num.int31 in H. apply Z.ltb_lt in H.
    unfold Num.floor. unfold Num.truncate in H.
    destruct (Z.leb_spec 0 e).
    + split; [|lia]. apply Z.mul_nonneg_nonneg; [lia | apply Z.pow_nonneg; lia].
    + split; [|lia]. apply Z.div_pos; [lia | apply Z.pow_pos_nonneg; lia].
Qed.

Section Scan.

Variable computeIntegralImage : list Z -> Z -> Z -> list Z * list Z * list Z.
Variable computeIntegralImageSobel : list Z -> Z -> Z -> list Z.
Variable fuel : nat.
Variable pixels : list Z.
Variables width height : Z.
Variables initialScale scaleFactor stepSize edgesDensity : spec_float.
Variable data : list spec_float.

Local Abbreviation minW := (rd data 0).
Local Abbreviation minH := (rd data 1).
Local Abbreviation windowStep' :=
  (windowStep computeIntegralImage computeIntegralImageSobel fuel pixels
              width height edgesDensity data).
Local Abbreviation scaleLoop' :=
  (scaleLoop computeIntegralImage computeIntegralImageSobel fuel pixels
             width height scaleFactor stepSize edgesDensity data).
Local Abbreviation pruning := (Design.pruning edgesDensity).
Local Abbreviation skipped :=
  (Design.skipped computeIntegralImageSobel pixels width height edgesDensity).
Local Abbreviation verdictOf :=
  (Design.verdictOf computeIntegralImage fuel pixels width height data).
Local Abbreviation accepted :=
  (Design.accepted computeIntegralImage fuel pixels width height data).
Local Abbreviation scaleAt := (Design.scaleAt initialScale scaleFactor).
Local Abbreviation blockWidthAt :=
  (Design.blockWidthAt initialScale scaleFactor minW).
Local Abbreviation blockHeightAt :=
  (Design.blockHeightAt initialScale scaleFactor minH).
Local Abbreviation stepAt := (Design.stepAt initialScale scaleFactor stepSize).
Local Abbreviation fits :=
  (Design.fits width height initialScale scaleFactor minW minH).
Local Abbreviation windowsAt :=
  (Design.windowsAt width height initialScale scaleFactor stepSize minW minH).
Local Abbreviation rawOf :=
  (Design.rawOf initialScale scaleFactor minW minH skipped accepted).
Local Abbreviation callsOf :=
  (Design.callsOf initialScale scaleFactor minW minH pruning skipped).

(** The scan is the loop over the scales once the tables are allocated,
    and has no result otherwise. *)
Lemma scan_allocated :
  (0 <= width * height)%Z ->
  scan computeIntegralImage computeIntegralImageSobel fuel pixels width
       height initialScale scaleFactor stepSize edgesDensity data
  = scaleLoop' fuel (Num.mul initialScale scaleFactor)
      (Num.toInt32 (Num.mul (Num.mul initialScale scaleFactor) minW))
      (Num.toInt32 (Num.mul (Num.mul initialScale scaleFactor) minH))
      ([], []).
Proof.
  intros Hsize. unfold scan, allocates.
  destruct (Z.leb_spec 0 (width * height)); [reflexivity | lia].
Qed.

Lemma scan_returned (st : list Rect * list event) :
  scan computeIntegralImage computeIntegralImageSobel fuel pixels width
       height initialScale scaleFactor stepSize edgesDensity data = Some st ->
  (0 <= width * height)%Z /\
  scaleLoop' fuel (Num.mul initialScale scaleFactor)
    (Num.toInt32 (Num.mul (Num.mul initialScale scaleFactor) minW))
    (Num.toInt32 (Num.mul (Num.mul initialScale scaleFactor) minH))
    ([], []) = Some st.
Proof.
  unfold scan, allocates.
  destruct (Z.leb_spec 0 (width * height)) as [Hsize|_]; [|discriminate].
  intros Hloop. split; [exact Hsize | exact Hloop].
Qed.

(** One window: the pruner is called when pruning is enabled, the
    evaluator unless the pruner skips the window, and the rectangle is
    appended when the evaluator accepts. *)
Lemma windowStep_cases scale bw bh i j rects log :
  windowStep' scale bw bh i j (rects, log)
  = if skipped i j bw bh
    then Some (rects, log ++ [CallPruner i j bw bh])
    else
  match verdictOf scale i j bw bh with
  | None => None
  | Some b =>
          Some (rects ++ (if b then [mkRect j i bw bh 0] else []),
                (log ++ (if pruning then [CallPruner i j bw bh] else []))
                  ++ [CallEvaluator i j bw bh])
  end.
Proof.
  unfold windowStep, Design.skipped, Design.verdictOf, Design.pruning,
    integralImageSobel.
  destruct (computeIntegralImage pixels width height) as [[ii sq] tl].
  destruct (Num.gtb edgesDensity Num.zero); simpl.
  - destruct (isTriviallyExcluded _ _ _ _ _ _ _); [reflexivity|].
    destruct (evalStages_ _ _ _ _ _ _ _ _ _ _ _) as [[]|];
      rewrite ?app_nil_r; reflexivity.
  - destruct (evalStages_ _ _ _ _ _ _ _ _ _ _ _) as [[]|];
      rewrite ?app_nil_r; reflexivity.
Qed.

(** The windows of scale [k], when the evaluator returns on those the
    pruner lets through. *)
Lemma windows_loop (k : nat) (ws : list (Z * Z)) : forall rects log,
  (forall i j, In (i, j) ws ->
     skipped i j (blockWidthAt k) (blockHeightAt k) = false ->
     verdictOf (scaleAt k) i j (blockWidthAt k) (blockHeightAt k) <> None) ->
  forEach ws
    (fun ij => windowStep' (scaleAt k) (blockWidthAt k) (blockHeightAt k)
                           (fst ij) (snd ij))
    (rects, log)
  = Some (rects ++ flat_map (rawOf k) ws, log ++ flat_map (callsOf k) ws).
Proof.
  induction ws as [|[i j] ws IH]; intros rects log Hev;
    cbn [forEach flat_map fst snd].
  - rewrite !app_nil_r. reflexivity.
  - rewrite windowStep_cases.
    unfold Design.rawOf at 1, Design.callsOf at 1, Design.accepted.
    specialize (Hev i j (or_introl eq_refl)) as Hij.
    destruct (skipped i j (blockWidthAt k) (blockHeightAt k)) eqn:Hskip.
    + rewrite IH by (intros; apply Hev; [right|]; assumption).
      unfold Design.skipped in Hskip. apply andb_true_iff in Hskip.
      destruct Hskip as [-> _]. simpl. rewrite <- app_assoc. reflexivity.
    + destruct (verdictOf (scaleAt k) i j (blockWidthAt k) (blockHeightAt k))
        as [b|]; [|exfalso; apply Hij; reflexivity].
      rewrite IH by (intros; apply Hev; [right|]; assumption).
      rewrite <- !app_assoc. destruct b; reflexivity.
Qed.

Section Scales.

(** The number of scales visited, and what makes the scan well behaved up
        to there: sizes and steps in the range where [x | 0] is the floor,
        positive steps, blocks that fit until scale [K], fuel above the image's
        sides, and an evaluator that returns. *)
Variable K : nat.
Hypothesis sizes : forall k, k <= K ->
  Num.int31 (Num.mul (scaleAt k) minW) = true /\
  Num.int31 (Num.mul (scaleAt k) minH) = true.
Hypothesis steps : forall k, k < K ->
  Num.int31 (Num.add (Num.mul (scaleAt k) stepSize) Num.half) = true /\
  (0 < stepAt k)%Z.
Hypothesis fitting : forall k, k < K -> fits k = true.
Hypothesis enough : (width < Z.of_nat fuel)%Z /\ (height < Z.of_nat fuel)%Z.
Hypothesis returns : forall k i j, k < K -> In (i, j) (windowsAt k) ->
  skipped i j (blockWidthAt k) (blockHeightAt k) = false ->
  verdictOf (scaleAt k) i j (blockWidthAt k) (blockHeightAt k) <> None.

Lemma block_floor k :
  k <= K ->
  Num.toInt32 (Num.mul (scaleAt k) minW) = blockWidthAt k /\
  Num.toInt32 (Num.mul (scaleAt k) minH) = blockHeightAt k /\
  (0 <= blockWidthAt k)%Z /\ (0 <= blockHeightAt k)%Z.
Proof.
  intros Hk. destruct (sizes k Hk) as [Hw Hh].
  pose proof (int31_floor _ Hw). pose proof (int31_floor _ Hh).
  unfold Design.blockWidthAt, Design.blockHeightAt.
  rewrite !OrderFacts.toInt32_floor by assumption. lia.
Qed.

Lemma scale_iteration (k : nat) (st : list Rect * list event) :
  k < K -> 0 < fuel ->
  forStep fuel (height - blockHeightAt k) (stepAt k) 0
        (fun i => forStep fuel (width - blockWidthAt k) (stepAt k) 0
              (windowStep' (scaleAt k) (blockWidthAt k) (blockHeightAt k) i))
        st
  = Some (fst st ++ flat_map (rawOf k) (windowsAt k),
        snd st ++ flat_map (callsOf k) (windowsAt k)).
Proof.
  intros Hk Hf. destruct st as [rects log].
  destruct (steps k Hk) as [_ Hstep].
  destruct (block_floor k ltac:(lia)) as (_ & _ & Hbw & Hbh).
  rewrite LoopFacts.forStep_grid by lia.
  rewrite (LoopFacts.forEach_ext _ _
    (fun i => forEach (Design.grid (stepAt k) (width - blockWidthAt k))
    (windowStep' (scaleAt k) (blockWidthAt k)
    (blockHeightAt k) i))).
  2:{ intros i s _. apply LoopFacts.forStep_grid; lia. }
    rewrite LoopFacts.forEach_nested.
  apply windows_loop. intros i j Hin. apply returns; assumption.
Qed.

Lemma scale_loop (m : nat) : forall k n st,
  k + m = K -> m < n -> 0 < fuel -> fits K = false ->
  scaleLoop' n (scaleAt k) (blockWidthAt k) (blockHeightAt k) st
  = Some (fst st ++ flat_map (fun k => flat_map (rawOf k) (windowsAt k)) (seq k m),
        snd st ++ flat_map (fun k => flat_map (callsOf k) (windowsAt k)) (seq k m)).
Proof.
  induction m as [|m IH]; intros k n st Hk Hn Hf HK;
    (destruct n as [|n]; [lia|]); simpl.
  - assert (k = K) by lia. subst k.
    unfold Design.fits in HK. rewrite HK. rewrite !app_nil_r.
    destruct st. reflexivity.
  - pose proof (fitting k ltac:(lia)) as Hfit. unfold Design.fits in Hfit.
    rewrite Hfit.
    destruct (steps k ltac:(lia)) as [Hs31 _].
    rewrite (OrderFacts.toInt32_floor _ Hs31).
    fold (stepAt k). rewrite scale_iteration by lia.
    destruct (block_floor (S k) ltac:(lia)) as (Hw & Hh & _).
    simpl in Hw, Hh. unfold minWidth, minHeight. rewrite Hw, Hh.
    change (Num.mul (scaleAt k) scaleFactor) with (scaleAt (S k)).
    rewrite (IH (S k) n _ ltac:(lia) ltac:(lia) Hf HK).
    simpl. rewrite <- !app_assoc. reflexivity.
Qed.

(** The scan, characterised: the raw rectangles and the calls of the
        scales below [K]. *)
Lemma scan_scales :
  (0 <= width * height)%Z -> K < fuel -> fits K = false ->
  scan computeIntegralImage computeIntegralImageSobel fuel pixels width
     height initialScale scaleFactor stepSize edgesDensity data
  = Some (Design.raw width height initialScale scaleFactor stepSize minW minH
          skipped accepted K,
        Design.calls width height initialScale scaleFactor stepSize minW minH
          pruning skipped K).
Proof.
  intros Hsize Hf HK. rewrite (scan_allocated Hsize).
  destruct (block_floor 0 ltac:(lia)) as (Hw & Hh & _).
  simpl in Hw, Hh. rewrite Hw, Hh.
  apply (scale_loop K 0 fuel ([], [])); [lia | lia | lia | exact HK].
Qed.

End Scales.

End Scan.


(** The hypotheses, on the 3 × 3 sample image with its own integral
    images and the cascade for 1 × 1 windows: two scales, blocks of 1
    and of 2, five windows, of which two are accepted. *)
Lemma sample_inRange :
  Design.inRange Num.half (Num.ofZ 2) (Num.ofZ 1)
    (rd Samples.bright 0) (rd Samples.bright 1) 2.
Proof.
  split.
  - intros [|[|[|k]]] Hk; try lia; split; vm_compute; reflexivity.
  - intros [|[|k]] Hk; try lia; split; vm_compute; reflexivity.
Qed.

Lemma sample_lastScale :
  Design.lastScale 3 3 Num.half (Num.ofZ 2)
    (rd Samples.bright 0) (rd Samples.bright 1) 2.
Proof.
  split; [|vm_compute; reflexivity].
  intros [|[|k]] Hk; try lia; vm_compute; reflexivity.
Qed.

Lemma sample_returnsOn (edgesDensity : spec_float) :
  Design.returnsOn 3 3 Num.half (Num.ofZ 2) (Num.ofZ 1)
    (rd Samples.bright 0) (rd Samples.bright 1)
    (Design.skipped Samples.edges Samples.image 3 3 edgesDensity)
    (Design.verdictOf Image.integralImages 6 Samples.image 3 3 Samples.bright)
    2.
Proof.
  intros [|[|k]] i j Hk Hin _; try lia; vm_compute in Hin;
    repeat (destruct Hin as [Heq | Hin];
            [inversion Heq; subst; vm_compute; discriminate|]);
    destruct Hin.
Qed.

Lemma sample_raw :
  Design.raw 3 3 Num.half (Num.ofZ 2) (Num.ofZ 1)
    (rd Samples.bright 0) (rd Samples.bright 1)
    (Design.skipped Samples.edges Samples.image 3 3 Num.zero)
    (Design.accepted Image.integralImages 6 Samples.image 3 3 Samples.bright)
    2
  = [mkRect 0 1 1 1 0; mkRect 1 1 1 1 0].
Proof. vm_compute. reflexivity. Qed.


(** ** The Edge-Density Pruner *)

Lemma calls_without_pruning initialScale scaleFactor minW minH
  (skip : Z -> Z -> Z -> Z -> bool) (k : nat) (ws : list (Z * Z)) :
  (forall i j bw bh, skip i j bw bh = false) ->
  flat_map (Design.callsOf initialScale scaleFactor minW minH false skip k) ws
  = map (fun ij =>
           CallEvaluator (fst ij) (snd ij)
             (Design.blockWidthAt initialScale scaleFactor minW k)
             (Design.blockHeightAt initialScale scaleFactor minH k)) ws.
Proof.
  intros Hskip. induction ws as [|[i j] ws IH]; [reflexivity|].
  cbn [flat_map map]. rewrite IH. unfold Design.callsOf.
  rewrite Hskip. reflexivity.
Qed.

Lemma evaluator_calls_only {A : Type} (ks : list A)
    (ws : A -> list (Z * Z)) (bw bh : A -> Z) :
    List.filter isPruning
      (flat_map (fun k => map (fun ij => CallEvaluator (fst ij) (snd ij) (bw k) (bh k))
                              (ws k)) ks) = [].
Proof.
  induction ks as [|k ks IH]; [reflexivity|].
  cbn [flat_map]. rewrite List.filter_app, IH, app_nil_r.
  induction (ws k) as [|ij l IHl]; [reflexivity | exact IHl].
Qed.

(** A quotient of NaN is below no threshold. *)
Lemma missing_corner_not_skipped (divisor threshold : spec_float) :
  (if Num.ltb (Num.div Num.nan divisor) threshold then true else false)
  = true -> False.
Proof.
  destruct divisor as [[]|[]| |[] m e]; cbn; discriminate.
Qed.



(** ** The sizes of the raw rectangles *)

Section Sizes.

Variable computeIntegralImage : list Z -> Z -> Z -> list Z * list Z * list Z.
Variable computeIntegralImageSobel : list Z -> Z -> Z -> list Z.
Variable fuel : nat.
Variable pixels : list Z.
Variables width height : Z.
Variables initialScale scaleFactor stepSize edgesDensity : spec_float.
Variable data : list spec_float.
Variable K : nat.

Local Abbreviation windowStep' :=
  (windowStep computeIntegralImage computeIntegralImageSobel fuel pixels
              width height edgesDensity data).
Local Abbreviation scaleLoop' :=
  (scaleLoop computeIntegralImage computeIntegralImageSobel fuel pixels
             width height scaleFactor stepSize edgesDensity data).
Local Abbreviation scaleAt := (Design.scaleAt initialScale scaleFactor).
Local Abbreviation widthAt :=
  (Design.truncatedWidthAt initialScale scaleFactor (rd data 0)).
Local Abbreviation heightAt :=
  (Design.truncatedHeightAt initialScale scaleFactor (rd data 1)).

(** The rectangle has the block size of a scale below [K] that fits. *)
Local Abbreviation sized := (fun r : Rect =>
  exists k, k < K /\ ViolaJones.width r = widthAt k /\
            ViolaJones.height r = heightAt k /\
            (widthAt k < width)%Z /\ (heightAt k < height)%Z).

Lemma windowStep_sized k i j st st' :
  k < K -> (widthAt k < width)%Z -> (heightAt k < height)%Z ->
  Forall sized (fst st) ->
  windowStep' (scaleAt k) (widthAt k) (heightAt k) i j st = Some st' ->
  Forall sized (fst st').
Proof.
  intros Hk Hw Hh HP H. destruct st as [rects log].
  rewrite windowStep_cases in H.
  destruct (Design.skipped _ _ _ _ _ _ _ _ _).
  - inversion H; subst. exact HP.
  - destruct (Design.verdictOf _ _ _ _ _ _ _ _ _ _ _) as [b|]; [|discriminate].
    inversion H; subst. simpl in *. apply Forall_app. split; [exact HP|].
    destruct b; [|constructor]. constructor; [|constructor].
    exists k. simpl. auto.
Qed.

Lemma scaleLoop_sized n : forall k st st',
  k <= K ->
  (widthAt K <? width)%Z && (heightAt K <? height)%Z = false ->
  Forall sized (fst st) ->
  scaleLoop' n (scaleAt k) (widthAt k) (heightAt k) st = Some st' ->
  Forall sized (fst st').
Proof.
  induction n as [|n IH]; intros k st st' Hk HK HP H; simpl in H;
    [discriminate|].
  destruct ((widthAt k <? width)%Z && (heightAt k <? height)%Z) eqn:Hfit.
  - assert (k < K).
    { destruct (Nat.eq_dec k K) as [-> | Hne]; [congruence | lia]. }
      apply andb_true_iff in Hfit. destruct Hfit as [Hw Hh].
    apply Z.ltb_lt in Hw, Hh.
    match type of H with
      | match ?loop with _ => _ end = _ => destruct loop as [st1|] eqn:Hloop
      end; [|discriminate].
    apply (IH (S k) st1 st'); [lia | exact HK | | exact H].
    revert Hloop.
    apply (LoopFacts.forStep_inv (fun s => Forall sized (fst s))); [|exact HP].
    intros i s s' Hs.
    apply (LoopFacts.forStep_inv (fun s => Forall sized (fst s))); [|exact Hs].
    intros j t t' Ht. apply windowStep_sized; assumption.
  - inversion H; subst. exact HP.
Qed.

End Sizes.

(** X5 (what the code ensures where C5 expects positive sizes).  Every
    raw rectangle the scanner collects has
    the block size of a scale at which the block was strictly smaller than
    the image, so its width and height are below the image's; they are
    strictly positive, and the areas the merger divides by non-zero,
    provided [(scale × minWidth) | 0] and [(scale × minHeight) | 0] are at
    least 1 at every scale below the first one, [K], that does not fit.
    The bound of the loop itself does not exclude a block of size 0. *)
Theorem raw_rectangles_sized_by_fitting_blocks
  (computeIntegralImage : list Z -> Z -> Z -> list Z * list Z * list Z)
  (computeIntegralImageSobel : list Z -> Z -> Z -> list Z)
  (fuel : nat) (pixels : list Z) (width height : Z)
  (initialScale scaleFactor stepSize edgesDensity : spec_float)
  (data : list spec_float) (K : nat) (rects : list Rect) (log : list event) :
  let widthAt := Design.truncatedWidthAt initialScale scaleFactor (rd data 0) in
  let heightAt := Design.truncatedHeightAt initialScale scaleFactor (rd data 1) in
  (widthAt K <? width)%Z && (heightAt K <? height)%Z = false ->
  scan computeIntegralImage computeIntegralImageSobel fuel pixels width
       height initialScale scaleFactor stepSize edgesDensity data
  = Some (rects, log) ->
  Forall (fun r => (ViolaJones.width r < width)%Z /\
                   (ViolaJones.height r < height)%Z) rects /\
  ((forall k, k < K -> (0 < widthAt k)%Z /\ (0 < heightAt k)%Z) ->
   Forall (fun r => (0 < ViolaJones.width r)%Z /\ (0 < ViolaJones.height r)%Z /\
                    (0 < ViolaJones.width r * ViolaJones.height r)%Z) rects).
Proof.
  intros widthAt heightAt HK Hscan.
  apply scan_returned in Hscan. destruct Hscan as [_ Hscan].
  pose proof (scaleLoop_sized computeIntegralImage computeIntegralImageSobel
    fuel pixels width height initialScale scaleFactor stepSize
    edgesDensity data K fuel 0 ([], []) (rects, log)
    ltac:(lia) HK (List.Forall_nil _) Hscan) as Hsized.
  simpl in Hsized. split.
  - eapply List.Forall_impl; [|exact Hsized].
    intros r (k & _ & -> & -> & Hw & Hh). auto.
  - intros Hpos. eapply List.Forall_impl; [|exact Hsized].
    intros r (k & Hk & -> & -> & _ & _). destruct (Hpos k Hk).
    fold (widthAt k) (heightAt k). repeat split; lia.
Qed.

Lemma raw_rectangles_sized_by_fitting_blocks_witness :
  Forall (fun r => (ViolaJones.width r < 3)%Z /\ (ViolaJones.height r < 3)%Z)
         [mkRect 0 0 2 2 0] /\
  Forall (fun r => (0 < ViolaJones.width r)%Z /\ (0 < ViolaJones.height r)%Z /\
                   (0 < ViolaJones.width r * ViolaJones.height r)%Z)
         [mkRect 0 0 2 2 0].
Proof.
  destruct (raw_rectangles_sized_by_fitting_blocks Samples.tables Samples.edges
    5 [] 3 3 Num.half (Num.ofZ 2) (Num.ofZ 1) Num.zero
    Samples.oneStage 1 [mkRect 0 0 2 2 0] [CallEvaluator 0 0 2 2])
    as [Hbelow Hpos].
  - vm_compute. reflexivity.
  - vm_compute. reflexivity.
  - split; [exact Hbelow|]. apply Hpos.
    intros [|k] Hk; [|lia]. split; vm_compute; reflexivity.
Defined.

(** An input on which blocks of size 0 are scanned: with initialScale 0.01, scaleFactor 2, stepSize
    100 and a cascade for 20 × 20 windows, the first two scales have blocks
    of size 0, which are below the size of the 3 × 3 image; their windows
    reach the evaluator, and rectangles of width and height 0 are
    collected. *)
Lemma zero_area_rectangles_collected :
  ~ (forall rects log,
       scan Samples.tables Samples.edges 20 [] 3 3
            (Num.div (Num.ofZ 1) (Num.ofZ 100)) (Num.ofZ 2) (Num.ofZ 100)
            Num.zero Samples.stageless = Some (rects, log) ->
       Forall (fun r => (0 < ViolaJones.width r)%Z /\
                        (0 < ViolaJones.height r)%Z) rects).
Proof.
  intros H.
  assert (Hscan : exists rects log,
             scan Samples.tables Samples.edges 20 [] 3 3
                  (Num.div (Num.ofZ 1) (Num.ofZ 100)) (Num.ofZ 2) (Num.ofZ 100)
                  Num.zero Samples.stageless
             = Some (mkRect 0 0 0 0 0 :: rects, log)).
  { vm_compute. eauto. }
  destruct Hscan as (rects & log & Hscan).
  apply H, List.Forall_inv in Hscan. simpl in Hscan. lia.
Qed.

(** An input with a malformed cascade: the sample cascade that declares a
    node it does
    not contain does not decode, yet the evaluator returns true with its
    cursor at 9, past the 4 entries of the array, and [detect] returns the
    window as a detection. *)
Lemma truncated_cascade_is_evaluated :
  (forall fuel, Design.decode fuel Samples.truncated = None) /\
  length Samples.truncated = 4 /\
  stageLoop Samples.truncated Samples.sums Samples.sums Samples.sums
            0 0 3 2 2 (Num.ofZ 1) 5 5 2 = Some (true, 9) /\
  detect Samples.tables Samples.edges 5 [] 3 3 Num.half (Num.ofZ 2) (Num.ofZ 1)
         Num.zero Samples.truncated
  = Some [mkRect 0 0 2 2 1].
Proof.
  split; [|repeat split; vm_compute; reflexivity].
  intros [|[|fuel]]; vm_compute; reflexivity.
Qed.

(** ** Raising the edge-density threshold *)

Section Densities.

Variable computeIntegralImage : list Z -> Z -> Z -> list Z * list Z * list Z.
Variable computeIntegralImageSobel : list Z -> Z -> Z -> list Z.
Variable fuel : nat.
Variable pixels : list Z.
Variables width height : Z.
Variables scaleFactor stepSize : spec_float.
Variables d1 d2 : spec_float.
Variable data : list spec_float.
Hypothesis d1_le_d2 : Num.leb d1 d2 = true.

Local Abbreviation windowStep' d :=
  (windowStep computeIntegralImage computeIntegralImageSobel fuel pixels
              width height d data).
Local Abbreviation scaleLoop' d :=
  (scaleLoop computeIntegralImage computeIntegralImageSobel fuel pixels
             width height scaleFactor stepSize d data).
Local Abbreviation skipped d :=
  (Design.skipped computeIntegralImageSobel pixels width height d).

(** The second run has made no more calls of the evaluator. *)
Local Abbreviation fewer := (fun st1 st2 : list Rect * list event =>
  evaluations (snd st2) <= evaluations (snd st1)).

Lemma skipped_mono i j bw bh :
  skipped d1 i j bw bh = true -> skipped d2 i j bw bh = true.
Proof.
  unfold Design.skipped, Design.pruning, isTriviallyExcluded, Num.gtb.
  set (density := Num.div _ _).
  intros H. apply andb_true_iff in H. destruct H as [Hon Hlow].
  apply andb_true_iff. split.
  - exact (OrderFacts.ltb_leb_trans _ _ _ Hon d1_le_d2).
  - destruct (Num.ltb density d1) eqn:Hd1; [|discriminate].
    rewrite (OrderFacts.ltb_leb_trans _ _ _ Hd1 d1_le_d2). reflexivity.
Qed.

Lemma evaluations_app l1 l2 :
  evaluations (l1 ++ l2) = evaluations l1 + evaluations l2.
Proof. unfold evaluations. rewrite List.filter_app, length_app. reflexivity. Qed.

Lemma evaluations_pruner (b : bool) i j bw bh :
  evaluations (if b then [CallPruner i j bw bh] else []) = 0.
Proof. destruct b; reflexivity. Qed.

Lemma windowStep_fewer scale bw bh i j st1 st2 st1' :
  fewer st1 st2 ->
  windowStep' d1 scale bw bh i j st1 = Some st1' ->
  exists st2', windowStep' d2 scale bw bh i j st2 = Some st2' /\ fewer st1' st2'.
Proof.
  destruct st1 as [rects1 log1], st2 as [rects2 log2]. cbn [fst snd].
  intros HR H.
  rewrite windowStep_cases in H. rewrite windowStep_cases.
  destruct (skipped d1 i j bw bh) eqn:Hs1.
  - rewrite (skipped_mono _ _ _ _ Hs1). inversion H; subst. simpl.
    eexists. split; [reflexivity|]. simpl.
    rewrite !evaluations_app. simpl. unfold evaluations at 2 4. simpl. lia.
  - destruct (Design.verdictOf _ _ _ _ _ _ _ _ _ _ _) as [b|]; [|discriminate].
    inversion H; subst. simpl.
    destruct (skipped d2 i j bw bh); eexists; (split; [reflexivity|]); simpl;
      rewrite !evaluations_app, ?evaluations_pruner;
      unfold evaluations at 2 4; simpl; lia.
Qed.

Lemma scaleLoop_fewer n : forall scale bw bh st1 st2 st1',
  fewer st1 st2 ->
  scaleLoop' d1 n scale bw bh st1 = Some st1' ->
  exists st2', scaleLoop' d2 n scale bw bh st2 = Some st2' /\ fewer st1' st2'.
Proof.
  induction n as [|n IH]; intros scale bw bh st1 st2 st1' HR H; simpl in *;
    [discriminate|].
  destruct ((bw <? width)%Z && (bh <? height)%Z).
  - match type of H with
      | match ?loop with _ => _ end = _ => destruct loop as [t1|] eqn:Hloop
      end; [|discriminate].
    destruct (LoopFacts.forStep_sim fewer _ _ _
      (fun i => forStep fuel (width - bw)
      (Num.toInt32 (Num.add (Num.mul scale stepSize) Num.half))
      0 (windowStep' d2 scale bw bh i))
      ltac:(intros i s1 s2 s1' Hs;
      apply (LoopFacts.forStep_sim fewer); [|exact Hs];
      intros j t1' t2' u1; apply windowStep_fewer)
      _ _ _ _ _ HR Hloop) as (t2 & -> & HR').
    apply (IH _ _ _ _ _ _ HR' H).
  - inversion H; subst. eauto.
Qed.

End Densities.



End ScannerFacts.

(* ================================================================== *)
(** * More about utils/DisjointSet.ts *)
(* ================================================================== *)

Module DisjointSetMore.
Import DisjointSet.

(** X7.  In a [DisjointSet] just constructed (with a length of at most 2^32,
    the range of its elements) every element is its own representative:
    [find(i) == find(j)] holds for [i] and [j] below the length exactly when
    they are the same element. *)
Theorem create_singletons (n i j : nat) :
  (N.of_nat n <= 2 ^ 32)%N -> i < n -> j < n ->
  find (create n) i = Some (Some i, create n) /\
  find_eq (create n) i j = Some (Nat.eqb i j).
Proof.
  intros Hn Hi Hj. split.
  - assert (Hc : create n = mk n (seq 0 n)).
    { unfold create. f_equal. apply (DisjointSetFacts.create_parent n Hn). }
    rewrite Hc. unfold find, depth. cbn [parent length find_].
    rewrite DisjointSetFacts.seq_root by exact Hi.
    rewrite Nat.eqb_refl. reflexivity.
  - rewrite (DisjointSetFacts.find_eq_ok n _ i j
               (DisjointSetFacts.create_ok n Hn) Hi Hj).
    rewrite DisjointSetFacts.create_parent by exact Hn.
    rewrite !DisjointSetFacts.root_seq by exact Hn. reflexivity.
Qed.

Lemma create_singletons_witness :
  find (create 3) 1 = Some (Some 1, create 3) /\
  find_eq (create 3) 1 2 = Some (Nat.eqb 1 2).
Proof.
  apply (create_singletons 3 1 2); [vm_compute; discriminate | lia | lia].
Defined.

(** [find] along a path ends with the element pointing at the root. *)
Lemma find_path_compresses p i r k :
  (N.of_nat (List.length p) <= 2 ^ 32)%N ->
  path p i r k ->
  forall fuel, k < fuel ->
  exists p', find_ fuel p i = Some (Some r, p') /\
             List.length p' = List.length p /\
             p' !! i = Some r /\ p' !! r = Some r.
Proof.
  intros Hsz. induction 1 as [r Hr | i q r k Hi Hq Hp IH]; intros fuel Hf.
  - destruct fuel as [|fuel]; [lia|]. exists p. simpl. rewrite Hr.
    rewrite Nat.eqb_refl. auto.
  - destruct fuel as [|fuel]; [lia|].
    destruct (IH fuel ltac:(lia)) as (p1 & Hfind & Hlen & _ & Hroot).
    assert (Hrr : p !! r = Some r) by (eapply DisjointSetFacts.path_end_root; eauto).
    assert (Hr : r < List.length p) by (eapply lookup_lt_Some; eauto).
    assert (Hil : i < List.length p) by (eapply lookup_lt_Some; eauto).
    assert (Hne : r <> i) by congruence.
    exists (<[i := r]> p1). simpl. rewrite Hi.
    destruct (Nat.eqb_spec q i) as [? | _]; [congruence|].
    rewrite Hfind, DisjointSetFacts.toUint32_small by lia.
    split; [reflexivity|]. split; [rewrite length_insert; exact Hlen|]. split.
    + apply list_lookup_insert_eq. lia.
    + rewrite list_lookup_insert_ne by congruence. exact Hroot.
Qed.

(** X8.  Path compression: in a state reached from the constructor, after
    [find(i)] for [i] below the length the parent of [i] is the
    representative returned, itself below the length and its own parent,
    and a second [find(i)] returns the same representative and changes
    nothing. *)
Theorem find_compresses (n : nat) (ds : t) (i : nat) :
  (N.of_nat n <= 2 ^ 32)%N -> reachable n ds -> i < n ->
  exists r ds',
    find ds i = Some (Some r, ds') /\
    r < n /\
    parent ds' !! i = Some r /\ parent ds' !! r = Some r /\
    find ds' i = Some (Some r, ds').
Proof.
  intros Hn Hreach Hi.
  destruct (DisjointSetFacts.reachable_ok n ds Hn Hreach) as (Hl & Hp & Hf).
  destruct (DisjointSetFacts.rep_root_of (parent ds) i Hf ltac:(lia)) as [k Hk].
  pose proof (DisjointSetFacts.path_short _ _ _ _ Hk) as Hshort.
  destruct (find_path_compresses _ _ _ _ (proj1 Hf) Hk (depth (parent ds))
              ltac:(unfold depth; lia)) as (p' & Hfind & Hlen & Hpi & Hpr).
  exists (root (parent ds) i), (mk (length ds) p').
  unfold find at 1. rewrite Hfind. split; [reflexivity|]. split.
  { rewrite <- Hp. apply DisjointSetFacts.root_lt; [exact Hf | lia]. }
  split; [exact Hpi|]. split; [exact Hpr|].
  unfold find. simpl. unfold depth. simpl. rewrite Hpi.
  destruct (Nat.eqb_spec (root (parent ds) i) i) as [Heq | Hne].
  - rewrite Heq. reflexivity.
  - destruct (List.length p') as [|m] eqn:Hm.
    { apply lookup_lt_Some in Hpi. lia. }
    simpl. rewrite Hpr, Nat.eqb_refl.
    assert (Hsmall : (N.of_nat (root (parent ds) i) < 2 ^ 32)%N).
    { apply lookup_lt_Some in Hpr. destruct Hf as [Hsz _]. lia. }
    rewrite DisjointSetFacts.toUint32_small by exact Hsmall.
    rewrite list_insert_id by exact Hpi. reflexivity.
Qed.

Lemma find_compresses_witness :
  exists r ds',
    find (mk 3 [1; 2; 2]) 0 = Some (Some r, ds') /\
    r < 3 /\
    parent ds' !! 0 = Some r /\ parent ds' !! r = Some r /\
    find ds' 0 = Some (Some r, ds').
Proof.
  apply (find_compresses 3 (mk 3 [1; 2; 2]) 0).
  - vm_compute. discriminate.
  - apply (reach_union 3 (mk 3 [1; 1; 2]) 1 2); [|lia|lia|reflexivity].
    apply (reach_union 3 (create 3) 0 1); [|lia|lia|reflexivity].
    apply reach_create.
  - lia.
Defined.

(** X9.  Outside the array: [find(i)] for an index at or above the length
    returns [undefined] and changes nothing; and [union(i, j)] with [i]
    below the length and [j] at or above it stores [undefined] as the
    parent of the representative of [i], which a [Uint32Array] keeps as 0:
    the set of [i] is put under element 0. *)
Theorem out_of_range_indices (n : nat) (ds : t) (i j : nat) :
  (N.of_nat n <= 2 ^ 32)%N -> reachable n ds -> i < n -> n <= j ->
  find ds j = Some (None, ds) /\
  exists ds',
    union ds i j = Some ds' /\
    parent ds' !! root (parent ds) i = Some 0.
Proof.
  intros Hn Hreach Hi Hj.
  pose proof (DisjointSetFacts.reachable_ok n ds Hn Hreach) as Hok.
  assert (Hout : forall d, ok n d -> find d j = Some (None, d)).
  { intros d (Hl & Hp & _). unfold find.
    rewrite DisjointSetFacts.find_out_of_range by lia.
    destruct d. reflexivity. }
  split; [apply Hout, Hok|].
  destruct (DisjointSetFacts.find_ok n ds i Hok)
    as (r & ds1 & Hf1 & Hr & Hok1 & Hroots).
  destruct (decide (i < n)) as [_|]; [|lia]. subst r.
  unfold union. rewrite Hf1, (Hout ds1 Hok1).
  eexists. split; [reflexivity|]. simpl.
  apply list_lookup_insert_eq.
  destruct Hok1 as (_ & Hp1 & Hfo1). rewrite Hp1.
  destruct Hok as (_ & Hp & Hfo). rewrite <- Hp.
  apply DisjointSetFacts.root_lt; [exact Hfo | lia].
Qed.

Lemma out_of_range_indices_witness :
  find (create 3) 5 = Some (None, create 3) /\
  exists ds',
    union (create 3) 2 5 = Some ds' /\
    parent ds' !! root (parent (create 3)) 2 = Some 0.
Proof.
  apply (out_of_range_indices 3 (create 3) 2 5).
  - vm_compute. discriminate.
  - apply reach_create.
  - lia.
  - lia.
Defined.

End DisjointSetMore.

(* ================================================================== *)
(** * More about math/TrackingMath.ts and its copies *)
(* ================================================================== *)

Module MathMore.

(** X10.  [intersectRect] does not depend on the order of the two
    rectangles, a rectangle with ordered corners intersects itself, and
    [ColorTracker.intersectRect_] is the same test. *)
Theorem intersectRect_symmetric (x0 y0 x1 y1 x2 y2 x3 y3 : Z) :
  TrackingMath.intersectRect x0 y0 x1 y1 x2 y2 x3 y3
  = TrackingMath.intersectRect x2 y2 x3 y3 x0 y0 x1 y1 /\
  ColorTracker.intersectRect_ x0 y0 x1 y1 x2 y2 x3 y3
  = TrackingMath.intersectRect x0 y0 x1 y1 x2 y2 x3 y3 /\
  ((x0 <= x1)%Z -> (y0 <= y1)%Z ->
   TrackingMath.intersectRect x0 y0 x1 y1 x0 y0 x1 y1 = true).
Proof.
  unfold TrackingMath.intersectRect, ColorTracker.intersectRect_.
  rewrite !Z.gtb_ltb.
  repeat split; intros;
    repeat match goal with
           | |- context [(?a <? ?b)%Z] => destruct (Z.ltb_spec a b)
           end; try reflexivity; lia.
Qed.

End MathMore.

(* ================================================================== *)
(** * More about the Rectangle Merger *)
(* ================================================================== *)

Module MergerMore.
Import ViolaJones.

Lemma counted_app (l1 l2 : list Rect) :
  Design.counted (l1 ++ l2) = (Design.counted l1 + Design.counted l2)%Z.
Proof.
  unfold Design.counted. induction l1 as [|r l1 IH]; simpl; [reflexivity|].
  rewrite IH. lia.
Qed.

Lemma counted_perm (l1 l2 : list Rect) :
  Permutation l1 l2 -> Design.counted l1 = Design.counted l2.
Proof.
  unfold Design.counted.
  induction 1 as [|r l1 l2 _ IH|r1 r2 l|l1 l2 l3 _ IH1 _ IH2]; simpl; lia.
Qed.

Lemma countedIn_empty : Design.countedIn (∅ : gmap nat Rect) = 0%Z.
Proof. unfold Design.countedIn. rewrite map_to_list_empty. reflexivity. Qed.

Lemma countedIn_insert_new (m : gmap nat Rect) (k : nat) (v : Rect) :
  m !! k = None ->
  Design.countedIn (<[k := v]> m) = (total v + Design.countedIn m)%Z.
Proof.
  intros Hk. unfold Design.countedIn.
  rewrite (counted_perm _ (map snd ((k, v) :: map_to_list m))).
  - reflexivity.
  - apply Permutation_map, map_to_list_insert, Hk.
Qed.

Lemma countedIn_insert_old (m : gmap nat Rect) (k : nat) (v0 v : Rect) :
  m !! k = Some v0 ->
  Design.countedIn (<[k := v]> m)
  = (total v - total v0 + Design.countedIn m)%Z.
Proof.
  intros Hk. rewrite <- insert_delete_eq.
  rewrite countedIn_insert_new by apply lookup_delete_eq.
  unfold Design.countedIn at 2.
  rewrite <- (counted_perm _ _
                (Permutation_map snd (map_to_list_delete m k v0 Hk))).
  unfold Design.countedIn, Design.counted. simpl. lia.
Qed.

(** The first loop returns, with a forest. *)
Lemma unionLoop_ok (rects : list Rect) :
  (N.of_nat (length rects) <= 2 ^ 32)%N ->
  exists ds,
    unionLoop rects (DisjointSet.create (length rects)) = Some ds /\
    DisjointSet.ok (length rects) ds /\
    forall i j,
      DisjointSet.root (DisjointSet.parent ds) i
      = DisjointSet.root (DisjointSet.parent ds) j
      <-> DisjointSet.connected (Design.unionCalls rects) i j.
Proof.
  intros Hn. unfold unionLoop. rewrite MergerFacts.outer_loop.
  2:{ apply List.Forall_forall. intros i Hi. apply in_seq in Hi. lia. }
  fold (Design.unionCalls rects).
  destruct (DisjointSetFacts.unions_ok (length rects) (Design.unionCalls rects)
              [] (DisjointSet.create (length rects)))
    as (ds & Hus & Hok & Hconn).
  - apply DisjointSetFacts.create_ok, Hn.
  - apply List.Forall_forall. intros [i j] Hin.
    apply MergerFacts.in_unionCalls in Hin.
    destruct Hin as (r1 & r2 & Hr1 & Hr2 & _).
    apply lookup_lt_Some in Hr1, Hr2. simpl. lia.
  - intros x y. rewrite DisjointSetFacts.create_parent by exact Hn.
    rewrite !DisjointSetFacts.root_seq by exact Hn. split.
    + intros ->. apply rst_refl.
    + induction 1 as [x y [] | | |]; congruence.
  - eauto.
Qed.

(** The second loop returns; each rectangle adds one to the accumulator of
    its representative. *)
Lemma group_loop (rects : list Rect) (ks : list nat) : forall ds m,
  DisjointSet.ok (length rects) ds ->
  Forall (fun k => k < length rects) ks ->
  map_Forall (fun _ r => (1 <= total r)%Z) m ->
  exists ds' m',
    forEach ks (groupStep rects) (ds, m) = Some (ds', m') /\
    DisjointSet.ok (length rects) ds' /\
    map_Forall (fun _ r => (1 <= total r)%Z) m' /\
    Design.countedIn m' = (Design.countedIn m + Z.of_nat (length ks))%Z.
Proof.
  induction ks as [|k ks IH]; intros ds m Hok Hks Hpos.
  - exists ds, m. split; [reflexivity|]. split; [exact Hok|].
    split; [exact Hpos|]. simpl. lia.
  - apply List.Forall_cons_iff in Hks. destruct Hks as [Hk Hks].
    destruct (DisjointSetFacts.find_ok _ ds k Hok)
      as (r & ds1 & Hf & Hr & Hok1 & _).
    destruct (decide (k < length rects)) as [_|]; [|lia]. subst r.
    destruct (lookup_lt_is_Some_2 rects k Hk) as [rk Hrk].
    cbn [forEach]. unfold groupStep at 1. rewrite Hf, Hrk.
    set (rep := DisjointSet.root (DisjointSet.parent ds) k).
    destruct (m !! rep) as [acc|] eqn:Hacc.
    + set (acc' := mkRect (x acc + x rk) (y acc + y rk) (width acc + width rk)
                          (height acc + height rk) (total acc + 1)).
      assert (Hpos1 : map_Forall (fun _ r => (1 <= total r)%Z)
                        (<[rep := acc']> m)).
      { apply map_Forall_insert_2; [|exact Hpos].
        specialize (Hpos _ _ Hacc). simpl in *. lia. }
      destruct (IH ds1 _ Hok1 Hks Hpos1)
        as (ds' & m' & Hloop & Hok' & Hpos' & Hcount).
      exists ds', m'. split; [exact Hloop|]. split; [exact Hok'|].
      split; [exact Hpos'|]. rewrite Hcount.
      rewrite (countedIn_insert_old _ _ acc) by exact Hacc.
      simpl. lia.
    + set (acc' := mkRect (x rk) (y rk) (width rk) (height rk) 1).
      assert (Hpos1 : map_Forall (fun _ r => (1 <= total r)%Z)
                        (<[rep := acc']> m)).
      { apply map_Forall_insert_2; [simpl; lia | exact Hpos]. }
      destruct (IH ds1 _ Hok1 Hks Hpos1)
        as (ds' & m' & Hloop & Hok' & Hpos' & Hcount).
      exists ds', m'. split; [exact Hloop|]. split; [exact Hok'|].
      split; [exact Hpos'|]. rewrite Hcount.
      rewrite countedIn_insert_new by exact Hacc. simpl. lia.
Qed.

(** The rectangle the last loop makes of an accumulator. *)
Lemma results_cons (m : gmap nat Rect) (key : nat) (keys : list nat) (acc : Rect) :
  m !! key = Some acc ->
  omap (fun key =>
          match m !! key with
          | Some rect =>
              Some (mkRect (average (x rect) (total rect))
                           (average (y rect) (total rect))
                           (average (width rect) (total rect))
                           (average (height rect) (total rect))
                           (total rect))
          | None => None
          end) (key :: keys)
  = mkRect (average (x acc) (total acc)) (average (y acc) (total acc))
           (average (width acc) (total acc)) (average (height acc) (total acc))
           (total acc)
    :: omap (fun key =>
               match m !! key with
               | Some rect =>
                   Some (mkRect (average (x rect) (total rect))
                                (average (y rect) (total rect))
                                (average (width rect) (total rect))
                                (average (height rect) (total rect))
                                (total rect))
               | None => None
               end) keys.
Proof. intros H. cbn [omap list_omap]. rewrite H. reflexivity. Qed.

Lemma results_of_entries (m : gmap nat Rect) (l : list (nat * Rect)) :
  (forall kv, In kv l -> m !! fst kv = Some (snd kv)) ->
  Design.counted
    (omap (fun key =>
             match m !! key with
             | Some rect =>
                 Some (mkRect (average (x rect) (total rect))
                              (average (y rect) (total rect))
                              (average (width rect) (total rect))
                              (average (height rect) (total rect))
                              (total rect))
             | None => None
             end) (map fst l))
  = Design.counted (map snd l) /\
  length
    (omap (fun key =>
             match m !! key with
             | Some rect =>
                 Some (mkRect (average (x rect) (total rect))
                              (average (y rect) (total rect))
                              (average (width rect) (total rect))
                              (average (height rect) (total rect))
                              (total rect))
             | None => None
             end) (map fst l))
  = length l.
Proof.
  induction l as [|[k v] l IH]; intros Hl; [split; reflexivity|].
  cbn [map fst]. rewrite (results_cons m k _ v).
  2:{ apply (Hl (k, v)). left. reflexivity. }
  destruct IH as [IH1 IH2].
  { intros kv Hkv. apply Hl. right. exact Hkv. }
  split.
  - unfold Design.counted in *. cbn [map fold_right total snd]. rewrite IH1.
    reflexivity.
  - cbn [length]. rewrite IH2. reflexivity.
Qed.

Lemma results_total (m : gmap nat Rect) :
  Design.counted (results m) = Design.countedIn m /\
  length (results m) = length (map_to_list m).
Proof.
  unfold results, keys.
  pose proof (merge_sort_Permutation Nat.le (map_to_list m).*1) as Hperm.
  destruct (results_of_entries m (map_to_list m)) as [Hc Hl].
  { intros [k v] Hkv. apply elem_of_map_to_list, list_elem_of_In, Hkv. }
  split.
  - unfold Design.countedIn. rewrite <- Hc. apply counted_perm.
    apply (omap_Permutation _ _ _ Hperm).
  - rewrite <- Hl. apply Permutation_length.
    apply (omap_Permutation _ _ _ Hperm).
Qed.

Lemma results_positive (m : gmap nat Rect) :
  map_Forall (fun _ r => (1 <= total r)%Z) m ->
  Forall (fun r => (1 <= total r)%Z) (results m).
Proof.
  intros Hpos. apply List.Forall_forall. intros r Hin.
  apply list_elem_of_In in Hin. unfold results in Hin.
  apply list_elem_of_omap in Hin. destruct Hin as (key & _ & Hkey).
  destruct (m !! key) as [rect|] eqn:Hm; [|discriminate].
  injection Hkey as <-. exact (Hpos _ _ Hm).
Qed.

Lemma counted_at_least_length (l : list Rect) :
  Forall (fun r => (1 <= total r)%Z) l ->
  (Z.of_nat (length l) <= Design.counted l)%Z.
Proof.
  unfold Design.counted.
  induction 1 as [|r l Hr _ IH]; cbn [length map fold_right]; lia.
Qed.

(** X11.  For a list of at most 2^32 raw rectangles the merger returns:
    none of its loops fails or runs out of its bound.  Every rectangle it
    returns stands for at least one raw rectangle, the [total] fields of
    the result add up to the number of raw rectangles, and so the result
    is never longer than the input. *)
Theorem merger_accounts_for_every_rectangle (rects : list Rect) :
  (N.of_nat (length rects) <= 2 ^ 32)%N ->
  exists out,
    mergeRectangles_ rects = Some out /\
    Design.counted out = Z.of_nat (length rects) /\
    Forall (fun r => (1 <= total r)%Z) out /\
    length out <= length rects.
Proof.
  intros Hn. destruct (unionLoop_ok rects Hn) as (ds & Hunion & Hok & _).
  destruct (group_loop rects (seq 0 (length rects)) ds ∅ Hok)
    as (ds' & m & Hgroup & _ & Hpos & Hcount).
  { apply List.Forall_forall. intros k Hk. apply in_seq in Hk. lia. }
  { apply map_Forall_empty. }
  exists (results m). unfold mergeRectangles_. rewrite Hunion.
  destruct Hok as (Hlen & _). rewrite Hlen, Hgroup.
  rewrite countedIn_empty, length_seq in Hcount.
  destruct (results_total m) as [Htotal _].
  pose proof (results_positive m Hpos) as Hall.
  pose proof (counted_at_least_length _ Hall) as Hle.
  split; [reflexivity|]. split; [lia|]. split; [exact Hall|]. lia.
Qed.

Lemma merger_accounts_for_every_rectangle_witness :
  exists out,
    mergeRectangles_ [mkRect 0 0 10 10 0; mkRect 1 1 10 10 0;
                      mkRect 40 40 10 10 0] = Some out /\
    Design.counted out = 3%Z /\
    Forall (fun r => (1 <= total r)%Z) out /\
    length out <= 3.
Proof.
  apply (merger_accounts_for_every_rectangle
           [mkRect 0 0 10 10 0; mkRect 1 1 10 10 0; mkRect 40 40 10 10 0]).
  vm_compute. discriminate.
Defined.

(** ** The groups *)

Lemma sumOf_app (f : Rect -> Z) (l1 l2 : list Rect) :
  Design.sumOf f (l1 ++ l2) = (Design.sumOf f l1 + Design.sumOf f l2)%Z.
Proof.
  unfold Design.sumOf. induction l1 as [|r l1 IH]; simpl; [reflexivity|].
  rewrite IH. lia.
Qed.

Lemma groupSum_single (rects : list Rect) (k : nat) (rk : Rect) :
  rects !! k = Some rk ->
  Design.groupSum rects [k]
  = mkRect (x rk) (y rk) (width rk) (height rk) 1.
Proof.
  intros Hk. unfold Design.groupSum. cbn [omap list_omap]. rewrite Hk.
  unfold Design.sumOf. cbn [map fold_right length].
  rewrite !Z.add_0_r. reflexivity.
Qed.

Lemma groupSum_snoc (rects : list Rect) (ks : list nat) (k : nat) (rk : Rect) :
  rects !! k = Some rk ->
  Design.groupSum rects (ks ++ [k])
  = mkRect (x (Design.groupSum rects ks) + x rk)
           (y (Design.groupSum rects ks) + y rk)
           (width (Design.groupSum rects ks) + width rk)
           (height (Design.groupSum rects ks) + height rk)
           (total (Design.groupSum rects ks) + 1).
Proof.
  intros Hk. unfold Design.groupSum. rewrite omap_app.
  cbn [omap list_omap]. rewrite Hk. cbn [x y width height total].
  rewrite !sumOf_app, length_app. unfold Design.sumOf.
  cbn [map fold_right length]. rewrite !Z.add_0_r.
  f_equal. lia.
Qed.

Lemma members_snoc (rep : nat -> nat) (done : list nat) (k r : nat) :
  Design.members rep (done ++ [k]) r
  = if rep k =? r then Design.members rep done r ++ [k]
    else Design.members rep done r.
Proof.
  unfold Design.members. rewrite List.filter_app. cbn [List.filter].
  destruct (rep k =? r); [reflexivity | apply app_nil_r].
Qed.

(** The second loop, group by group. *)
Lemma group_loop_sums (rects : list Rect) (rep : nat -> nat) (ks : list nat) :
  forall done ds m,
    DisjointSet.ok (length rects) ds ->
    (forall i, DisjointSet.root (DisjointSet.parent ds) i = rep i) ->
    Forall (fun k => k < length rects) ks ->
    (forall r, m !! r = Design.accumulated rects rep done r) ->
    exists ds' m',
      forEach ks (groupStep rects) (ds, m) = Some (ds', m') /\
      forall r, m' !! r = Design.accumulated rects rep (done ++ ks) r.
Proof.
  induction ks as [|k ks IH]; intros done ds m Hok Hrep Hks Hm.
  - exists ds, m. rewrite app_nil_r. split; [reflexivity | exact Hm].
  - apply List.Forall_cons_iff in Hks. destruct Hks as [Hk Hks].
    destruct (DisjointSetFacts.find_ok _ ds k Hok)
      as (r0 & ds1 & Hf & Hr0 & Hok1 & Hroots).
    destruct (decide (k < length rects)) as [_|]; [|lia]. subst r0.
    destruct (lookup_lt_is_Some_2 rects k Hk) as [rk Hrk].
    rewrite Hrep in Hf.
    cbn [forEach]. unfold groupStep at 1. rewrite Hf, Hrk.
    assert (Hrep1 : forall i,
              DisjointSet.root (DisjointSet.parent ds1) i = rep i).
    { intros i. rewrite Hroots. apply Hrep. }
    replace (done ++ k :: ks) with ((done ++ [k]) ++ ks)
      by (rewrite <- app_assoc; reflexivity).
    rewrite (Hm (rep k)). unfold Design.accumulated at 1.
    destruct (Design.members rep done (rep k)) as [|a l] eqn:Hmem.
    + apply (IH (done ++ [k]) ds1 _ Hok1 Hrep1 Hks).
      intros r. unfold Design.accumulated. rewrite members_snoc.
      destruct (Nat.eqb_spec (rep k) r) as [<-|Hne].
      * rewrite Hmem, lookup_insert_eq. cbn [app].
        rewrite (groupSum_single rects k rk Hrk). reflexivity.
      * rewrite lookup_insert_ne by exact Hne. apply Hm.
    + apply (IH (done ++ [k]) ds1 _ Hok1 Hrep1 Hks).
      intros r. unfold Design.accumulated. rewrite members_snoc.
      destruct (Nat.eqb_spec (rep k) r) as [<-|Hne].
      * rewrite Hmem, lookup_insert_eq. cbn [app].
        change (a :: l ++ [k]) with ((a :: l) ++ [k]).
        rewrite (groupSum_snoc rects (a :: l) k rk Hrk). reflexivity.
      * rewrite lookup_insert_ne by exact Hne. apply Hm.
Qed.

Lemma members_nonempty (rep : nat -> nat) (ks : list nat) (r : nat) :
  Design.members rep ks r <> [] <-> exists k, In k ks /\ rep k = r.
Proof.
  unfold Design.members. split.
  - destruct (List.filter _ ks) as [|k l] eqn:Hl; [congruence|]. intros _.
    assert (Hin : In k (List.filter (fun k => rep k =? r) ks))
      by (rewrite Hl; left; reflexivity).
    apply List.filter_In in Hin. destruct Hin as [Hin Heq].
    exists k. split; [exact Hin | apply Nat.eqb_eq, Heq].
  - intros (k & Hin & Heq) Hnil.
    assert (Hk : In k (List.filter (fun k => rep k =? r) ks)).
    { apply List.filter_In. split; [exact Hin | apply Nat.eqb_eq, Heq]. }
    rewrite Hnil in Hk. destruct Hk.
Qed.

Lemma sorted_filter_seq (P : nat -> bool) (n : nat) : forall a,
  Sorted Nat.le (List.filter P (seq a n)).
Proof.
  assert (Hhd : forall n a b, b <= a -> HdRel Nat.le b (List.filter P (seq a n))).
  { clear n. induction n as [|n IH]; intros a b Hab; [constructor|].
    cbn [seq List.filter]. destruct (P a).
    - constructor. exact Hab.
    - apply IH. lia. }
  induction n as [|n IH]; intros a; [constructor|].
  cbn [seq List.filter]. destruct (P a); [|apply IH].
  constructor; [apply IH | apply Hhd; lia].
Qed.

(** The keys of the [map] are the representatives, in ascending order. *)
Lemma keys_representatives (rects : list Rect) (rep : nat -> nat)
  (m : gmap nat Rect) :
  (forall i, i < length rects -> rep i < length rects) ->
  (forall i, i < length rects -> rep (rep i) = rep i) ->
  (forall r, m !! r
             = Design.accumulated rects rep (seq 0 (length rects)) r) ->
  keys m = Design.representatives rep (length rects).
Proof.
  intros Hlt Hidem Hm. unfold keys.
  apply (Sorted_unique Nat.le).
  - apply Sorted_merge_sort. apply _.
  - apply sorted_filter_seq.
  - rewrite merge_sort_Permutation. apply NoDup_Permutation.
    + apply NoDup_fst_map_to_list.
    + apply NoDup_ListNoDup, List.NoDup_filter, seq_NoDup.
    + intros r. rewrite list_elem_of_fmap. split.
      * intros ([r' v] & -> & Hin). apply elem_of_map_to_list in Hin.
        cbn [fst]. rewrite Hm in Hin. unfold Design.accumulated in Hin.
        assert (Hne : Design.members rep (seq 0 (length rects)) r' <> []).
        { intros Hnil. rewrite Hnil in Hin. discriminate. }
        apply members_nonempty in Hne. destruct Hne as (k & Hk & <-).
        apply in_seq in Hk. apply list_elem_of_In, List.filter_In. split.
        -- apply in_seq. specialize (Hlt k). lia.
        -- apply Nat.eqb_eq, Hidem. lia.
      * intros Hin. apply list_elem_of_In, List.filter_In in Hin.
        destruct Hin as [Hr Heq]. apply Nat.eqb_eq in Heq.
        destruct (Design.accumulated rects rep (seq 0 (length rects)) r)
          as [v|] eqn:Hacc.
        -- exists (r, v). split; [reflexivity|].
           apply elem_of_map_to_list. rewrite Hm. exact Hacc.
        -- unfold Design.accumulated in Hacc.
           destruct (Design.members rep (seq 0 (length rects)) r) eqn:Hmem;
             [|discriminate].
           exfalso. revert Hmem. apply members_nonempty.
           exists r. split; [exact Hr | exact Heq].
Qed.

(** The last loop, on the representatives. *)
Lemma results_groups (rects : list Rect) (rep : nat -> nat)
  (m : gmap nat Rect) (reps : list nat) :
  (forall r, In r reps ->
     m !! r
     = Some (Design.groupSum rects
               (Design.members rep (seq 0 (length rects)) r))) ->
  omap (fun key =>
          match m !! key with
          | Some rect =>
              Some (mkRect (average (x rect) (total rect))
                           (average (y rect) (total rect))
                           (average (width rect) (total rect))
                           (average (height rect) (total rect))
                           (total rect))
          | None => None
          end) reps
  = map (fun r =>
           Design.groupAverage rects
             (Design.members rep (seq 0 (length rects)) r)) reps.
Proof.
  induction reps as [|r reps IH]; intros Hm; [reflexivity|].
  rewrite (results_cons m r reps _ (Hm r (or_introl eq_refl))).
  rewrite IH by (intros r' Hr'; apply Hm; right; exact Hr').
  reflexivity.
Qed.



(** X18.  What the merger returns, for at most 2^32 raw rectangles: the
    raw rectangles fall into groups, two of them being in the same group
    exactly when a chain of pairs that pass the overlap test (in either
    direction) leads from one to the other; each group has one
    representative among its members; and the result lists, by ascending
    representative, one rectangle for each group: its [total] is the
    number of members and each of its other fields is the sum of that
    field over the members, divided by [total], plus 0.5, truncated. *)
Theorem merger_averages_groups (rects : list Rect) :
  (N.of_nat (length rects) <= 2 ^ 32)%N ->
  exists rep : nat -> nat,
    (forall i j,
        i < length rects -> j < length rects ->
        (rep i = rep j
         <-> DisjointSet.connected (Design.unionCalls rects) i j)) /\
    (forall i, i < length rects ->
               rep i < length rects /\ rep (rep i) = rep i) /\
    mergeRectangles_ rects = Some (Design.grouped rects rep).
Proof.
  intros Hn.
  destruct (unionLoop_ok rects Hn) as (ds & Hunion & Hok & Hconn).
  set (rep := DisjointSet.root (DisjointSet.parent ds)).
  destruct Hok as (Hlen & Hplen & Hforest).
  assert (Hlt : forall i, i < length rects -> rep i < length rects).
  { intros i Hi. unfold rep.
    pose proof (DisjointSetFacts.root_lt (DisjointSet.parent ds) i Hforest
                  ltac:(lia)) as H.
    lia. }
  assert (Hidem : forall i, i < length rects -> rep (rep i) = rep i).
  { intros i Hi. unfold rep.
    apply DisjointSetFacts.root_rep; [exact Hforest|].
    apply DisjointSetFacts.rep_root, DisjointSetFacts.root_is_root;
      [exact Hforest | lia]. }
  exists rep. split; [intros i j _ _; apply Hconn|].
  split; [intros i Hi; split; [apply Hlt | apply Hidem]; exact Hi|].
  destruct (group_loop_sums rects rep (seq 0 (length rects)) [] ds ∅)
    as (ds' & m & Hgroup & Hm).
  { split; [exact Hlen | split; [exact Hplen | exact Hforest]]. }
  { reflexivity. }
  { apply List.Forall_forall. intros k Hk. apply in_seq in Hk. lia. }
  { intros r. apply lookup_empty. }
  cbn [app] in Hm.
  unfold mergeRectangles_. rewrite Hunion, Hlen, Hgroup. f_equal.
  unfold results, Design.grouped.
  rewrite (keys_representatives rects rep m Hlt Hidem Hm).
  apply results_groups. intros r Hr.
  apply List.filter_In in Hr. destruct Hr as [Hr Heq].
  apply Nat.eqb_eq in Heq. rewrite Hm. unfold Design.accumulated.
  destruct (Design.members rep (seq 0 (length rects)) r) eqn:Hmem;
    [|reflexivity].
  exfalso. revert Hmem. apply members_nonempty.
  exists r. split; [exact Hr | exact Heq].
Qed.

Lemma merger_averages_groups_witness :
  exists rep : nat -> nat,
    (forall i j,
        i < 3 -> j < 3 ->
        (rep i = rep j
         <-> DisjointSet.connected
               (Design.unionCalls
                  [mkRect 0 0 10 10 0; mkRect 1 1 10 10 0;
                   mkRect 40 40 10 10 0]) i j)) /\
    (forall i, i < 3 -> rep i < 3 /\ rep (rep i) = rep i) /\
    mergeRectangles_ [mkRect 0 0 10 10 0; mkRect 1 1 10 10 0;
                      mkRect 40 40 10 10 0]
    = Some (Design.grouped
              [mkRect 0 0 10 10 0; mkRect 1 1 10 10 0; mkRect 40 40 10 10 0]
              rep).
Proof.
  apply (merger_averages_groups
           [mkRect 0 0 10 10 0; mkRect 1 1 10 10 0; mkRect 40 40 10 10 0]).
  vm_compute. discriminate.
Defined.

End MergerMore.

(* ================================================================== *)
(** * More about the Multiscale Window Scanner *)
(* ================================================================== *)

Module ScannerMore.
Import ViolaJones.

(** A loop whose index does not advance never leaves a range it is in. *)
Lemma forStep_stuck {St : Type} (bound step : Z)
  (body : Z -> St -> option St) :
  (step <= 0)%Z ->
  forall fuel i s, (i < bound)%Z -> forStep fuel bound step i body s = None.
Proof.
  intros Hstep. induction fuel as [|fuel IH]; intros i s Hi; simpl;
    [reflexivity|].
  destruct (Z.ltb_spec i bound) as [_|]; [|lia].
  destruct (body i s) as [s'|]; [|reflexivity].
  apply IH. lia.
Qed.

(** A property of the state is kept by a loop that returns when every
    step at an index of its range keeps it. *)
Lemma forStep_inv_range {St : Type} (P : St -> Prop) (bound step : Z)
  (body : Z -> St -> option St) :
  (forall i s s', (0 <= i < bound)%Z -> P s -> body i s = Some s' -> P s') ->
  forall fuel i s s', (0 <= i)%Z -> P s ->
    forStep fuel bound step i body s = Some s' -> P s'.
Proof.
  intros Hbody. induction fuel as [|fuel IH]; intros i s s' Hi HP H;
    [discriminate|].
  destruct (Z.le_gt_cases step 0) as [Hstep|Hstep].
  - destruct (Z.lt_ge_cases i bound) as [Hlt|Hge].
    + rewrite (forStep_stuck bound step body Hstep _ _ _ Hlt) in H.
      discriminate.
    + simpl in H. destruct (Z.ltb_spec i bound); [lia|].
      inversion H; subst. exact HP.
  - simpl in H. destruct (Z.ltb_spec i bound) as [Hlt|_].
    + destruct (body i s) as [t|] eqn:H1; [|discriminate].
      apply (IH (i + step)%Z t s'); [lia | | exact H].
      apply (Hbody i s t); [lia | exact HP | exact H1].
    + inversion H; subst. exact HP.
Qed.

Section Scan.

Variable computeIntegralImage : list Z -> Z -> Z -> list Z * list Z * list Z.
Variable computeIntegralImageSobel : list Z -> Z -> Z -> list Z.
Variable fuel : nat.
Variable pixels : list Z.
Variables width height : Z.
Variables initialScale scaleFactor stepSize edgesDensity : spec_float.
Variable data : list spec_float.

Local Abbreviation windowStep' :=
  (windowStep computeIntegralImage computeIntegralImageSobel fuel pixels
              width height edgesDensity data).
Local Abbreviation scaleLoop' :=
  (scaleLoop computeIntegralImage computeIntegralImageSobel fuel pixels
             width height scaleFactor stepSize edgesDensity data).

(** A property of the rectangles and calls is kept by the scan when
    every window of a block that fits keeps it. *)
Lemma scaleLoop_inv (P : list Rect * list event -> Prop) :
  (forall scale bw bh i j st st',
      (bw < width)%Z -> (bh < height)%Z ->
      (0 <= i < height - bh)%Z -> (0 <= j < width - bw)%Z ->
      P st -> windowStep' scale bw bh i j st = Some st' -> P st') ->
  forall n scale bw bh st st',
    P st -> scaleLoop' n scale bw bh st = Some st' -> P st'.
Proof.
  intros Hwin. induction n as [|n IH]; intros scale bw bh st st' HP H;
    simpl in H; [discriminate|].
  destruct ((bw <? width)%Z && (bh <? height)%Z) eqn:Hfit.
  - apply andb_true_iff in Hfit. destruct Hfit as [Hw Hh].
    apply Z.ltb_lt in Hw, Hh.
    match type of H with
    | match ?loop with _ => _ end = _ => destruct loop as [st1|] eqn:Hloop
    end; [|discriminate].
    refine (IH _ _ _ st1 st' _ H).
    revert Hloop. apply (forStep_inv_range P); [|lia|exact HP].
    intros i s s' Hi Hs.
    apply (forStep_inv_range P); [|lia|exact Hs].
    intros j t t' Hj Ht. apply (Hwin scale bw bh i j); assumption.
  - inversion H; subst. exact HP.
Qed.

(** What one window adds. *)
Lemma windowStep_adds scale bw bh i j rects log rects' log' :
  windowStep' scale bw bh i j (rects, log) = Some (rects', log') ->
  (rects' = rects /\
   exists calls, log' = log ++ calls /\ evaluations calls <= 1) \/
  (rects' = rects ++ [mkRect j i bw bh 0] /\
   exists calls, log' = (log ++ calls) ++ [CallEvaluator i j bw bh] /\
                 evaluations calls = 0).
Proof.
  rewrite ScannerFacts.windowStep_cases.
  destruct (Design.skipped _ _ _ _ _ _ _ _ _).
  - intros H. inversion H; subst. left. split; [reflexivity|].
    exists [CallPruner i j bw bh]. split; [reflexivity|].
    unfold evaluations. simpl. lia.
  - destruct (Design.verdictOf _ _ _ _ _ _ _ _ _ _ _) as [[]|];
      [| |discriminate]; intros H; inversion H; subst.
    + right. split; [reflexivity|].
      exists (if Design.pruning edgesDensity
              then [CallPruner i j bw bh] else []).
      split; [reflexivity|]. destruct (Design.pruning _); reflexivity.
    + left. split; [apply app_nil_r|].
      exists ((if Design.pruning edgesDensity
               then [CallPruner i j bw bh] else [])
              ++ [CallEvaluator i j bw bh]).
      split; [rewrite app_assoc; reflexivity|].
      unfold evaluations. destruct (Design.pruning _); simpl; lia.
Qed.

End Scan.

(** X12.  Every raw rectangle of a scan that returns lies inside the
    image, away from its right and bottom edges: its corner is at
    [0 <= x], [0 <= y], and [x + width < image width],
    [y + height < image height]; and its [total] is 0.  This holds for
    every cascade, step size and scale factor. *)
Theorem raw_rectangles_inside_image
  (computeIntegralImage : list Z -> Z -> Z -> list Z * list Z * list Z)
  (computeIntegralImageSobel : list Z -> Z -> Z -> list Z)
  (fuel : nat) (pixels : list Z) (width height : Z)
  (initialScale scaleFactor stepSize edgesDensity : spec_float)
  (data : list spec_float) (rects : list Rect) (log : list event) :
  scan computeIntegralImage computeIntegralImageSobel fuel pixels width height
       initialScale scaleFactor stepSize edgesDensity data
    = Some (rects, log) ->
  Forall (fun r =>
            (0 <= x r)%Z /\ (0 <= y r)%Z /\
            (x r + ViolaJones.width r < width)%Z /\
            (y r + ViolaJones.height r < height)%Z /\
            total r = 0%Z) rects.
Proof.
  intros H. apply ScannerFacts.scan_returned in H. destruct H as [_ H].
  change rects with (fst (rects, log)).
  revert H.
  apply (scaleLoop_inv computeIntegralImage computeIntegralImageSobel fuel
           pixels width height scaleFactor stepSize edgesDensity data
           (fun st => Forall (fun r =>
              (0 <= x r)%Z /\ (0 <= y r)%Z /\
              (x r + ViolaJones.width r < width)%Z /\
              (y r + ViolaJones.height r < height)%Z /\
              total r = 0%Z) (fst st))); [|constructor].
  intros scale bw bh i j [rs lg] [rs' lg'] Hw Hh Hi Hj HP Hstep.
  apply windowStep_adds in Hstep.
  destruct Hstep as [[-> _] | [-> _]]; [exact HP|].
  cbn [fst] in *. apply Forall_app. split; [exact HP|].
  constructor; [|constructor]. simpl. lia.
Qed.

Lemma raw_rectangles_inside_image_witness :
  Forall (fun r =>
            (0 <= x r)%Z /\ (0 <= y r)%Z /\
            (x r + ViolaJones.width r < 3)%Z /\
            (y r + ViolaJones.height r < 3)%Z /\
            total r = 0%Z)
         [mkRect 0 0 2 2 0].
Proof.
  apply (raw_rectangles_inside_image
           Samples.tables Samples.edges
           6 [] 3 3 (Num.ofZ 1) (Num.ofZ 2) (Num.ofZ 1) Num.zero
           (map Num.ofZ [1; 1]%Z) [mkRect 0 0 2 2 0]
           [CallEvaluator 0 0 2 2]).
  vm_compute. reflexivity.
Defined.

(** X13.  When the step of the first scale, [(scale × stepSize + 0.5) | 0],
    is 0 or negative and the first block is smaller than the image, the
    loop over the rows never finishes: [detect] does not return, whatever
    the bound on the number of iterations. *)
Theorem detect_never_returns_on_nonpositive_step
  (computeIntegralImage : list Z -> Z -> Z -> list Z * list Z * list Z)
  (computeIntegralImageSobel : list Z -> Z -> Z -> list Z)
  (fuel : nat) (pixels : list Z) (width height : Z)
  (initialScale scaleFactor stepSize edgesDensity : spec_float)
  (data : list spec_float) :
  let scale := Num.mul initialScale scaleFactor in
  (Num.toInt32 (Num.mul scale (minWidth data)) < width)%Z ->
  (Num.toInt32 (Num.mul scale (minHeight data)) < height)%Z ->
  (Num.toInt32 (Num.add (Num.mul scale stepSize) Num.half) <= 0)%Z ->
  scan computeIntegralImage computeIntegralImageSobel fuel pixels width height
       initialScale scaleFactor stepSize edgesDensity data = None /\
  detect computeIntegralImage computeIntegralImageSobel fuel pixels width height
         initialScale scaleFactor stepSize edgesDensity data = None.
Proof.
  intros scale Hw Hh Hstep.
  assert (Hscan : scan computeIntegralImage computeIntegralImageSobel fuel
                    pixels width height initialScale scaleFactor stepSize
                    edgesDensity data = None).
  { unfold scan. destruct (allocates (width * height)); [|reflexivity].
    fold scale. destruct fuel as [|n]; [reflexivity|].
    cbn [scaleLoop].
    apply Z.ltb_lt in Hw, Hh. rewrite Hw, Hh. cbn [andb].
    apply Z.ltb_lt in Hh.
    rewrite forStep_stuck; [reflexivity | exact Hstep | lia]. }
  split; [exact Hscan|]. unfold detect. rewrite Hscan. reflexivity.
Qed.

Lemma detect_never_returns_on_nonpositive_step_witness :
  scan Samples.tables Samples.edges 1000 [] 3 3
       (Num.ofZ 1) (Num.ofZ 2) Num.zero Num.zero (map Num.ofZ [1; 1]%Z)
    = None /\
  detect Samples.tables Samples.edges 1000 [] 3 3
         (Num.ofZ 1) (Num.ofZ 2) Num.zero Num.zero (map Num.ofZ [1; 1]%Z)
    = None.
Proof.
  apply (detect_never_returns_on_nonpositive_step
           Samples.tables Samples.edges 1000 [] 3 3
           (Num.ofZ 1) (Num.ofZ 2) Num.zero Num.zero (map Num.ofZ [1; 1]%Z));
    vm_compute; congruence.
Defined.

(** X14.  [detect] reports no window it did not evaluate: every raw
    rectangle of a scan that returns is the window of a call of the
    evaluator made during the scan, and there are at most as many raw
    rectangles as calls of the evaluator. *)
Theorem raw_rectangles_were_evaluated
  (computeIntegralImage : list Z -> Z -> Z -> list Z * list Z * list Z)
  (computeIntegralImageSobel : list Z -> Z -> Z -> list Z)
  (fuel : nat) (pixels : list Z) (width height : Z)
  (initialScale scaleFactor stepSize edgesDensity : spec_float)
  (data : list spec_float) (rects : list Rect) (log : list event) :
  scan computeIntegralImage computeIntegralImageSobel fuel pixels width height
       initialScale scaleFactor stepSize edgesDensity data
    = Some (rects, log) ->
  Forall (fun r =>
            In (CallEvaluator (y r) (x r) (ViolaJones.width r)
                              (ViolaJones.height r)) log) rects /\
  length rects <= evaluations log.
Proof.
  intros H. apply ScannerFacts.scan_returned in H. destruct H as [_ H].
  change rects with (fst (rects, log)).
  change log with (snd (rects, log)) at 1 3.
  revert H.
  apply (scaleLoop_inv computeIntegralImage computeIntegralImageSobel fuel
           pixels width height scaleFactor stepSize edgesDensity data
           (fun st =>
              Forall (fun r =>
                        In (CallEvaluator (y r) (x r) (ViolaJones.width r)
                                          (ViolaJones.height r)) (snd st))
                     (fst st) /\
              length (fst st) <= evaluations (snd st)));
    [|split; [constructor | simpl; lia]].
  intros scale bw bh i j [rs lg] [rs' lg'] _ _ _ _ [Hin Hlen] Hstep.
  apply windowStep_adds in Hstep. cbn [fst snd] in *.
  destruct Hstep as [[-> (calls & -> & Hc)] | [-> (calls & -> & Hc)]].
  - split.
    + eapply List.Forall_impl; [|exact Hin].
      intros r Hr. apply in_or_app. left. exact Hr.
    + rewrite ScannerFacts.evaluations_app. lia.
  - split.
    + apply Forall_app. split.
      * eapply List.Forall_impl; [|exact Hin].
        intros r Hr. apply in_or_app. left. apply in_or_app. left. exact Hr.
      * constructor; [|constructor]. simpl.
        apply in_or_app. right. left. reflexivity.
    + rewrite length_app, !ScannerFacts.evaluations_app, Hc.
      change (evaluations [CallEvaluator i j bw bh]) with 1.
      simpl. lia.
Qed.

Lemma raw_rectangles_were_evaluated_witness :
  Forall (fun r =>
            In (CallEvaluator (y r) (x r) (ViolaJones.width r)
                              (ViolaJones.height r)) [CallEvaluator 0 0 2 2])
         [mkRect 0 0 2 2 0] /\
  1 <= evaluations [CallEvaluator 0 0 2 2].
Proof.
  apply (raw_rectangles_were_evaluated
           Samples.tables Samples.edges
           6 [] 3 3 (Num.ofZ 1) (Num.ofZ 2) (Num.ofZ 1) Num.zero
           (map Num.ofZ [1; 1]%Z) [mkRect 0 0 2 2 0]
           [CallEvaluator 0 0 2 2]).
  vm_compute. reflexivity.
Defined.

(** X21.  [detect] from end to end: when the scan returns with at most
    2^32 raw rectangles, [detect] returns; every rectangle it returns
    has a [total] of at least 1, the totals add up to the number of
    windows the evaluator accepted, and that number is at most the
    number of windows the evaluator was called on. *)
Theorem detect_accounts_for_accepted_windows
  (computeIntegralImage : list Z -> Z -> Z -> list Z * list Z * list Z)
  (computeIntegralImageSobel : list Z -> Z -> Z -> list Z)
  (fuel : nat) (pixels : list Z) (width height : Z)
  (initialScale scaleFactor stepSize edgesDensity : spec_float)
  (data : list spec_float) (rects : list Rect) (log : list event) :
  scan computeIntegralImage computeIntegralImageSobel fuel pixels width height
       initialScale scaleFactor stepSize edgesDensity data
    = Some (rects, log) ->
  (N.of_nat (length rects) <= 2 ^ 32)%N ->
  exists out,
    detect computeIntegralImage computeIntegralImageSobel fuel pixels
           width height initialScale scaleFactor stepSize edgesDensity data
      = Some out /\
    Forall (fun r => (1 <= total r)%Z) out /\
    Design.counted out = Z.of_nat (length rects) /\
    length out <= length rects /\
    length rects <= evaluations log.
Proof.
  intros Hscan Hn.
  (* the merger *)
  destruct (MergerMore.unionLoop_ok rects Hn) as (ds & Hunion & Hok & _).
  destruct (MergerMore.group_loop rects (seq 0 (length rects)) ds ∅ Hok)
    as (ds' & m & Hgroup & _ & Hpos & Hcount).
  { apply List.Forall_forall. intros k Hk. apply in_seq in Hk. lia. }
  { apply map_Forall_empty. }
  rewrite MergerMore.countedIn_empty, length_seq in Hcount.
  destruct (MergerMore.results_total m) as [Htotal _].
  pose proof (MergerMore.results_positive m Hpos) as Hall.
  pose proof (MergerMore.counted_at_least_length _ Hall) as Hle.
  exists (results m). unfold detect. rewrite Hscan.
  unfold mergeRectangles_. rewrite Hunion.
  destruct Hok as (Hlen & _). rewrite Hlen, Hgroup.
  split; [reflexivity|]. split; [exact Hall|]. split; [lia|].
  split; [lia|].
  (* the scan *)
  change (length (fst (rects, log)) <= evaluations (snd (rects, log))).
  apply ScannerFacts.scan_returned in Hscan. destruct Hscan as [_ Hscan].
  revert Hscan.
  apply (scaleLoop_inv computeIntegralImage computeIntegralImageSobel fuel
           pixels width height scaleFactor stepSize edgesDensity data
           (fun st => length (fst st) <= evaluations (snd st)));
    [|simpl; lia].
  intros scale bw bh i j [rs lg] [rs' lg'] _ _ _ _ Hinv Hstep.
  apply windowStep_adds in Hstep. cbn [fst snd] in *.
  destruct Hstep as [[-> (calls & -> & Hc)] | [-> (calls & -> & Hc)]].
  - rewrite ScannerFacts.evaluations_app. lia.
  - rewrite length_app, !ScannerFacts.evaluations_app, Hc.
    change (evaluations [CallEvaluator i j bw bh]) with 1.
    simpl. lia.
Qed.

Lemma detect_accounts_for_accepted_windows_witness :
  exists out,
    detect Samples.tables Samples.edges 6 [] 3 3
           (Num.ofZ 1) (Num.ofZ 2) (Num.ofZ 1) Num.zero (map Num.ofZ [1; 1]%Z)
      = Some out /\
    Forall (fun r => (1 <= total r)%Z) out /\
    Design.counted out = Z.of_nat (length [mkRect 0 0 2 2 0]) /\
    length out <= length [mkRect 0 0 2 2 0] /\
    length [mkRect 0 0 2 2 0] <= evaluations [CallEvaluator 0 0 2 2].
Proof.
  apply (detect_accounts_for_accepted_windows
           Samples.tables Samples.edges
           6 [] 3 3 (Num.ofZ 1) (Num.ofZ 2) (Num.ofZ 1) Num.zero
           (map Num.ofZ [1; 1]%Z) [mkRect 0 0 2 2 0]
           [CallEvaluator 0 0 2 2]).
  - vm_compute. reflexivity.
  - vm_compute. discriminate.
Defined.

End ScannerMore.

(* ================================================================== *)
(** * Facts about finite sums *)
(* ================================================================== *)

Module SumFacts.

Local Open Scope Z_scope.

Lemma sumTo_ext (n : nat) (f g : Z -> Z) :
  (forall k, 0 <= k < Z.of_nat n -> f k = g k) ->
  Design.sumTo n f = Design.sumTo n g.
Proof.
  induction n as [|n IH]; intros H; [reflexivity|].
  cbn [Design.sumTo]. rewrite IH, H; [reflexivity | lia |].
  intros k Hk. apply H. lia.
Qed.

Lemma sumTo_shift (n : nat) (f : Z -> Z) :
  Design.sumTo (S n) f = f 0 + Design.sumTo n (fun k => f (k + 1)).
Proof.
  induction n as [|n IH].
  { cbn [Design.sumTo]. change (Z.of_nat 0) with 0. ring. }
  change (Design.sumTo (S (S n)) f)
    with (Design.sumTo (S n) f + f (Z.of_nat (S n))).
  rewrite IH. cbn [Design.sumTo].
  replace (Z.of_nat (S n)) with (Z.of_nat n + 1) by lia. ring.
Qed.

Lemma sumTo_add (n : nat) (f g : Z -> Z) :
  Design.sumTo n (fun k => f k + g k) = Design.sumTo n f + Design.sumTo n g.
Proof.
  induction n as [|n IH]; [reflexivity|]. cbn [Design.sumTo].
  rewrite IH. ring.
Qed.

Lemma sumTo_sub (n : nat) (f g : Z -> Z) :
  Design.sumTo n (fun k => f k - g k) = Design.sumTo n f - Design.sumTo n g.
Proof.
  induction n as [|n IH]; [reflexivity|]. cbn [Design.sumTo].
  rewrite IH. ring.
Qed.

Lemma sumTo_swap (n m : nat) (f : Z -> Z -> Z) :
  Design.sumTo n (fun a => Design.sumTo m (fun b => f a b))
  = Design.sumTo m (fun b => Design.sumTo n (fun a => f a b)).
Proof.
  induction n as [|n IH].
  - cbn [Design.sumTo]. induction m as [|m IHm]; [reflexivity|].
    cbn [Design.sumTo]. rewrite <- IHm. reflexivity.
  - cbn [Design.sumTo]. rewrite IH, <- sumTo_add. reflexivity.
Qed.

Lemma sumTo_app (n m : nat) (f : Z -> Z) :
  Design.sumTo (n + m) f
  = Design.sumTo n f + Design.sumTo m (fun k => f (Z.of_nat n + k)).
Proof.
  induction m as [|m IH].
  - rewrite Nat.add_0_r. cbn [Design.sumTo]. ring.
  - rewrite Nat.add_succ_r. cbn [Design.sumTo]. rewrite IH.
    rewrite Nat2Z.inj_add. ring.
Qed.

End SumFacts.

(* ================================================================== *)
(** * Facts about the integral images *)
(* ================================================================== *)

Module ImageFacts.
Import ViolaJones SumFacts.

Local Open Scope Z_scope.

(** ** Stores into an [Int32Array] *)

Lemma int32_shift (z k : Z) : Int.toInt32 (z + k * 2 ^ 32) = Int.toInt32 z.
Proof.
  unfold Int.toInt32.
  replace (z + k * 2 ^ 32 + 2 ^ 31) with (z + 2 ^ 31 + k * 2 ^ 32) by ring.
  rewrite Z_mod_plus_full. reflexivity.
Qed.

Lemma int32_wraps (z : Z) : exists k, Int.toInt32 z = z + k * 2 ^ 32.
Proof.
  exists (- ((z + 2 ^ 31) / 2 ^ 32)). unfold Int.toInt32.
  rewrite Z.mod_eq by (vm_compute; discriminate). ring.
Qed.

Lemma int32_small (z : Z) :
  - 2 ^ 31 <= z < 2 ^ 31 -> Int.toInt32 z = z.
Proof.
  intros Hz. unfold Int.toInt32.
  rewrite Z.mod_small by lia. ring.
Qed.

(** ** The entries of the table, in closed form *)

Section Table.

Variable q : Z -> Z.
Variable width : Z.
Hypothesis width_pos : 0 < width.

Lemma columnSum_first_row (w : Z) :
  0 <= w < width -> Design.columnSum q width w = q w.
Proof.
  intros Hw. unfold Design.columnSum.
  rewrite Z.div_small by lia. change (Z.to_nat 0) with 0%nat.
  cbn [Design.sumTo]. change (Z.of_nat 0) with 0.
  rewrite Z.add_0_l. f_equal. ring.
Qed.

Lemma columnSum_next_row (w : Z) :
  width <= w ->
  Design.columnSum q width w = q w + Design.columnSum q width (w - width).
Proof.
  intros Hw. unfold Design.columnSum.
  assert (Hdiv : w / width = (w - width) / width + 1).
  { rewrite <- Z.div_add by lia. f_equal. ring. }
  assert (0 <= (w - width) / width) by (apply Z.div_pos; lia).
  replace (Z.to_nat (w / width)) with (S (Z.to_nat ((w - width) / width)))
    by lia.
  rewrite sumTo_shift. f_equal; [f_equal; ring|].
  apply sumTo_ext. intros k _. f_equal. ring.
Qed.

Lemma columnSum_rows (bh : nat) (w : Z) :
  0 <= w ->
  Design.columnSum q width (w + Z.of_nat bh * width)
  - Design.columnSum q width w
  = Design.sumTo bh (fun r => q (w + (r + 1) * width)).
Proof.
  intros Hw. induction bh as [|bh IH].
  - cbn [Design.sumTo]. replace (w + Z.of_nat 0 * width) with w by lia. ring.
  - cbn [Design.sumTo]. rewrite <- IH.
    rewrite (columnSum_next_row (w + Z.of_nat (S bh) * width)) by nia.
    replace (w + Z.of_nat (S bh) * width - width)
      with (w + Z.of_nat bh * width) by lia.
    replace ((Z.of_nat bh + 1) * width) with (Z.of_nat (S bh) * width) by lia.
    ring.
Qed.

Local Abbreviation entryZ := (Design.entryZ q width).
Local Abbreviation filled := (Design.filled q width).

Lemma entry_next (w : Z) :
  0 <= w ->
  Design.entry q width w = entryZ (w - 1) + Design.columnSum q width w.
Proof.
  intros Hw. unfold Design.entryZ, Design.entry.
  destruct (Z.ltb_spec (w - 1) 0) as [Hlt|Hge].
  - replace w with 0 by lia. change (Z.to_nat 0) with 0%nat.
    cbn [Design.sumTo]. change (Z.of_nat 0) with 0. ring.
  - replace (Z.to_nat w) with (S (Z.to_nat (w - 1))) by lia.
    change (Design.sumTo (S (S (Z.to_nat (w - 1)))) (Design.columnSum q width))
      with (Design.sumTo (S (Z.to_nat (w - 1))) (Design.columnSum q width)
            + Design.columnSum q width (Z.of_nat (S (Z.to_nat (w - 1))))).
    do 2 f_equal. lia.
Qed.

(** The recurrence the code computes with. *)
Lemma entry_recurrence (w : Z) :
  0 <= w ->
  entryZ (w - width) + entryZ (w - 1) + q w - entryZ (w - width - 1)
  = Design.entry q width w.
Proof.
  intros Hw. rewrite (entry_next w Hw).
  destruct (Z.lt_ge_cases w width) as [Hlt|Hge].
  - rewrite columnSum_first_row by lia. unfold Design.entryZ at 1 3.
    destruct (Z.ltb_spec (w - width) 0); [|lia].
    destruct (Z.ltb_spec (w - width - 1) 0); [|lia]. ring.
  - rewrite (columnSum_next_row w Hge). unfold Design.entryZ at 1.
    destruct (Z.ltb_spec (w - width) 0); [lia|].
    rewrite (entry_next (w - width)) by lia.
    replace (w - width - 1) with (w - width - 1) by ring. ring.
Qed.

Lemma entry_columns (bw : nat) (a : Z) :
  0 <= a ->
  Design.entry q width (a + Z.of_nat bw) - Design.entry q width a
  = Design.sumTo bw (fun c => Design.columnSum q width (a + 1 + c)).
Proof.
  intros Ha. induction bw as [|bw IH].
  - cbn [Design.sumTo]. replace (a + Z.of_nat 0) with a by lia. ring.
  - cbn [Design.sumTo]. rewrite <- IH.
    rewrite (entry_next (a + Z.of_nat (S bw))) by lia.
    unfold Design.entryZ. destruct (Z.ltb_spec (a + Z.of_nat (S bw) - 1) 0); [lia|].
    replace (a + Z.of_nat (S bw) - 1) with (a + Z.of_nat bw) by lia.
    replace (a + 1 + Z.of_nat bw) with (a + Z.of_nat (S bw)) by lia.
    ring.
Qed.

(** The four corners of a block. *)
Lemma entry_corners (i j bw bh : Z) :
  0 <= i -> 0 <= j -> 0 <= bw -> 0 <= bh ->
  let wbA := i * width + j in
  let wbD := wbA + bh * width in
  Design.entry q width wbA - Design.entry q width (wbA + bw)
  - Design.entry q width wbD + Design.entry q width (wbD + bw)
  = Design.blockSum (fun i' j' => q (i' * width + j')) i j bw bh.
Proof.
  intros Hi Hj Hbw Hbh wbA wbD.
  assert (HA : 0 <= wbA) by (unfold wbA; nia).
  assert (HD : 0 <= wbD) by (unfold wbD; nia).
  pose proof (entry_columns (Z.to_nat bw) wbA HA) as H1.
  pose proof (entry_columns (Z.to_nat bw) wbD HD) as H2.
  rewrite Z2Nat.id in H1, H2 by exact Hbw.
  transitivity
    (Design.sumTo (Z.to_nat bw)
       (fun c => Design.columnSum q width (wbD + 1 + c)
                 - Design.columnSum q width (wbA + 1 + c))).
  { rewrite sumTo_sub, <- H1, <- H2. ring. }
  unfold Design.blockSum. rewrite sumTo_swap.
  apply sumTo_ext. intros c Hc.
  pose proof (columnSum_rows (Z.to_nat bh) (wbA + 1 + c)) as H3.
  rewrite Z2Nat.id in H3 by exact Hbh.
  replace (wbD + 1 + c) with (wbA + 1 + c + bh * width) by (unfold wbD; ring).
  rewrite H3 by lia.
  apply sumTo_ext. intros r _. f_equal. unfold wbA. ring.
Qed.

(** The entries by row and column: the summed-area table, and below the
    first row the last entries of the rows above as well. *)
Lemma columnSum_rows_above (i : nat) (j : Z) :
  0 <= j < width ->
  Design.columnSum q width (Z.of_nat i * width + j)
  = Design.sumTo (S i) (fun i' => q (i' * width + j)).
Proof.
  intros Hj. pose proof (columnSum_rows i j ltac:(lia)) as H.
  rewrite (columnSum_first_row j Hj) in H.
  rewrite sumTo_shift.
  replace (Z.of_nat i * width + j) with (j + Z.of_nat i * width) by ring.
  replace (q (0 * width + j)) with (q j) by (f_equal; ring).
  rewrite (sumTo_ext i (fun k => q ((k + 1) * width + j))
             (fun r => q (j + (r + 1) * width)))
    by (intros k _; f_equal; ring).
  lia.
Qed.

Lemma entry_row (i : nat) (j : nat) :
  Z.of_nat j < width ->
  Design.entry q width (Z.of_nat i * width + Z.of_nat j)
  = entryZ (Z.of_nat i * width - 1)
    + Design.summedArea q width (Z.of_nat i) (Z.of_nat j).
Proof.
  intros Hj.
  assert (Hrow : 0 <= Z.of_nat i * width) by nia.
  pose proof (entry_columns j (Z.of_nat i * width) Hrow) as H.
  rewrite (entry_next (Z.of_nat i * width) Hrow) in H.
  unfold Design.summedArea. rewrite !Nat2Z.id.
  rewrite (sumTo_swap (S i) (S j)).
  rewrite (sumTo_shift j).
  rewrite <- (columnSum_rows_above i 0) by lia.
  replace (Z.of_nat i * width + 0) with (Z.of_nat i * width) by ring.
  rewrite (sumTo_ext j
             (fun k => Design.sumTo (S i) (fun a => q (a * width + (k + 1))))
             (fun c => Design.columnSum q width (Z.of_nat i * width + 1 + c))).
  - lia.
  - intros k Hk. rewrite <- columnSum_rows_above by lia. f_equal. ring.
Qed.

Lemma entry_by_rows (i : nat) : forall j : nat,
  Z.of_nat j < width ->
  Design.entry q width (Z.of_nat i * width + Z.of_nat j)
  = Design.summedArea q width (Z.of_nat i) (Z.of_nat j)
    + Design.rowOffset q width (Z.of_nat i).
Proof.
  induction i as [|i IH]; intros j Hj; rewrite (entry_row _ j Hj).
  - unfold Design.entryZ, Design.rowOffset.
    destruct (Z.ltb_spec (Z.of_nat 0 * width - 1) 0) as [_|Hge]; [|lia].
    change (Z.to_nat (Z.of_nat 0)) with 0%nat. cbn [Design.sumTo]. ring.
  - unfold Design.entryZ.
    destruct (Z.ltb_spec (Z.of_nat (S i) * width - 1) 0) as [Hneg|_]; [nia|].
    replace (Z.of_nat (S i) * width - 1)
      with (Z.of_nat i * width + Z.of_nat (Z.to_nat (width - 1))) by lia.
    rewrite IH by lia. unfold Design.rowOffset. rewrite !Nat2Z.id.
    cbn [Design.sumTo]. rewrite Z2Nat.id by lia. ring.
Qed.

(** ** The loop *)

Lemma filled_read (size n : nat) (SAT : list Z) (w : Z) :
  filled size n SAT -> w < Z.of_nat n ->
  exists k, Image.orZero (readInt32 SAT w) = entryZ w + k * 2 ^ 32.
Proof.
  intros [_ H] Hw. unfold readInt32, Design.entryZ.
  destruct (Z.ltb_spec w 0) as [Hneg|Hpos].
  - exists 0. reflexivity.
  - rewrite (H (Z.to_nat w)) by lia. rewrite Z2Nat.id by exact Hpos.
    apply int32_wraps.
Qed.

Lemma computePixelValueSAT_fills (size n : nat) (SAT : list Z) (i j : Z) :
  i * width + j = Z.of_nat n -> (n < size)%nat ->
  filled size n SAT ->
  filled size (S n) (Image.computePixelValueSAT_ SAT width i j (q (Z.of_nat n))).
Proof.
  intros Hw Hn Hfilled. unfold Image.computePixelValueSAT_. rewrite Hw.
  destruct (filled_read size n SAT (Z.of_nat n - width) Hfilled) as [k1 H1];
    [lia|].
  destruct (filled_read size n SAT (Z.of_nat n - 1) Hfilled) as [k2 H2];
    [lia|].
  destruct (filled_read size n SAT (Z.of_nat n - width - 1) Hfilled)
    as [k3 H3]; [lia|].
  rewrite H1, H2, H3.
  replace (entryZ (Z.of_nat n - width) + k1 * 2 ^ 32
           + (entryZ (Z.of_nat n - 1) + k2 * 2 ^ 32) + q (Z.of_nat n)
           - (entryZ (Z.of_nat n - width - 1) + k3 * 2 ^ 32))
    with (Design.entry q width (Z.of_nat n) + (k1 + k2 - k3) * 2 ^ 32)
    by (rewrite <- (entry_recurrence (Z.of_nat n)) by lia; ring).
  destruct Hfilled as [Hsize Hread].
  unfold Image.store. destruct (Z.ltb_spec (Z.of_nat n) 0); [lia|].
  rewrite Nat2Z.id, int32_shift. split.
  - rewrite length_insert. exact Hsize.
  - intros m Hm. destruct (Nat.eq_dec m n) as [->|Hne].
    + apply list_lookup_insert_eq. lia.
    + rewrite list_lookup_insert_ne by congruence. apply Hread. lia.
Qed.

(** What the evaluator reads at the corners of a block inside a filled
    table. *)
Lemma cornerSum_filled (size : nat) (SAT : list Z) (i j bw bh : Z) :
  filled size size SAT ->
  0 <= i -> 0 <= j -> 0 <= bw -> 0 <= bh ->
  (i + bh) * width + j + bw < Z.of_nat size ->
  exists s,
    cornerSum SAT (wbA i j width) (wbB i j width bw) (wbD i j width bh)
              (wbC i j width bw bh) = Num.ofZ s /\
    Int.toInt32 s
    = Int.toInt32 (Design.blockSum (fun i' j' => q (i' * width + j')) i j bw bh)
    /\
    ((forall w, 0 <= w < Z.of_nat size ->
        - 2 ^ 31 <= Design.entry q width w < 2 ^ 31) ->
     s = Design.blockSum (fun i' j' => q (i' * width + j')) i j bw bh).
Proof.
  intros [_ Hread] Hi Hj Hbw Hbh Hin.
  unfold wbC, wbD, wbB, wbA.
  set (a := i * width + j).
  assert (Ha : 0 <= a) by (unfold a; nia).
  assert (Hd : 0 <= bh * width) by nia.
  assert (Hc : a + bh * width + bw < Z.of_nat size) by (unfold a; nia).
  assert (Hrd : forall w, 0 <= w < Z.of_nat size ->
            readInt32 SAT w = Some (Int.toInt32 (Design.entry q width w))).
  { intros w Hw. unfold readInt32.
    destruct (Z.ltb_spec w 0); [lia|].
    rewrite (Hread (Z.to_nat w)) by lia. rewrite Z2Nat.id by lia.
    reflexivity. }
  unfold cornerSum.
  rewrite (Hrd a), (Hrd (a + bw)), (Hrd (a + bh * width)),
    (Hrd (a + bh * width + bw)) by lia.
  eexists. split; [reflexivity|].
  pose proof (entry_corners i j bw bh Hi Hj Hbw Hbh) as Hsum.
  cbv zeta in Hsum. fold a in Hsum. rewrite <- Hsum. split.
  - destruct (int32_wraps (Design.entry q width a)) as [k1 ->].
    destruct (int32_wraps (Design.entry q width (a + bw))) as [k2 ->].
    destruct (int32_wraps (Design.entry q width (a + bh * width))) as [k3 ->].
    destruct (int32_wraps (Design.entry q width (a + bh * width + bw)))
      as [k4 ->].
    rewrite <- (int32_shift
                  (Design.entry q width a - Design.entry q width (a + bw)
                   - Design.entry q width (a + bh * width)
                   + Design.entry q width (a + bh * width + bw))
                  (k1 - k2 - k3 + k4)).
    f_equal. ring.
  - intros Hfit. rewrite !int32_small by (apply Hfit; lia). reflexivity.
Qed.

End Table.

(** ** [computeIntegralImage] *)

Section Tables.

Variable pixels : list Z.
Variable width : Z.
Hypothesis width_pos : 0 < width.
Variable size : nat.

(** Both the table of sums and the table of squares are filled up to
    index [n]. *)
Local Abbreviation both n tables :=
  (Design.filled (Design.grey pixels) width size n (fst (fst tables)) /\
   Design.filled (Design.greySquare pixels) width size n (snd (fst tables))).

Lemma pixelStep_fills (n : nat) (i j : Z) (tables : list Z * list Z * list Z) :
  i * width + j = Z.of_nat n -> (n < size)%nat ->
  both n tables -> both (S n) (Image.pixelStep pixels width i j tables).
Proof.
  intros Hw Hn [H1 H2]. destruct tables as [[ii sq] tl].
  cbn [fst snd] in *. unfold Image.pixelStep. cbn [fst snd].
  replace (i * width * 4 + j * 4) with (Z.of_nat n * 4) by lia.
  split.
  - apply (computePixelValueSAT_fills (Design.grey pixels) width width_pos
             size n ii i j Hw Hn H1).
  - apply (computePixelValueSAT_fills (Design.greySquare pixels) width
             width_pos size n sq i j Hw Hn H2).
Qed.

Lemma row_fills (i : nat) (k : nat) : forall (j0 n : nat) tables,
  Z.of_nat i * width + Z.of_nat j0 = Z.of_nat n -> (n + k <= size)%nat ->
  both n tables ->
  both (n + k)%nat
       (fold_left
          (fun tables j =>
             Image.pixelStep pixels width (Z.of_nat i) (Z.of_nat j) tables)
          (seq j0 k) tables).
Proof.
  induction k as [|k IH]; intros j0 n tables Hw Hn H.
  - rewrite Nat.add_0_r. exact H.
  - cbn [seq fold_left].
    replace (n + S k)%nat with (S n + k)%nat by lia.
    apply IH; [lia | lia |].
    apply pixelStep_fills; [exact Hw | lia | exact H].
Qed.

Lemma rows_fill (k : nat) : forall (i0 : nat) tables,
  ((i0 + k) * Z.to_nat width <= size)%nat ->
  both (i0 * Z.to_nat width)%nat tables ->
  both ((i0 + k) * Z.to_nat width)%nat
       (fold_left
          (fun tables i =>
             fold_left
               (fun tables j =>
                  Image.pixelStep pixels width (Z.of_nat i) (Z.of_nat j) tables)
               (seq 0 (Z.to_nat width)) tables)
          (seq i0 k) tables).
Proof.
  induction k as [|k IH]; intros i0 tables Hn H.
  - rewrite Nat.add_0_r. exact H.
  - cbn [seq fold_left].
    replace (i0 + S k)%nat with (S i0 + k)%nat in * by lia.
    apply IH; [exact Hn|].
    replace (S i0 * Z.to_nat width)%nat
      with (i0 * Z.to_nat width + Z.to_nat width)%nat by lia.
    apply row_fills; [lia | nia | exact H].
Qed.

End Tables.

(** Both tables are filled when [computeIntegralImage] returns. *)
Lemma computeIntegralImage_fills
  (pixels : list Z) (width height : Z) (tables : list Z * list Z * list Z) :
  0 < width -> 0 <= height ->
  (Z.to_nat (width * height) <= length (fst (fst tables)))%nat ->
  (Z.to_nat (width * height) <= length (snd (fst tables)))%nat ->
  Design.filled (Design.grey pixels) width
    (Z.to_nat (width * height)) (Z.to_nat (width * height))
    (fst (fst (Image.computeIntegralImage pixels width height tables))) /\
  Design.filled (Design.greySquare pixels) width
    (Z.to_nat (width * height)) (Z.to_nat (width * height))
    (snd (fst (Image.computeIntegralImage pixels width height tables))).
Proof.
  intros Hwidth Hheight Hlen1 Hlen2.
  assert (Hsize : Z.to_nat (width * height)
                  = (Z.to_nat height * Z.to_nat width)%nat) by nia.
  pose proof (rows_fill pixels width Hwidth (Z.to_nat (width * height))
                (Z.to_nat height) 0 tables) as Hfill.
  cbn [Nat.add] in Hfill.
  destruct Hfill as [H1 H2]; [lia | |].
  { split; (split; [assumption | intros m Hm; lia]). }
  fold (Image.computeIntegralImage pixels width height tables) in H1, H2.
  rewrite <- Hsize in H1, H2. split; assumption.
Qed.

(** X15.  The tables [computeIntegralImage] fills and the four reads of
    the evaluator compose: for a block inside the image
    ([j + blockWidth < width], [i + blockHeight < height], as in
    [detect]'s loops), [mean] is [inverseArea] times a sum [s] and
    [variance] is [inverseArea] times a sum [s2], minus [mean * mean],
    where [s] is the sum of the grey levels, and [s2] of their squares,
    over the rows [i + 1 .. i + blockHeight] and the columns
    [j + 1 .. j + blockWidth]: always modulo 2^32, the [Int32Array]
    keeping the low 32 bits of each entry, and exactly when no entry of
    the tables leaves the range of 32-bit integers.  What the arrays held
    before does not matter. *)
Theorem integral_images_give_block_sums
  (pixels : list Z) (width height : Z) (tables : list Z * list Z * list Z)
  (i j blockWidth blockHeight : Z) :
  0 < width -> 0 <= i -> 0 <= j -> 0 <= blockWidth -> 0 <= blockHeight ->
  j + blockWidth < width -> i + blockHeight < height ->
  (Z.to_nat (width * height) <= length (fst (fst tables)))%nat ->
  (Z.to_nat (width * height) <= length (snd (fst tables)))%nat ->
  let filled := Image.computeIntegralImage pixels width height tables in
  let integralImage := fst (fst filled) in
  let integralImageSquare := snd (fst filled) in
  let sum :=
    Design.blockSum (Design.greyAt pixels width) i j blockWidth blockHeight in
  let squares :=
    Design.blockSum (Design.greySquareAt pixels width) i j
                    blockWidth blockHeight in
  exists s s2,
    mean integralImage i j width blockWidth blockHeight
    = Num.mul (Num.ofZ s) (inverseArea blockWidth blockHeight) /\
    variance integralImage integralImageSquare i j width blockWidth blockHeight
    = Num.sub (Num.mul (Num.ofZ s2) (inverseArea blockWidth blockHeight))
              (Num.mul (mean integralImage i j width blockWidth blockHeight)
                       (mean integralImage i j width blockWidth blockHeight))
    /\
    Int.toInt32 s = Int.toInt32 sum /\
    Int.toInt32 s2 = Int.toInt32 squares /\
    (Design.fits32 (Design.grey pixels) width height -> s = sum) /\
    (Design.fits32 (Design.greySquare pixels) width height -> s2 = squares).
Proof.
  intros Hwidth Hi Hj Hbw Hbh Hcol Hrow Hlen1 Hlen2
    filled integralImage integralImageSquare sum squares.
  assert (Hheight : 0 < height) by lia.
  assert (Hsize : Z.to_nat (width * height)
                  = (Z.to_nat height * Z.to_nat width)%nat) by nia.
  pose proof (rows_fill pixels width Hwidth (Z.to_nat (width * height))
                (Z.to_nat height) 0 tables) as Hfill.
  cbn [Nat.add] in Hfill.
  destruct Hfill as [H1 H2]; [lia | |].
  { split; (split; [assumption | intros m Hm; lia]). }
  fold (Image.computeIntegralImage pixels width height tables) in H1, H2.
  rewrite <- Hsize in H1, H2.
  fold filled in H1, H2. fold integralImage in H1.
  fold integralImageSquare in H2.
  assert (Hin : (i + blockHeight) * width + j + blockWidth
                < Z.of_nat (Z.to_nat (width * height))) by nia.
  destruct (cornerSum_filled (Design.grey pixels) width Hwidth _ _
              i j blockWidth blockHeight H1 Hi Hj Hbw Hbh Hin)
    as (s & Hs & Hmod & Hexact).
  destruct (cornerSum_filled (Design.greySquare pixels) width Hwidth _ _
              i j blockWidth blockHeight H2 Hi Hj Hbw Hbh Hin)
    as (s2 & Hs2 & Hmod2 & Hexact2).
  exists s, s2. unfold variance, mean. rewrite Hs, Hs2.
  split; [reflexivity|]. split; [reflexivity|].
  split; [exact Hmod|]. split; [exact Hmod2|]. split.
  - intros Hfit. apply Hexact. intros w Hw. apply Hfit. lia.
  - intros Hfit. apply Hexact2. intros w Hw. apply Hfit. lia.
Qed.

Lemma integral_images_give_block_sums_witness :
  let filled := Image.computeIntegralImage Samples.image 3 3 Samples.blank in
  let integralImage := fst (fst filled) in
  let integralImageSquare := snd (fst filled) in
  let sum := Design.blockSum (Design.greyAt Samples.image 3) 0 0 1 1 in
  let squares := Design.blockSum (Design.greySquareAt Samples.image 3) 0 0 1 1 in
  exists s s2,
    mean integralImage 0 0 3 1 1 = Num.mul (Num.ofZ s) (inverseArea 1 1) /\
    variance integralImage integralImageSquare 0 0 3 1 1
    = Num.sub (Num.mul (Num.ofZ s2) (inverseArea 1 1))
              (Num.mul (mean integralImage 0 0 3 1 1)
                       (mean integralImage 0 0 3 1 1)) /\
    Int.toInt32 s = Int.toInt32 sum /\
    Int.toInt32 s2 = Int.toInt32 squares /\
    (Design.fits32 (Design.grey Samples.image) 3 3 -> s = sum) /\
    (Design.fits32 (Design.greySquare Samples.image) 3 3 -> s2 = squares).
Proof.
  apply (integral_images_give_block_sums Samples.image 3 3 Samples.blank
           0 0 1 1); try lia; vm_compute; lia.
Defined.

(** X19.  The entries of the two tables [computeIntegralImage] fills,
    whatever the arrays held before: at row [i] and column [j], the low 32
    bits of the summed-area table of the grey levels (of their squares)
    plus the sum of the last entries of that table in the rows above
    row [i].  [computePixelValueSAT_] reads [SAT[w - 1]] in column 0 too,
    where it is the last element of the row above; so only row 0 holds
    the summed-area table itself. *)
Theorem integral_image_entries
  (pixels : list Z) (width height : Z) (tables : list Z * list Z * list Z)
  (i j : Z) :
  0 < width -> 0 <= i < height -> 0 <= j < width ->
  (Z.to_nat (width * height) <= length (fst (fst tables)))%nat ->
  (Z.to_nat (width * height) <= length (snd (fst tables)))%nat ->
  let filled := Image.computeIntegralImage pixels width height tables in
  readInt32 (fst (fst filled)) (i * width + j)
  = Some (Int.toInt32
            (Design.summedArea (Design.grey pixels) width i j
             + Design.rowOffset (Design.grey pixels) width i)) /\
  readInt32 (snd (fst filled)) (i * width + j)
  = Some (Int.toInt32
            (Design.summedArea (Design.greySquare pixels) width i j
             + Design.rowOffset (Design.greySquare pixels) width i)).
Proof.
  intros Hwidth Hi Hj Hlen1 Hlen2 filled.
  destruct (computeIntegralImage_fills pixels width height tables
              Hwidth ltac:(lia) Hlen1 Hlen2) as [[_ H1] [_ H2]].
  fold filled in H1, H2.
  assert (Hw : 0 <= i * width + j < width * height) by nia.
  unfold readInt32. destruct (Z.ltb_spec (i * width + j) 0); [lia|].
  rewrite H1, H2 by lia. rewrite Z2Nat.id by lia.
  pose proof (entry_by_rows (Design.grey pixels) width Hwidth
                (Z.to_nat i) (Z.to_nat j)) as E1.
  pose proof (entry_by_rows (Design.greySquare pixels) width Hwidth
                (Z.to_nat i) (Z.to_nat j)) as E2.
  rewrite !Z2Nat.id in E1, E2 by lia.
  rewrite E1, E2 by lia. split; reflexivity.
Qed.

Lemma integral_image_entries_witness :
  let filled := Image.computeIntegralImage Samples.image 3 3 Samples.blank in
  readInt32 (fst (fst filled)) (1 * 3 + 0)
  = Some (Int.toInt32
            (Design.summedArea (Design.grey Samples.image) 3 1 0
             + Design.rowOffset (Design.grey Samples.image) 3 1)) /\
  readInt32 (snd (fst filled)) (1 * 3 + 0)
  = Some (Int.toInt32
            (Design.summedArea (Design.greySquare Samples.image) 3 1 0
             + Design.rowOffset (Design.greySquare Samples.image) 3 1)).
Proof.
  apply (integral_image_entries Samples.image 3 3 Samples.blank 1 0);
    try lia; vm_compute; lia.
Defined.

End ImageFacts.

(* ================================================================== *)
(** * Facts about the Hamming weights *)
(* ================================================================== *)

Module HammingFacts.

Local Open Scope Z_scope.

(** ** Bits *)

Lemma land_split (n X Y : Z) :
  0 <= n ->
  Z.land X Y
  = Z.land (X mod 2 ^ n) (Y mod 2 ^ n) + 2 ^ n * Z.land (X / 2 ^ n) (Y / 2 ^ n).
Proof.
  intros Hn.
  rewrite (Z.div_mod (Z.land X Y) (2 ^ n)) at 1 by (apply Z.pow_nonzero; lia).
  rewrite <- !Z.shiftr_div_pow2, Z.shiftr_land by lia.
  rewrite <- !Z.land_ones by lia.
  replace (Z.land (Z.land X Y) (Z.ones n))
    with (Z.land (Z.land X (Z.ones n)) (Z.land Y (Z.ones n))); [ring|].
  apply Z.bits_inj'. intros k _. rewrite !Z.land_spec.
  destruct (Z.testbit X k), (Z.testbit Y k), (Z.testbit (Z.ones n) k);
    reflexivity.
Qed.

Lemma land_low (n X Y M : Z) :
  0 <= n -> X mod 2 ^ n = Y mod 2 ^ n -> 0 <= M < 2 ^ n ->
  Z.land X M = Z.land Y M.
Proof.
  intros Hn HXY HM.
  rewrite (land_split n X M Hn), (land_split n Y M Hn), HXY.
  rewrite (Z.div_small M) by exact HM. rewrite !Z.land_0_r. reflexivity.
Qed.

Lemma land_below (n X M : Z) :
  0 <= n -> 0 <= M < 2 ^ n -> 0 <= Z.land X M < 2 ^ n.
Proof.
  intros Hn HM.
  rewrite (land_low n X (X mod 2 ^ n) M Hn) by
    (rewrite ?Z.mod_mod by (apply Z.pow_nonzero; lia); auto).
  assert (0 <= X mod 2 ^ n < 2 ^ n) by (apply Z.mod_pos_bound; lia).
  split; [apply Z.land_nonneg; lia|].
  assert (Hle : Z.land (X mod 2 ^ n) M mod 2 ^ n = Z.land (X mod 2 ^ n) M).
  { rewrite <- Z.land_ones, <- Z.land_assoc, Z.land_ones by lia.
    rewrite (Z.mod_small M) by exact HM. reflexivity. }
  rewrite <- Hle. apply Z.mod_pos_bound. lia.
Qed.

Lemma land_le (X Y : Z) : 0 <= X -> 0 <= X - Z.land X Y.
Proof.
  intros HX. rewrite Z.sub_nocarry_ldiff.
  - apply Z.ldiff_nonneg. left. exact HX.
  - apply Z.bits_inj'. intros k _.
    rewrite Z.ldiff_spec, Z.land_spec, Z.bits_0.
    destruct (Z.testbit X k), (Z.testbit Y k); reflexivity.
Qed.

Lemma toInt32_mod (z : Z) : Int.toInt32 z mod 2 ^ 32 = z mod 2 ^ 32.
Proof.
  unfold Int.toInt32. change (2 ^ 32) with 4294967296.
  change (2 ^ 31) with 2147483648. Z.div_mod_to_equations. lia.
Qed.

Lemma toInt32_id (z : Z) : - 2 ^ 31 <= z < 2 ^ 31 -> Int.toInt32 z = z.
Proof.
  intros Hz. unfold Int.toInt32. rewrite Z.mod_small by lia. ring.
Qed.

(** ** One byte at a time *)

(** A mask applied to a pattern, and to a pattern shifted right when
    the mask is clear where the bits of the next byte arrive, works on
    each byte by itself. *)
Lemma mask_bytes (a b m M : Z) :
  0 <= a < 256 -> 0 <= m < 256 ->
  Z.land (a + 256 * b) (m + 256 * M) = Z.land a m + 256 * Z.land b M.
Proof.
  intros Ha Hm. rewrite (land_split 8) by lia. change (2 ^ 8) with 256.
  replace ((a + 256 * b) mod 256) with a by (Z.div_mod_to_equations; lia).
  replace ((a + 256 * b) / 256) with b by (Z.div_mod_to_equations; lia).
  replace ((m + 256 * M) mod 256) with m by (Z.div_mod_to_equations; lia).
  replace ((m + 256 * M) / 256) with M by (Z.div_mod_to_equations; lia).
  reflexivity.
Qed.

Lemma mask_shifted (n a c m : Z) :
  0 <= n -> 0 <= a < 2 ^ n -> 0 <= m < 2 ^ n ->
  Z.land (a + 2 ^ n * c) m = Z.land a m.
Proof.
  intros Hn Ha Hm. apply (land_low n); [exact Hn | | exact Hm].
  rewrite Z.mul_comm, Z_mod_plus_full. reflexivity.
Qed.

Lemma mask_bytes_shifted1 (a b m M : Z) :
  0 <= a < 256 -> 0 <= m < 128 ->
  Z.land (Z.shiftr (a + 256 * b) 1) (m + 256 * M)
  = Z.land (Z.shiftr a 1) m + 256 * Z.land (Z.shiftr b 1) M.
Proof.
  intros Ha Hm. rewrite !Z.shiftr_div_pow2 by lia. change (2 ^ 1) with 2.
  replace ((a + 256 * b) / 2) with (a / 2 + 128 * (b mod 2) + 256 * (b / 2))
    by (Z.div_mod_to_equations; lia).
  rewrite mask_bytes by (Z.div_mod_to_equations; lia).
  f_equal. apply (mask_shifted 7); [lia | | lia].
  change (2 ^ 7) with 128. Z.div_mod_to_equations. lia.
Qed.

Lemma mask_bytes_shifted2 (a b m M : Z) :
  0 <= a < 256 -> 0 <= m < 64 ->
  Z.land (Z.shiftr (a + 256 * b) 2) (m + 256 * M)
  = Z.land (Z.shiftr a 2) m + 256 * Z.land (Z.shiftr b 2) M.
Proof.
  intros Ha Hm. rewrite !Z.shiftr_div_pow2 by lia. change (2 ^ 2) with 4.
  replace ((a + 256 * b) / 4) with (a / 4 + 64 * (b mod 4) + 256 * (b / 4))
    by (Z.div_mod_to_equations; lia).
  rewrite mask_bytes by (Z.div_mod_to_equations; lia).
  f_equal. apply (mask_shifted 6); [lia | | lia].
  change (2 ^ 6) with 64. Z.div_mod_to_equations. lia.
Qed.

(** The first two lines, a byte at a time. *)
Lemma nibbleCounts_bytes (a b M1 M2 : Z) :
  0 <= a < 256 -> 0 <= b ->
  0 <= a - Z.land (Z.shiftr a 1) 0x55 < 256 ->
  Design.nibbleCounts (0x55 + 256 * M1) (0x33 + 256 * M2) (a + 256 * b)
  = Design.nibbleCounts 0x55 0x33 a + 256 * Design.nibbleCounts M1 M2 b.
Proof.
  intros Ha Hb Hf. unfold Design.nibbleCounts. cbv zeta.
  rewrite mask_bytes_shifted1 by lia.
  replace (a + 256 * b
           - (Z.land (Z.shiftr a 1) 0x55 + 256 * Z.land (Z.shiftr b 1) M1))
    with (a - Z.land (Z.shiftr a 1) 0x55
          + 256 * (b - Z.land (Z.shiftr b 1) M1)) by ring.
  rewrite mask_bytes, mask_bytes_shifted2 by lia. ring.
Qed.

(** A property checked on each of the 256 bytes holds of every byte. *)
Lemma byte_cases (P : Z -> bool) :
  forallb P (map Z.of_nat (seq 0 256)) = true ->
  forall a, 0 <= a < 256 -> P a = true.
Proof.
  intros H a Ha. rewrite forallb_forall in H. apply H.
  apply in_map_iff. exists (Z.to_nat a). split; [lia|].
  apply in_seq. lia.
Qed.

(** What the first lines make of one byte. *)
Lemma byte_counts (a : Z) :
  0 <= a < 256 ->
  0 <= a - Z.land (Z.shiftr a 1) 0x55 < 256 /\
  0 <= Design.nibbleCounts 0x55 0x33 a <= 68 /\
  Design.nibbleCounts 0x55 0x33 a mod 16 <= 4 /\
  (Design.nibbleCounts 0x55 0x33 a + Design.nibbleCounts 0x55 0x33 a / 16)
    mod 16 = Design.onesBelow 8 a /\
  0 <= Design.onesBelow 8 a <= 8.
Proof.
  intros Ha.
  pose proof (byte_cases
    (fun a =>
       (0 <=? a - Z.land (Z.shiftr a 1) 0x55)
       && (a - Z.land (Z.shiftr a 1) 0x55 <? 256)
       && (0 <=? Design.nibbleCounts 0x55 0x33 a)
       && (Design.nibbleCounts 0x55 0x33 a <=? 68)
       && (Design.nibbleCounts 0x55 0x33 a mod 16 <=? 4)
       && ((Design.nibbleCounts 0x55 0x33 a
            + Design.nibbleCounts 0x55 0x33 a / 16) mod 16
           =? Design.onesBelow 8 a)
       && (0 <=? Design.onesBelow 8 a)
       && (Design.onesBelow 8 a <=? 8))%bool) as H.
  specialize (H ltac:(vm_compute; reflexivity) a Ha). cbv beta in H.
  repeat (apply andb_true_iff in H; destruct H as [H ?]).
  repeat match goal with
         | H : (_ <=? _) = true |- _ => apply Z.leb_le in H
         | H : (_ <? _) = true |- _ => apply Z.ltb_lt in H
         | H : (_ =? _) = true |- _ => apply Z.eqb_eq in H
         end.
  repeat split; assumption.
Qed.

(** The first three lines, on the four bytes of a pattern: each byte
    holds the number of its 1 bits. *)
Lemma byteCounts_bytes (a0 a1 a2 a3 : Z) :
  0 <= a0 < 256 -> 0 <= a1 < 256 -> 0 <= a2 < 256 -> 0 <= a3 < 256 ->
  Design.byteCounts 0x55555555 0x33333333 0xF0F0F0F
    (a0 + 256 * (a1 + 256 * (a2 + 256 * (a3 + 256 * 0))))
  = Design.onesBelow 8 a0
    + 256 * (Design.onesBelow 8 a1
             + 256 * (Design.onesBelow 8 a2 + 256 * Design.onesBelow 8 a3)).
Proof.
  intros H0 H1 H2 H3.
  destruct (byte_counts a0 H0) as (F0 & B0 & N0 & <- & _).
  destruct (byte_counts a1 H1) as (F1 & B1 & N1 & <- & _).
  destruct (byte_counts a2 H2) as (F2 & B2 & N2 & <- & _).
  destruct (byte_counts a3 H3) as (F3 & B3 & N3 & <- & _).
  unfold Design.byteCounts. cbv zeta.
  change 0x55555555
    with (0x55 + 256 * (0x55 + 256 * (0x55 + 256 * (0x55 + 256 * 0)))).
  change 0x33333333
    with (0x33 + 256 * (0x33 + 256 * (0x33 + 256 * (0x33 + 256 * 0)))).
  rewrite !nibbleCounts_bytes by lia.
  change (Design.nibbleCounts 0 0 0) with 0.
  set (A0 := Design.nibbleCounts 0x55 0x33 a0) in *.
  set (A1 := Design.nibbleCounts 0x55 0x33 a1) in *.
  set (A2 := Design.nibbleCounts 0x55 0x33 a2) in *.
  set (A3 := Design.nibbleCounts 0x55 0x33 a3) in *.
  rewrite Z.shiftr_div_pow2 by lia. change (2 ^ 4) with 16.
  replace (A0 + 256 * (A1 + 256 * (A2 + 256 * (A3 + 256 * 0)))
           + (A0 + 256 * (A1 + 256 * (A2 + 256 * (A3 + 256 * 0)))) / 16)
    with ((A0 + A0 / 16 + 16 * (A1 mod 16))
          + 256 * ((A1 + A1 / 16 + 16 * (A2 mod 16))
                   + 256 * ((A2 + A2 / 16 + 16 * (A3 mod 16))
                            + 256 * (A3 + A3 / 16))))
    by (Z.div_mod_to_equations; lia).
  change 0xF0F0F0F with (0xF + 256 * (0xF + 256 * (0xF + 256 * 0xF))).
  rewrite !mask_bytes by (Z.div_mod_to_equations; lia).
  change 0xF with (Z.ones 4). rewrite !Z.land_ones by lia.
  change (2 ^ 4) with 16.
  replace ((A0 + A0 / 16 + 16 * (A1 mod 16)) mod 16)
    with ((A0 + A0 / 16) mod 16) by (Z.div_mod_to_equations; lia).
  replace ((A1 + A1 / 16 + 16 * (A2 mod 16)) mod 16)
    with ((A1 + A1 / 16) mod 16) by (Z.div_mod_to_equations; lia).
  replace ((A2 + A2 / 16 + 16 * (A3 mod 16)) mod 16)
    with ((A2 + A2 / 16) mod 16) by (Z.div_mod_to_equations; lia).
  reflexivity.
Qed.

(** The last line: the multiplication adds the four bytes up in the
    top byte. *)
Lemma top_byte (p0 p1 p2 p3 : Z) :
  0 <= p0 <= 8 -> 0 <= p1 <= 8 -> 0 <= p2 <= 8 -> 0 <= p3 <= 8 ->
  Z.shiftr
    (Int.toInt32 ((p0 + 256 * (p1 + 256 * (p2 + 256 * p3))) * 0x1010101)) 24
  = p0 + p1 + p2 + p3.
Proof.
  intros H0 H1 H2 H3. rewrite Z.shiftr_div_pow2 by lia.
  unfold Int.toInt32. change (2 ^ 24) with 16777216.
  change (2 ^ 31) with 2147483648. change (2 ^ 32) with 4294967296.
  Z.div_mod_to_equations. lia.
Qed.

(** ** The number of 1 bits *)

Lemma onesBelow_byte (n : nat) (a b : Z) :
  0 <= a < 256 ->
  Design.onesBelow (8 + n) (a + 256 * b)
  = Design.onesBelow 8 a + Design.onesBelow n b.
Proof.
  intros Ha. unfold Design.onesBelow. rewrite SumFacts.sumTo_app. f_equal.
  - apply SumFacts.sumTo_ext. intros k Hk. f_equal.
    rewrite <- (Z.mod_pow2_bits_low (a + 256 * b) 8 k) by lia.
    f_equal. change (2 ^ 8) with 256. Z.div_mod_to_equations. lia.
  - apply SumFacts.sumTo_ext. intros k Hk. f_equal.
    change (Z.of_nat 8) with 8. rewrite (Z.add_comm 8 k).
    rewrite <- Z.div_pow2_bits by lia.
    f_equal. change (2 ^ 8) with 256. Z.div_mod_to_equations. lia.
Qed.

Lemma ones_bytes (a0 a1 a2 a3 : Z) :
  0 <= a0 < 256 -> 0 <= a1 < 256 -> 0 <= a2 < 256 -> 0 <= a3 < 256 ->
  Design.ones (a0 + 256 * (a1 + 256 * (a2 + 256 * (a3 + 256 * 0))))
  = Design.onesBelow 8 a0 + Design.onesBelow 8 a1
    + Design.onesBelow 8 a2 + Design.onesBelow 8 a3.
Proof.
  intros H0 H1 H2 H3. unfold Design.ones.
  change 32%nat with (8 + (8 + (8 + (8 + 0))))%nat.
  rewrite !onesBelow_byte by assumption.
  change (Design.onesBelow 0 0) with 0. ring.
Qed.

Lemma ones_low32 (z : Z) : Design.ones (z mod 2 ^ 32) = Design.ones z.
Proof.
  unfold Design.ones, Design.onesBelow. apply SumFacts.sumTo_ext.
  intros k Hk. f_equal. apply Z.mod_pow2_bits_low. lia.
Qed.

(** The four bytes of a 32-bit pattern. *)
Lemma four_bytes (u : Z) :
  0 <= u < 2 ^ 32 ->
  exists a0 a1 a2 a3,
    0 <= a0 < 256 /\ 0 <= a1 < 256 /\ 0 <= a2 < 256 /\ 0 <= a3 < 256 /\
    u = a0 + 256 * (a1 + 256 * (a2 + 256 * (a3 + 256 * 0))).
Proof.
  change (2 ^ 32) with 4294967296. intros Hu.
  exists (u mod 256), (u / 256 mod 256), (u / 65536 mod 256), (u / 16777216).
  Z.div_mod_to_equations. lia.
Qed.

(** [hammingWeight] through the unsigned pattern of its argument. *)
Lemma hammingWeight_fields (i : Z) :
  TrackingMath.hammingWeight i
  = Z.shiftr
      (Int.toInt32
         (Design.byteCounts 0x55555555 0x33333333 0xF0F0F0F (i mod 2 ^ 32)
          * 0x1010101)) 24.
Proof.
  unfold TrackingMath.hammingWeight, Design.byteCounts, Design.nibbleCounts.
  cbv zeta. set (u := i mod 2 ^ 32).
  assert (Hu : 0 <= u < 2 ^ 32) by (apply Z.mod_pos_bound; lia).
  assert (Hm1 : Z.land (Z.shiftr (Int.toInt32 i) 1) 0x55555555
                = Z.land (Z.shiftr u 1) 0x55555555).
  { apply (land_low 31); [lia | | vm_compute; split; congruence].
    pose proof (toInt32_mod i) as Hi. fold u in Hi.
    rewrite !Z.shiftr_div_pow2 by lia. revert Hi Hu.
    change (2 ^ 1) with 2. change (2 ^ 31) with 2147483648.
    change (2 ^ 32) with 4294967296. intros Hi Hu.
    Z.div_mod_to_equations. lia. }
  rewrite Hm1. set (m1 := Z.land (Z.shiftr u 1) 0x55555555).
  assert (Hm1b : 0 <= m1 <= u).
  { unfold m1. split; [apply Z.land_nonneg; right; vm_compute; congruence|].
    pose proof (land_le (Z.shiftr u 1) 0x55555555) as Hle.
    assert (0 <= Z.shiftr u 1 <= u).
    { rewrite Z.shiftr_div_pow2 by lia. change (2 ^ 1) with 2.
      Z.div_mod_to_equations. lia. }
    lia. }
  assert (Ht1 : Int.toInt32 (i - m1) mod 2 ^ 32 = (u - m1) mod 2 ^ 32).
  { rewrite toInt32_mod. unfold u. revert Hm1b.
    change (2 ^ 32) with 4294967296. intros _.
    Z.div_mod_to_equations. lia. }
  assert (Hm2 : Z.land (Int.toInt32 (i - m1)) 0x33333333
                = Z.land (u - m1) 0x33333333).
  { apply (land_low 32); [lia | exact Ht1 | vm_compute; split; congruence]. }
  assert (Hm3 : Z.land (Z.shiftr (Int.toInt32 (i - m1)) 2) 0x33333333
                = Z.land (Z.shiftr (u - m1) 2) 0x33333333).
  { apply (land_low 30); [lia | | vm_compute; split; congruence].
    rewrite !Z.shiftr_div_pow2 by lia. revert Ht1.
    change (2 ^ 2) with 4. change (2 ^ 30) with 1073741824.
    change (2 ^ 32) with 4294967296. intros Ht1.
    Z.div_mod_to_equations. lia. }
  rewrite Hm2, Hm3.
  set (t2 := Z.land (u - m1) 0x33333333
             + Z.land (Z.shiftr (u - m1) 2) 0x33333333).
  assert (Ht2 : 0 <= t2 < 2 ^ 31).
  { pose proof (land_below 30 (u - m1) 0x33333333 ltac:(lia)
                  ltac:(vm_compute; split; congruence)).
    pose proof (land_below 30 (Z.shiftr (u - m1) 2) 0x33333333 ltac:(lia)
                  ltac:(vm_compute; split; congruence)).
    unfold t2. change (2 ^ 31) with (2 ^ 30 + 2 ^ 30). lia. }
  rewrite (toInt32_id t2) by lia.
  assert (Hs : 0 <= Z.shiftr t2 4 <= t2 / 16).
  { rewrite Z.shiftr_div_pow2 by lia. change (2 ^ 4) with 16.
    Z.div_mod_to_equations. lia. }
  assert (Ht3 : Int.toInt32 (t2 + Z.shiftr t2 4) mod 2 ^ 32
                = (t2 + Z.shiftr t2 4) mod 2 ^ 32) by apply toInt32_mod.
  rewrite (land_low 32 _ _ 0xF0F0F0F ltac:(lia) Ht3
             ltac:(vm_compute; split; congruence)).
  reflexivity.
Qed.

(** [hammingWeight] counts the 1 bits of the low 32 bits. *)
Lemma hammingWeight_ones (i : Z) :
  TrackingMath.hammingWeight i = Design.ones i /\ 0 <= Design.ones i <= 32.
Proof.
  rewrite hammingWeight_fields, <- ones_low32.
  destruct (four_bytes (i mod 2 ^ 32)) as (a0 & a1 & a2 & a3 & H0 & H1 & H2 & H3 & ->).
  { apply Z.mod_pos_bound. lia. }
  rewrite byteCounts_bytes, ones_bytes by assumption.
  destruct (byte_counts a0 H0) as (_ & _ & _ & _ & P0).
  destruct (byte_counts a1 H1) as (_ & _ & _ & _ & P1).
  destruct (byte_counts a2 H2) as (_ & _ & _ & _ & P2).
  destruct (byte_counts a3 H3) as (_ & _ & _ & _ & P3).
  rewrite top_byte by assumption. split; [reflexivity | lia].
Qed.

(** ** The loop of [Brief.hammingWeight] *)

Lemma onesBelow_zero (n : nat) : Design.onesBelow n 0 = 0.
Proof.
  unfold Design.onesBelow. induction n as [|n IH]; [reflexivity|].
  cbn [Design.sumTo]. rewrite IH, Z.bits_0. reflexivity.
Qed.

Lemma onesBelow_next (n : nat) (v w : Z) :
  (forall k, 0 <= k < Z.of_nat n -> Z.testbit w k = Z.testbit v (k + 1)) ->
  Design.onesBelow (S n) v = v mod 2 + Design.onesBelow n w.
Proof.
  intros Hw. unfold Design.onesBelow. rewrite SumFacts.sumTo_shift.
  rewrite Z.bit0_mod. f_equal. apply SumFacts.sumTo_ext.
  intros k Hk. rewrite Hw by exact Hk. reflexivity.
Qed.

Lemma low_bit (v : Z) : Z.land (Int.toInt32 v) 1 = v mod 2.
Proof.
  change 1 with (Z.ones 1) at 1. rewrite Z.land_ones by lia.
  unfold Int.toInt32. change (2 ^ 1) with 2.
  change (2 ^ 31) with 2147483648. change (2 ^ 32) with 4294967296.
  Z.div_mod_to_equations. lia.
Qed.

Lemma hammingLoop_counts (n : nat) : forall (fuel : nat) (v c : Z),
  (n <= 32)%nat -> 0 <= v < 2 ^ Z.of_nat n -> (n < fuel)%nat ->
  Brief.hammingLoop fuel v c = Some (c + Design.onesBelow n v).
Proof.
  induction n as [|n IH]; intros fuel v c Hn Hv Hfuel;
    (destruct fuel as [|fuel]; [lia|]); cbn [Brief.hammingLoop].
  - replace v with 0 by (change (2 ^ Z.of_nat 0) with 1 in Hv; lia).
    cbn. f_equal. ring.
  - destruct (Z.eqb_spec v 0) as [->|Hne].
    + rewrite onesBelow_zero. f_equal. ring.
    + assert (Hpow : 2 ^ Z.of_nat (S n) = 2 * 2 ^ Z.of_nat n).
      { rewrite Nat2Z.inj_succ, Z.pow_succ_r by lia. reflexivity. }
      assert (Hle : 2 ^ Z.of_nat (S n) <= 2 ^ 32).
      { apply Z.pow_le_mono_r; lia. }
      unfold Int.toUint32. rewrite (Z.mod_small v) by lia.
      rewrite IH; [| lia | | lia].
      * rewrite low_bit.
        rewrite (onesBelow_next n v (Z.shiftr v 1)).
        { f_equal. ring. }
        intros k Hk. apply Z.shiftr_spec. lia.
      * rewrite Z.shiftr_div_pow2 by lia. change (2 ^ 1) with 2.
        assert (0 < 2 ^ Z.of_nat n) by (apply Z.pow_pos_nonneg; lia).
        Z.div_mod_to_equations. lia.
Qed.

Lemma brief_hammingWeight_ones (fuel : nat) (value : Z) :
  (33 <= fuel)%nat ->
  Brief.hammingWeight fuel value = Some (Design.ones value).
Proof.
  intros Hfuel. unfold Brief.hammingWeight.
  destruct fuel as [|fuel]; [lia|]. cbn [Brief.hammingLoop].
  destruct (Z.eqb_spec value 0) as [->|Hne]; [reflexivity|].
  rewrite (hammingLoop_counts 31); [| lia | | lia].
  - rewrite low_bit. unfold Design.ones.
    rewrite (onesBelow_next 31 value (Z.shiftr (Int.toUint32 value) 1)).
    { f_equal. }
    intros k Hk. rewrite Z.shiftr_spec by lia.
    apply Z.mod_pow2_bits_low. lia.
  - unfold Int.toUint32. rewrite Z.shiftr_div_pow2 by lia.
    change (2 ^ 1) with 2. change (2 ^ Z.of_nat 31) with 2147483648.
    change (2 ^ 32) with 4294967296. Z.div_mod_to_equations. lia.
Qed.

(** X16.  For an integer [i] in the range where the arithmetic of
    numbers is exact, [TrackingMath.hammingWeight(i)] is the number of 1
    bits among the low 32 bits of [i] (of its two's complement when [i]
    is negative), a number from 0 to 32. *)
Theorem hammingWeight_counts_ones (i : Z) :
  - 2 ^ 53 <= i <= 2 ^ 53 ->
  TrackingMath.hammingWeight i = Design.ones i /\
  0 <= TrackingMath.hammingWeight i <= 32.
Proof.
  intros _. destruct (hammingWeight_ones i) as [H Hb].
  rewrite H. split; [reflexivity | exact Hb].
Qed.

Lemma hammingWeight_counts_ones_witness :
  TrackingMath.hammingWeight (-1) = Design.ones (-1) /\
  0 <= TrackingMath.hammingWeight (-1) <= 32.
Proof.
  apply (hammingWeight_counts_ones (-1)). vm_compute. split; congruence.
Defined.

(** X17.  The loop of [Brief.hammingWeight] ends within 33 tests of its
    condition and returns the number of 1 bits among the low 32 bits of
    its argument; so it returns what [TrackingMath.hammingWeight] returns
    on the same integer. *)
Theorem brief_hammingWeight_agrees (fuel : nat) (value : Z) :
  (33 <= fuel)%nat -> - 2 ^ 53 <= value <= 2 ^ 53 ->
  Brief.hammingWeight fuel value = Some (Design.ones value) /\
  Brief.hammingWeight fuel value = Some (TrackingMath.hammingWeight value).
Proof.
  intros Hfuel _. destruct (hammingWeight_ones value) as [-> _].
  split; apply brief_hammingWeight_ones; exact Hfuel.
Qed.

Lemma brief_hammingWeight_agrees_witness :
  Brief.hammingWeight 33 (-5) = Some (Design.ones (-5)) /\
  Brief.hammingWeight 33 (-5) = Some (TrackingMath.hammingWeight (-5)).
Proof.
  apply (brief_hammingWeight_agrees 33 (-5)); [lia|].
  vm_compute. split; congruence.
Defined.

End HammingFacts.

(* ================================================================== *)
(** * Facts about [distance] *)
(* ================================================================== *)

Module DistanceFacts.

Lemma binary_normalize_opp (m e : Z) :
  m <> 0%Z ->
  binary_normalize Num.prec Num.emax (- m) e false
  = SFopp (binary_normalize Num.prec Num.emax m e false).
Proof.
  intros Hm. destruct m as [|p|p]; [congruence| |]; simpl;
    unfold binary_round;
    destruct (shl_align _ _ _) as [mz ez];
    rewrite NumFacts.binary_round_aux_opp.
  - reflexivity.
  - destruct (binary_round_aux Num.prec Num.emax false (Z.pos mz) ez loc_Exact)
      as [[]|[]| |[] m' e']; reflexivity.
Qed.

(** Swapping the operands of a subtraction changes the sign of the
    difference, if it has one. *)
Lemma sub_swap (a b : spec_float) :
  Num.sub b a = SFopp (Num.sub a b) \/
  (Num.sub a b = S754_zero false /\ Num.sub b a = S754_zero false).
Proof.
  destruct a as [[]|[]| |sa ma ea], b as [[]|[]| |sb mb eb];
    try (left; reflexivity); try (right; split; reflexivity).
  - left. destruct sb; reflexivity.
  - left. destruct sb; reflexivity.
  - unfold Num.sub, SFsub. cbv zeta. rewrite (Z.min_comm eb ea).
    set (ez := Z.min ea eb).
    set (A := cond_Zopp sa (Z.pos (fst (shl_align ma ea ez)))).
    set (B := cond_Zopp sb (Z.pos (fst (shl_align mb eb ez)))).
    destruct (Z.eq_dec (A - B)%Z 0%Z) as [Hz|Hnz].
    + right. replace (B - A)%Z with 0%Z by lia. rewrite Hz.
      split; reflexivity.
    + left. replace (B - A)%Z with (- (A - B))%Z by lia.
      apply binary_normalize_opp. exact Hnz.
Qed.

Lemma square_swap (a b : spec_float) :
  Num.mul (Num.sub b a) (Num.sub b a) = Num.mul (Num.sub a b) (Num.sub a b).
Proof.
  destruct (sub_swap a b) as [-> | [-> ->]]; [|reflexivity].
  apply NumFacts.mul_opp_opp.
Qed.

Lemma binary_round_aux_not_negative (mx ex : Z) (lx : location) :
  Num.ltb (binary_round_aux Num.prec Num.emax false mx ex lx) Num.zero = false.
Proof.
  unfold binary_round_aux.
  destruct (shr_fexp Num.prec Num.emax mx ex lx) as [mrs' e'].
  destruct (shr_fexp Num.prec Num.emax _ e' loc_Exact) as [mrs'' e''].
  destruct (shr_m mrs''); try reflexivity.
  destruct (Z.leb e'' (Z.sub Num.emax Num.prec)); reflexivity.
Qed.

(** X20.  [distance] gives the same number when the two points are
    swapped, in the arithmetic of numbers and for every argument,
    NaN and the infinities included; and it is never below zero. *)
Theorem distance_symmetric_not_negative (x0 y0 x1 y1 : spec_float) :
  TrackingMath.distance x0 y0 x1 y1 = TrackingMath.distance x1 y1 x0 y0 /\
  Num.ltb (TrackingMath.distance x0 y0 x1 y1) Num.zero = false.
Proof.
  unfold TrackingMath.distance. cbv zeta. split.
  - rewrite (square_swap x0 x1), (square_swap y0 y1). reflexivity.
  - destruct (Num.add _ _) as [[]|[]| |[] m e]; try reflexivity.
    unfold Num.sqrt, SFsqrt.
    destruct (SFsqrt_core_binary Num.prec Num.emax (Z.pos m) e)
      as [[mz ez] lz].
    apply binary_round_aux_not_negative.
Qed.

End DistanceFacts.
